(** * Group-testing selectors: shallow embedding and verified properties

    The development follows the Python sources
    [group_selectors/split.py], [group_selectors/informative_dorfman.py],
    [group_selectors/mutual_information.py] and [samplers/dorfman_decoder.py].

    Conventions.
    - Boolean arrays are [list bool]; a group batch is a list of rows.
    - Floating-point quantities are idealised as real numbers ([R]); the
      comparisons of the code become the decidable comparisons of [R].
    - A Python exception is a value [Raise e] of the [result] type.
    - The belief state is read through the record [State]; the calls a
      selector makes on the state object are recorded as a list of
      [effect]s, in program order. *)

From Stdlib Require Import List ZArith Bool Arith Lia Reals Lra Permutation Sorted.
Import ListNotations.

(** ** Exceptions *)

Inductive exn : Type :=
| ValueError
| IndexError
| UnboundLocalError
| ZeroDivisionError.

Inductive result (A : Type) : Type :=
| Ok (a : A)
| Raise (e : exn).

Arguments Ok {A} a.
Arguments Raise {A} e.

Definition bind {A B : Type} (m : result A) (f : A -> result B) : result B :=
  match m with
  | Ok a => f a
  | Raise e => Raise e
  end.

Notation "x <- m ;; k" := (bind m (fun x => k))
  (at level 61, m at next level, right associativity).

(** ** The numpy operations the selectors use *)

Module Np.

Definition group := list bool.

(** [np.sum] of a boolean vector. *)
Fixpoint count_true (g : list bool) : nat :=
  match g with
  | [] => 0
  | b :: g' => (if b then 1 else 0) + count_true g'
  end.

(** [np.where(v)] for a one-dimensional [v], given as a predicate on the
    entries: the indices of the entries that satisfy it, increasing. *)
Fixpoint where_from {A : Type} (p : A -> bool) (i : nat) (v : list A) : list nat :=
  match v with
  | [] => []
  | x :: v' => if p x then i :: where_from p (S i) v' else where_from p (S i) v'
  end.

Definition where_ {A : Type} (p : A -> bool) (v : list A) : list nat :=
  where_from p 0 v.

(** [a[mask, :]]: the rows of [a] whose mask entry is [True]. *)
Fixpoint compress {A : Type} (mask : list bool) (rows : list A) : list A :=
  match mask, rows with
  | b :: mask', r :: rows' => if b then r :: compress mask' rows' else compress mask' rows'
  | _, _ => []
  end.

(** [np.sum(a, axis=0)] of a boolean matrix with [n] columns. *)
Definition sum_axis0 (n : nat) (rows : list group) : list nat :=
  map (fun j => count_true (map (fun r => nth j r false) rows)) (seq 0 n).

(** [z = zeros(n); z[idxs] = True]. *)
Definition put (n : nat) (idxs : list nat) : group :=
  map (fun j => existsb (Nat.eqb j) idxs) (seq 0 n).

(** One row of [jax.nn.one_hot(idxs, n)]. *)
Definition one_hot (n : nat) (i : nat) : group :=
  map (fun j => Nat.eqb i j) (seq 0 n).

(** Consecutive slices [l[d_k : d_(k+1)]] of the given lengths. *)
Fixpoint chunks {A : Type} (l : list A) (sizes : list nat) : list (list A) :=
  match sizes with
  | [] => []
  | s :: sizes' => firstn s l :: chunks (skipn s l) sizes'
  end.

(** [numpy.array_split(ary, sections)] with an integer number of sections:
    [divmod(len, sections)] gives [each] and [extras]; the first [extras]
    sections have [each + 1] elements, the other ones [each]. *)
Definition array_split {A : Type} (ary : list A) (sections : Z) : result (list (list A)) :=
  if (sections <=? 0)%Z then Raise ValueError
  else
    let k := Z.to_nat sections in
    let each := length ary / k in
    let extras := length ary mod k in
    Ok (chunks ary (repeat (S each) extras ++ repeat each (k - extras))).

(** [-(-a // b)] on Python integers. *)
Definition cdiv (a b : Z) : Z := (- ((- a) / b))%Z.

(** Number of columns of a two-dimensional array. *)
Definition shape1 {A : Type} (rows : list (list A)) : nat :=
  match rows with
  | [] => 0
  | r :: _ => length r
  end.

End Np.

(** ** The belief state, as the selectors read it *)

Record State : Type := mkState {
  num_patients : nat;
  max_group_size : Z;
  extra_tests_needed : Z;
  prior_infection_rate : list R;
  prior_sensitivity : list R;
  prior_specificity : list R;
  particle_weights : list R;
  particles : list (list bool);
  past_groups : list Np.group;
  past_test_results : list bool;
  to_clear_positives : list nat
}.

(** The operations a selector invokes on the state object. *)
Inductive effect : Type :=
| AddGroupsToTest (groups : list Np.group) (results_need_clearing : bool)
| UpdateToClearPositives
| SetAllCleared.

(** The part of the state object the selectors write. *)
Record Session : Type := mkSession {
  groups_to_test : list (Np.group * bool);
  all_cleared : bool
}.

(** Modelled from the spec: [State.add_groups_to_test] and the write of
    [all_cleared] (the class [State] is not among the sources).  A batch is
    appended to the pending-test queue, each group with its clearing flag;
    [update_to_clear_positives] only touches the clearance bookkeeping,
    which is not part of [Session]. *)
Definition apply_effect (s : Session) (e : effect) : Session :=
  match e with
  | AddGroupsToTest groups flag =>
      mkSession (groups_to_test s ++ map (fun g => (g, flag)) groups) (all_cleared s)
  | UpdateToClearPositives => s
  | SetAllCleared => mkSession (groups_to_test s) true
  end.

Definition run_effects (s : Session) (es : list effect) : Session :=
  fold_left apply_effect es s.

(** ** split.py *)

Module Split.
Import Np.

Definition ceil (x : R) : Z := (- Int_part (- x))%Z.

(** The branch [self.split_factor is None] of [SplitSelector.get_groups],
    after the size check: [group_size = 1 + ceil(1 / sqrt(rate))],
    [min(group_size, max_group_size)], [-(-num_patients // group_size)].
    A negative rate makes [sqrt] a NaN, which [array_split] rejects when it
    converts the factor with [int]; a zero rate gives an infinite size, so
    that [min] returns the integer [max_group_size]. *)
Definition dorfman_split_factor (rate : R) (n : nat) (mgs : Z) : result Z :=
  if Rlt_dec rate 0 then Raise ValueError
  else
    let group_size :=
      if Req_dec_T rate 0 then mgs
      else
        let g := (1 + ceil (1 / sqrt rate))%Z in
        if (mgs <? g)%Z then mgs else g in
    if (group_size =? 0)%Z then Raise ZeroDivisionError
    else Ok (cdiv (Z.of_nat n) group_size).

Definition SplitSelector_get_groups (split_factor : option Z) (st : State)
  : result (list group) :=
  factor <-
    match split_factor with
    | None =>
        if 1 <? length (prior_infection_rate st) then Raise ValueError
        else
          match prior_infection_rate st with
          | [rate] => dorfman_split_factor rate (num_patients st) (max_group_size st)
          | _ => Raise ValueError
          end
    | Some f =>
        if (max_group_size st =? 0)%Z then Raise ZeroDivisionError
        else
          let min_splits := cdiv (Z.of_nat (num_patients st)) (max_group_size st) in
          Ok (Z.max f min_splits)
    end ;;
  indices <- array_split (seq 0 (num_patients st)) factor ;;
  Ok (map (put (num_patients st)) indices).

Definition SplitSelector_call (split_factor : option Z) (st : State)
  : result (list effect) :=
  new_groups <- SplitSelector_get_groups split_factor st ;;
  Ok [AddGroupsToTest new_groups true].

(** The loop of [SplitPositive._split_groups].  [newg] is the variable of
    that name: unbound until the first group with more than one member has
    been split, and read at every iteration. *)
Fixpoint split_groups_loop (split_factor : option Z) (n_patients : nat)
  (groups : list group) (newg : option (list group)) (new_groups : list group)
  : result (list group) :=
  match groups with
  | [] => Ok new_groups
  | group_i :: rest =>
      newg' <-
        (if 1 <? count_true group_i then
           let indices := where_ (fun b : bool => b) group_i in
           let use_split_factor :=
             match split_factor with
             | None => Z.of_nat (length indices)
             | Some f => f
             end in
           parts <- array_split indices use_split_factor ;;
           Ok (Some (map (put n_patients) parts))
         else Ok newg) ;;
      match newg' with
      | None => Raise UnboundLocalError
      | Some rows => split_groups_loop split_factor n_patients rest newg' (new_groups ++ rows)
      end
  end.

Definition SplitPositive_split_groups (split_factor : option Z) (groups : list group)
  : result (list group) :=
  split_groups_loop split_factor (shape1 groups) groups None [].

(** [a[idxs, :]] with integer indices. *)
Fixpoint take_rows {A : Type} (rows : list A) (idxs : list nat) : result (list A) :=
  match idxs with
  | [] => Ok []
  | i :: idxs' =>
      match nth_error rows i with
      | None => Raise IndexError
      | Some r => rs <- take_rows rows idxs' ;; Ok (r :: rs)
      end
  end.

(** [SplitPositive.get_groups]; [None] is Python's [None]. *)
Definition SplitPositive_get_groups (split_factor : option Z) (st : State)
  : result (option (list group)) :=
  if (0 <? length (past_groups st) * shape1 (past_groups st))
     && (0 <? length (to_clear_positives st)) then
    to_split <- take_rows (past_groups st) (to_clear_positives st) ;;
    let to_split := filter (fun g => 1 <? count_true g) to_split in
    if 0 <? length to_split * shape1 to_split then
      new_groups <- SplitPositive_split_groups split_factor to_split ;;
      Ok (Some new_groups)
    else Ok None
  else Ok None.

Definition SplitPositive_call (split_factor : option Z) (st : State)
  : result (list effect) :=
  new_groups <- SplitPositive_get_groups split_factor st ;;
  match new_groups with
  | Some groups => Ok [AddGroupsToTest groups true; UpdateToClearPositives]
  | None => Ok [SetAllCleared]
  end.

(** [TwoDDorfmanPostSelector.__call__]. *)
Definition TwoDDorfmanPostSelector_call (st : State) : list effect :=
  let num_rows := 8 in
  let num_cols := 12 in
  if length (past_groups st) =? num_rows + num_cols then
    let returned_positive :=
      sum_axis0 (num_patients st) (compress (past_test_results st) (past_groups st)) in
    let total_positive_first_block :=
      count_true (firstn num_rows (past_test_results st)) in
    let total_positive_second_block :=
      count_true (firstn num_cols (skipn num_rows (past_test_results st))) in
    let reflex_to_test :=
      if xorb (0 <? total_positive_first_block) (0 <? total_positive_second_block)
      then where_ (fun c => negb (c =? 0)) returned_positive
      else where_ (fun c => 1 <? c) returned_positive in
    let new_groups := map (one_hot (num_patients st)) reflex_to_test in
    [AddGroupsToTest new_groups false]
  else [SetAllCleared].

End Split.

(** ** samplers/dorfman_decoder.py *)

Module Decoder.
Import Np.

(** The two members [produce_sample] writes.  The entries of the particle
    are floats holding small whole numbers; they are kept as integers. *)
Record Sampler : Type := mkSampler {
  sampler_particle_weights : list Z;
  sampler_particles : list (list Z)
}.

(** [(np.sum(groups, axis=1) == 1) * tests]. *)
Fixpoint ind_tests (groups : list group) (tests : list bool) : list bool :=
  match groups, tests with
  | g :: groups', t :: tests' => ((count_true g =? 1) && t) :: ind_tests groups' tests'
  | _, _ => []
  end.

Definition add_vec (a : list Z) (b : list nat) : list Z :=
  map (fun p => (fst p + Z.of_nat (snd p))%Z) (combine a b).

Definition produce_sample (st : State) : Sampler :=
  let marginal := repeat 0%Z (num_patients st) in
  let tests := past_test_results st in
  let groups := past_groups st in
  let ind := ind_tests groups tests in
  let marginal :=
    if 0 <? count_true ind
    then add_vec marginal (sum_axis0 (num_patients st) (compress ind groups))
    else marginal in
  mkSampler [1%Z] [marginal].

End Decoder.

(** ** Real-valued array operations *)

Module RNp.
Import Np.
Local Open Scope R_scope.

Definition Rltb (a b : R) : bool := if Rlt_dec a b then true else false.
Definition Rleb (a b : R) : bool := if Rle_dec a b then true else false.
Definition Reqb (a b : R) : bool := if Req_dec_T a b then true else false.

Definition b2r (b : bool) : R := if b then 1 else 0.

(** [np.sum] of a real vector. *)
Definition rsum (v : list R) : R := fold_right Rplus 0 v.

(** [np.sum(u * v)] for two vectors of the same length. *)
Definition dot (u v : list R) : R :=
  rsum (map (fun p => fst p * snd p) (combine u v)).

(** [a[idxs]] for an index array. *)
Definition gather {A : Type} (d : A) (a : list A) (idxs : list nat) : list A :=
  map (fun i => nth i a d) idxs.

(** [np.cumsum] and [np.cumprod]. *)
Fixpoint cumsum_from (acc : R) (v : list R) : list R :=
  match v with
  | [] => []
  | x :: v' => (acc + x) :: cumsum_from (acc + x) v'
  end.

Definition cumsum (v : list R) : list R := cumsum_from 0 v.

Fixpoint cumprod_from (acc : R) (v : list R) : list R :=
  match v with
  | [] => []
  | x :: v' => (acc * x) :: cumprod_from (acc * x) v'
  end.

Definition cumprod (v : list R) : list R := cumprod_from 1 v.

(** [np.diff]: [out[i] = v[i+1] - v[i]]. *)
Fixpoint diff (v : list R) : list R :=
  match v with
  | x :: ((y :: _) as v') => (y - x) :: diff v'
  | _ => []
  end.

(** [np.argsort]: the indices that sort [v] in ascending order, by
    insertion, equal keys keeping their order. *)
Fixpoint insert_key (x : R * nat) (l : list (R * nat)) : list (R * nat) :=
  match l with
  | [] => [x]
  | y :: l' => if Rle_dec (fst x) (fst y) then x :: l else y :: insert_key x l'
  end.

Definition sort_keys (l : list (R * nat)) : list (R * nat) :=
  fold_right insert_key [] l.

Definition argsort (v : list R) : list nat :=
  map snd (sort_keys (combine v (seq 0 (length v)))).

(** [np.argmin] and [np.argmax] of a non-empty vector: the first index
    that reaches the extremum. *)
Fixpoint argmin_from (best : R) (besti i : nat) (v : list R) : nat :=
  match v with
  | [] => besti
  | x :: v' =>
      if Rlt_dec x best then argmin_from x i (S i) v'
      else argmin_from best besti (S i) v'
  end.

Definition argmin (v : list R) : nat :=
  match v with
  | [] => 0%nat
  | x :: v' => argmin_from x 0 1 v'
  end.

Fixpoint argmax_from (best : R) (besti i : nat) (v : list R) : nat :=
  match v with
  | [] => besti
  | x :: v' =>
      if Rlt_dec best x then argmax_from x i (S i) v'
      else argmax_from best besti (S i) v'
  end.

Definition argmax (v : list R) : result nat :=
  match v with
  | [] => Raise ValueError
  | x :: v' => Ok (argmax_from x 0 1 v')
  end.

(** Modelled from the spec: [utils.select_from_sizes] for one size ([utils]
    is not among the sources).  The parameter is a table indexed by group
    size, a scalar being a table of length 1; a size at or beyond the length
    of the table selects the last entry. *)
Definition select_from_sizes (values : list R) (size : nat) : R :=
  nth (Nat.min size (length values) - 1) values 0.

End RNp.

(** ** informative_dorfman.py *)

Module InfDorfman.
Import Np RNp.
Local Open Scope R_scope.

Record InformativeDorfman : Type := mkInformativeDorfman {
  cut_off_high : R;
  cut_off_low : R;
  modified : bool
}.

(** A numpy array of dimension 0 or 1. *)
Inductive ndarray : Type :=
| Scalar0 (x : R)
| Vector (xs : list R).

(** [onp.squeeze] of a one-dimensional array: a single entry becomes a
    0-dimensional array. *)
Definition squeeze (xs : list R) : ndarray :=
  match xs with
  | [x] => Scalar0 x
  | _ => Vector xs
  end.

Definition entries (a : ndarray) : list R :=
  match a with
  | Scalar0 x => [x]
  | Vector xs => xs
  end.

(** [a[idxs]] with an integer index array: a 0-dimensional array accepts
    no index. *)
Definition take (a : ndarray) (idxs : list nat) : result (list R) :=
  match a with
  | Scalar0 _ => Raise IndexError
  | Vector xs => Ok (gather 0 xs idxs)
  end.

(** [np.sum(p_weights[:, np.newaxis] * particles, axis=0)]. *)
Definition marginal_of (st : State) : list R :=
  map (fun j => dot (particle_weights st) (map (fun p => b2r (nth j p false)) (particles st)))
      (seq 0 (num_patients st)).

Definition eligible (self : InformativeDorfman) (m : R) : bool :=
  Rltb m (cut_off_high self) && Rltb (cut_off_low self) m.

(** [exp_div_size] for [group_sizes = arange(1, index_max + 1)] and the
    window [sorted_marginal[n_p : n_p + index_max]]: entry [s - 1] is the
    expected number of tests per patient of a group of size [s]; entry 0 is
    then overwritten with 1, which fails on an empty array. *)
Definition exp_div_size (st : State) (index_max : nat) (window : list R) : result (list R) :=
  let group_sizes := seq 1 index_max in
  let cum_prod_prob := cumprod (map (fun m => 1 - m) window) in
  let costs :=
    map (fun sc =>
           let s := fst sc in
           let sensitivity := select_from_sizes (prior_sensitivity st) s in
           let specificity := select_from_sizes (prior_specificity st) s in
           (1 + INR s * (sensitivity + (1 - sensitivity - specificity) * snd sc)) / INR s)
        (combine group_sizes cum_prod_prob) in
  match costs with
  | [] => Raise IndexError
  | _ :: rest => Ok (1 :: rest)
  end.

(** The [while n_p < marginal.size] loop; [None] when the fuel runs out. *)
Fixpoint carve (fuel : nat) (st : State) (not_cut_ids sorted_ids : list nat)
  (sorted_marginal : list R) (n_p n_r : nat) (all_new_groups : list group)
  : option (result (list group)) :=
  if (n_p <? length sorted_marginal)%nat then
    match fuel with
    | O => None
    | S fuel' =>
        let index_max := Z.to_nat (Z.min (Z.of_nat n_r) (max_group_size st)) in
        let window := firstn index_max (skipn n_p sorted_marginal) in
        match exp_div_size st index_max window with
        | Raise e => Some (Raise e)
        | Ok costs =>
            let opt_size_group := S (argmin costs) in
            let members :=
              gather 0%nat not_cut_ids (firstn opt_size_group (skipn n_p sorted_ids)) in
            let new_group := put (num_patients st) members in
            carve fuel' st not_cut_ids sorted_ids sorted_marginal
                  (n_p + opt_size_group) (n_r - opt_size_group)
                  (all_new_groups ++ [new_group])
        end
    end
  else Some (Ok all_new_groups).

(** Everything [__call__] computes before it touches the state: [None] when
    no patient is left between the thresholds, else the groups formed. *)
Definition form_groups (self : InformativeDorfman) (st : State)
  : option (result (option (list group))) :=
  let marginal := squeeze (marginal_of st) in
  let not_cut_ids := where_ (eligible self) (entries marginal) in
  match take marginal not_cut_ids with
  | Raise e => Some (Raise e)
  | Ok marginal =>
      let sorted_ids := argsort marginal in
      let sorted_marginal := gather 0 marginal sorted_ids in
      let n_r := length marginal in
      if (n_r =? 0)%nat then Some (Ok None)
      else
        match carve n_r st not_cut_ids sorted_ids sorted_marginal 0 n_r [] with
        | None => None
        | Some (Raise e) => Some (Raise e)
        | Some (Ok groups) => Some (Ok (Some groups))
        end
  end.

(** [a[0:k]] on the rows of a batch. *)
Definition slice_to {A : Type} (k : Z) (rows : list A) : list A :=
  if (0 <=? k)%Z then firstn (Z.to_nat k) rows
  else firstn (length rows - Z.to_nat (- k)) rows.

(** [InformativeDorfman.__call__]; [permutation] is the row permutation
    that [jax.random.permutation] draws from [rng]. *)
Definition InformativeDorfman_call (self : InformativeDorfman)
  (permutation : list group -> list group) (st : State)
  : option (result (list effect)) :=
  match form_groups self st with
  | None => None
  | Some (Raise e) => Some (Raise e)
  | Some (Ok None) => Some (Ok [SetAllCleared])
  | Some (Ok (Some all_new_groups)) =>
      let all_new_groups := permutation all_new_groups in
      if modified self
      then Some (Ok [AddGroupsToTest (slice_to (extra_tests_needed st) all_new_groups) true])
      else Some (Ok [AddGroupsToTest all_new_groups true])
  end.

End InfDorfman.

(** ** mutual_information.py *)

Module MutualInformation.
Import Np RNp.
Local Open Scope R_scope.

Definition table := list (list R).

(** Modelled from the spec: [metrics.entropy] with [axis=None] and
    [metrics.binary_entropy] ([metrics] is not among the sources): Shannon
    entropy with the convention [0 * log 0 = 0], which [ln 0 = 0] gives. *)
Definition entropy (probabilities : list R) : R :=
  - rsum (map (fun x => x * ln x) probabilities).

Definition binary_entropy (p : R) : R :=
  - p * ln p - (1 - p) * ln (1 - p).

(** [collapse_particles]; [alpha] is the row that [jax.random.normal] draws
    from [rng]. *)
Definition collapse_particles (alpha : list R) (particle_weights : list R)
  (particles : list (list bool)) : list R * list (list bool) :=
  let n_particles := length particles in
  if (n_particles <? 2)%nat then (particle_weights, particles)
  else
    let random_projection := map (fun p => dot (map b2r p) alpha) particles in
    let indices := argsort random_projection in
    let particles := gather [] particles indices in
    let particle_weights := gather 0 particle_weights indices in
    let cumsum_particle_weights := cumsum particle_weights in
    let random_projection := gather 0 random_projection indices in
    let indices_singles :=
      where_ (fun d => negb (Reqb d 0)) (rev (diff (rev random_projection))) in
    let indices_singles := indices_singles ++ [(n_particles - 1)%nat] in
    let new_weights := diff (gather 0 cumsum_particle_weights indices_singles) in
    let new_weights :=
      nth (nth 0 indices_singles 0%nat) cumsum_particle_weights 0 :: new_weights in
    let new_particles := gather [] particles indices_singles in
    (new_weights, new_particles).

(** One row of [probabilities_new_test]. *)
Definition probabilities_new_test (positive_in_group : bool) (specificity rho : R) : R * R :=
  (specificity - rho * b2r positive_in_group,
   1 - specificity + rho * b2r positive_in_group).

Definition upd_prob_groups_x_particle_x_states (prob_prev : table)
  (positive_in_group : list bool) (specificity rho : R) : table :=
  map (fun rp =>
         let prob_new_test := probabilities_new_test (snd rp) specificity rho in
         map (Rmult (fst prob_new_test)) (fst rp) ++ map (Rmult (snd prob_new_test)) (fst rp))
      (combine prob_prev positive_in_group).

(** [compute_whole_entropy_groups] for one candidate: the entropy of the
    [2^k x 2] matrix [prob_prev.T @ (prob_new_test * particle_weights[:, None])]. *)
Definition compute_whole_entropy_groups (positive_in_group : list bool)
  (specificity rho : R) (particle_weights : list R) (prob_prev : table) : R :=
  let prob_new_test :=
    map (fun p => probabilities_new_test p specificity rho) positive_in_group in
  let weighted0 := map (fun pw => fst (fst pw) * snd pw) (combine prob_new_test particle_weights) in
  let weighted1 := map (fun pw => snd (fst pw) * snd pw) (combine prob_new_test particle_weights) in
  entropy
    (flat_map (fun s =>
                 let col := map (fun row => nth s row 0) prob_prev in
                 [dot col weighted0; dot col weighted1])
              (seq 0 (shape1 prob_prev))).

(** [jax.ops.index_update(g, i, v)]. *)
Fixpoint index_update (g : group) (i : nat) (v : bool) : group :=
  match g, i with
  | [], _ => []
  | _ :: g', O => v :: g'
  | b :: g', S i' => b :: index_update g' i' v
  end.

Definition add_ones_to_line (single_group : group) : list group :=
  map (fun i => index_update single_group i true) (where_ negb single_group).

Record Proposal : Type := mkProposal {
  new_group : group;
  new_positives : list bool;
  new_objective : R;
  prob_particles_states : table;
  new_cond_entropy : R
}.

Definition joint_mi_criterion_mg (particle_weights : list R) (particles : list (list bool))
  (cur_group : group) (cur_positives : list bool) (prob_prev : table)
  (previous_groups_cumcond_entropy : R) (sensitivity specificity : list R)
  (backtracking : bool) : result Proposal :=
  let group_size :=
    if backtracking then (count_true cur_group - 1)%nat else (count_true cur_group + 1)%nat in
  let sensitivity := select_from_sizes sensitivity group_size in
  let specificity := select_from_sizes specificity group_size in
  let indices_of_false_in_cur_group := where_ negb cur_group in
  let candidate_groups := map (map negb) (add_ones_to_line (map negb cur_group)) in
  let positive_in_groups :=
    if backtracking then
      map (fun cand =>
             map (fun particle => existsb (fun cp => fst cp && snd cp) (combine cand particle))
                 particles)
          candidate_groups
    else
      map (fun j =>
             map (fun pp => fst pp || nth j (snd pp) false) (combine cur_positives particles))
          indices_of_false_in_cur_group in
  let entropy_spec := binary_entropy specificity in
  let gamma := binary_entropy sensitivity - entropy_spec in
  let cond_entropy :=
    map (fun pos =>
           previous_groups_cumcond_entropy + entropy_spec
           + gamma * dot particle_weights (map b2r pos))
        positive_in_groups in
  let rho := specificity + sensitivity - 1 in
  let whole_entropy :=
    map (fun pos =>
           compute_whole_entropy_groups pos specificity rho particle_weights prob_prev)
        positive_in_groups in
  let objectives := map (fun wc => fst wc - snd wc) (combine whole_entropy cond_entropy) in
  index <- argmax objectives ;;
  let cur_group' :=
    if backtracking then nth index candidate_groups []
    else index_update cur_group (nth index indices_of_false_in_cur_group 0%nat) true in
  let cur_positives' := nth index positive_in_groups [] in
  Ok (mkProposal cur_group' cur_positives' (nth index objectives 0)
        (upd_prob_groups_x_particle_x_states prob_prev cur_positives' specificity rho)
        (nth index cond_entropy 0)).

Record MaxMutualInformation : Type := mkMaxMutualInformation {
  forward_iterations : nat;
  backward_iterations : nat
}.

(** [MaxMutualInformation.__init__]. *)
Definition MaxMutualInformation_init (forward_iterations backward_iterations : nat)
  : result MaxMutualInformation :=
  if (forward_iterations <=? backward_iterations)%nat then Raise ValueError
  else Ok (mkMaxMutualInformation forward_iterations backward_iterations).

(** The local variables of [get_groups] that one call of
    [joint_mi_criterion_mg] assigns besides the proposed group, and those
    the acceptance branch assigns.  Both sets are unbound until then. *)
Record Evaluated : Type := mkEvaluated {
  obj_new : R;
  proposed_group_prob_partstates : table;
  proposed_group_cumcond_entropy : R
}.

Record Accepted : Type := mkAccepted {
  cur_group : group;
  cur_groups_cumcond_entropy : R;
  cur_groups_recorded_prob_partstates : table
}.

(** The variables of [get_groups] that live across the groups of a batch;
    [substeps] is not a variable of the code: it records, for every group
    added, the number of passes through the body of the inner [while]. *)
Record Batch : Type := mkBatch {
  previous_groups_prob_partstates : table;
  previous_groups_cumcond_entropy : R;
  chosen_groups : list group;
  evaluated : option Evaluated;
  accepted : option Accepted;
  substeps : list nat
}.

(** [for _ in range(steps)] around the call of [joint_mi_criterion_mg]. *)
Fixpoint run_steps (steps : nat) (backtrack : bool) (st : State)
  (particle_weights : list R) (particles : list (list bool)) (b : Batch)
  (proposed_group : group) (positives : list bool) (ev : option Evaluated)
  : result (group * list bool * option Evaluated) :=
  match steps with
  | O => Ok (proposed_group, positives, ev)
  | S steps' =>
      p <- joint_mi_criterion_mg particle_weights particles proposed_group positives
             (previous_groups_prob_partstates b) (previous_groups_cumcond_entropy b)
             (prior_sensitivity st) (prior_specificity st) backtrack ;;
      run_steps steps' backtrack st particle_weights particles b
        (new_group p) (new_positives p)
        (Some (mkEvaluated (new_objective p) (prob_particles_states p) (new_cond_entropy p)))
  end.

(** One pass through the two [for] loops: [self.forward_iterations]
    additions, then [self.backward_iterations] removals. *)
Definition run_pass (self : MaxMutualInformation) (st : State)
  (particle_weights : list R) (particles : list (list bool)) (b : Batch)
  (proposed_group : group) (positives : list bool) (ev : option Evaluated)
  : result (group * list bool * option Evaluated) :=
  fw <- run_steps (forward_iterations self) false st particle_weights particles b
          proposed_group positives ev ;;
  run_steps (backward_iterations self) true st particle_weights particles b
            (fst (fst fw)) (snd (fst fw)) (snd fw).

(** The loop [while proposed_group_size + forward_it - backward_it <=
    max_group_size]; [None] when the fuel runs out.  The last component
    counts the passes through the body. *)
Fixpoint grow (fuel : nat) (self : MaxMutualInformation) (st : State)
  (particle_weights : list R) (particles : list (list bool)) (b : Batch)
  (proposed_group : group) (positives : list bool)
  (proposed_group_size : Z) (obj_old : R) (backward_it : Z)
  (ev : option Evaluated) (acc : option Accepted) (passes : nat)
  : option (result (option Evaluated * option Accepted * nat)) :=
  let forward_it := Z.of_nat (forward_iterations self) in
  if (proposed_group_size + forward_it - backward_it <=? max_group_size st)%Z then
    match fuel with
    | O => None
    | S fuel' =>
        match run_pass self st particle_weights particles b proposed_group positives ev with
        | Raise e => Some (Raise e)
        | Ok (g, pos, None) => Some (Raise UnboundLocalError)
        | Ok (g, pos, Some e) =>
            if Rlt_dec (obj_old + 1 / 1000000) (obj_new e) then
              let acc' :=
                Some (mkAccepted g (proposed_group_cumcond_entropy e)
                                 (proposed_group_prob_partstates e)) in
              let size' := (proposed_group_size + (forward_it - backward_it))%Z in
              let backward_it' :=
                Z.max backward_it (size' + forward_it - max_group_size st) in
              let backward_it' := Z.min backward_it' (forward_it - 1) in
              grow fuel' self st particle_weights particles b g pos
                   size' (obj_new e) backward_it' (Some e) acc' (S passes)
            else Some (Ok (Some e, acc, S passes))
        end
    end
  else Some (Ok (ev, acc, passes)).

(** The loop [while added_groups_counter < state.extra_tests_needed], for
    the [todo] groups that remain to be added. *)
Fixpoint add_groups (todo : nat) (self : MaxMutualInformation) (st : State)
  (particle_weights : list R) (particles : list (list bool)) (b : Batch)
  : option (result Batch) :=
  match todo with
  | O => Some (Ok b)
  | S todo' =>
      let n_patients := shape1 particles in
      let n_particles := length particles in
      match
        grow (S (Z.to_nat (max_group_size st))) self st particle_weights particles b
             (repeat false n_patients) (repeat false n_particles)
             0%Z (-1) (Z.of_nat (backward_iterations self))
             (evaluated b) (accepted b) 0
      with
      | None => None
      | Some (Raise e) => Some (Raise e)
      | Some (Ok (_, None, _)) => Some (Raise UnboundLocalError)
      | Some (Ok (ev, Some a, passes)) =>
          add_groups todo' self st particle_weights particles
            (mkBatch (cur_groups_recorded_prob_partstates a)
                     (cur_groups_cumcond_entropy a)
                     (chosen_groups b ++ [cur_group a])
                     ev (Some a) (substeps b ++ [passes]))
      end
  end.

(** The state of [get_groups] when its outer loop ends. *)
Definition get_groups_batch (self : MaxMutualInformation) (alpha : list R) (st : State)
  : option (result Batch) :=
  let '(particle_weights, particles) :=
    collapse_particles alpha (particle_weights st) (particles st) in
  let n_particles := length particles in
  add_groups (Z.to_nat (extra_tests_needed st)) self st particle_weights particles
    (mkBatch (repeat [1] n_particles) 0 [] None None []).

(** [MaxMutualInformation.get_groups]. *)
Definition get_groups (self : MaxMutualInformation) (alpha : list R) (st : State)
  : option (result (list group)) :=
  match get_groups_batch self alpha st with
  | None => None
  | Some (Raise e) => Some (Raise e)
  | Some (Ok b) => Some (Ok (chosen_groups b))
  end.

End MutualInformation.

(** ** The vocabulary of the statements *)

Module Spec.
Import Np RNp InfDorfman MutualInformation.

(** The number of past groups of size exactly 1 that tested positive and
    contain patient [j]. *)
Fixpoint positive_singletons (j : nat) (groups : list group) (tests : list bool) : nat :=
  match groups, tests with
  | g :: groups', t :: tests' =>
      (if (count_true g =? 1) && t && nth j g false then 1 else 0)
      + positive_singletons j groups' tests'
  | _, _ => 0
  end.


Local Open Scope R_scope.

Definition key_le (a b : R * nat) : Prop := fst a <= fst b.

(** Expected number of tests per patient of a group made of the first [s]
    of the remaining sorted marginals [rest]; a single patient costs 1. *)
Definition cost_per_patient (st : State) (rest : list R) (s : nat) : R :=
  if (s =? 1)%nat then 1
  else
    let se := select_from_sizes (prior_sensitivity st) s in
    let sp := select_from_sizes (prior_specificity st) s in
    (1 + INR s * (se + (1 - se - sp)
                        * fold_right Rmult 1 (map (fun m => 1 - m) (firstn s rest))))
    / INR s.

(** The candidate sizes at a position: 1 to min(remaining, max_group_size). *)
Definition candidate_size (st : State) (rest : list R) (s : nat) : Prop :=
  (1 <= s)%nat /\ (Z.of_nat s <= Z.min (Z.of_nat (length rest)) (max_group_size st))%Z.

(** The least candidate size among those of least cost. *)
Definition best_size (st : State) (rest : list R) (s : nat) : Prop :=
  candidate_size st rest s /\
  forall s', candidate_size st rest s' ->
    cost_per_patient st rest s <= cost_per_patient st rest s' /\
    ((s' < s)%nat -> cost_per_patient st rest s < cost_per_patient st rest s').

(** The sizes of the groups the cursor carves out of the sorted marginals. *)
Inductive greedy (st : State) : list R -> list nat -> Prop :=
| greedy_done : greedy st [] []
| greedy_step (rest : list R) (s : nat) (sizes : list nat) :
    rest <> [] ->
    best_size st rest s ->
    greedy st (skipn s rest) sizes ->
    greedy st rest (s :: sizes).

Definition group_of (st : State) (not_cut_ids : list nat) (chunk : list nat) : group :=
  put (num_patients st) (gather 0%nat not_cut_ids chunk).

(** One term of the entropy sum. *)
Definition eta (x : R) : R := - (x * ln x).

(** Sums over an index range. *)
Fixpoint bigsum (n : nat) (F : nat -> R) : R :=
  match n with
  | O => 0
  | S n' => bigsum n' F + F n'
  end.

(** A row of the table is a probability distribution over [c] outcomes. *)
Definition distribution (c : nat) (row : list R) : Prop :=
  length row = c /\ Forall (fun x => 0 <= x) row /\ rsum row = 1.

(** The table has one distribution over [c] outcomes per particle, and
    [cum] is the conditional entropy of the outcomes given the particle. *)
Definition table_ok (w : list R) (c : nat) (tab : table) (cum : R) : Prop :=
  length tab = length w /\
  Forall (distribution c) tab /\
  cum = bigsum (length w) (fun p => nth p w 0 * entropy (nth p tab [])).

Definition weights_ok (w : list R) : Prop :=
  Forall (fun x => 0 <= x) w /\ rsum w = 1.

Definition probability (x : R) : Prop := 0 <= x <= 1.

(** What a group and its vector of positives look like around a call. *)
Definition moved (backtracking : bool) (g g' : group) : Prop :=
  length g' = length g /\
  (if backtracking then S (count_true g') = count_true g
   else count_true g' = S (count_true g)).

Definition no_candidate (backtracking : bool) (g : group) : Prop :=
  if backtracking then count_true g = 0%nat else count_true g = length g.

(** The proposal is a fresh evaluation against the table [tab] of [c]
    columns: its criterion is non-negative and its table and conditional
    entropy extend those of the batch by one test. *)
Definition fresh (w : list R) (c : nat) (objective : R) (tab : table) (cum : R) : Prop :=
  0 <= objective /\ table_ok w (2 * c) tab cum.

Definition fresh_ev (w : list R) (c : nat) (ev : option Evaluated) : Prop :=
  exists e, ev = Some e /\
    fresh w c (obj_new e) (proposed_group_prob_partstates e)
          (proposed_group_cumcond_entropy e).

(** The tracked quantities at the head of the inner [while] loop. *)
Definition step_size (self : MaxMutualInformation) : nat :=
  forward_iterations self - backward_iterations self.

Definition good_group (self : MaxMutualInformation) (st : State)
  (n_patients : nat) (g : group) : Prop :=
  length g = n_patients /\
  (exists j, (1 <= j)%nat /\ count_true g = (j * step_size self)%nat) /\
  ((Z.of_nat (step_size self) | max_group_size st)%Z ->
   (Z.of_nat (count_true g) <= max_group_size st)%Z).

Definition good_acc (self : MaxMutualInformation) (st : State) (w : list R) (c : nat)
  (n_patients : nat) (acc : option Accepted) : Prop :=
  exists a, acc = Some a /\
    table_ok w (2 * c) (cur_groups_recorded_prob_partstates a)
             (cur_groups_cumcond_entropy a) /\
    good_group self st n_patients (cur_group a).

Definition precondition (self : MaxMutualInformation) (st : State) : Prop :=
  (Z.of_nat (forward_iterations self) - Z.of_nat (backward_iterations self)
   <= max_group_size st)%Z.

(** The invariant of the outer loop after [k] groups have been added. *)
Definition batch_ok (self : MaxMutualInformation) (st : State) (w : list R)
  (n_patients : nat) (b : Batch) : Prop :=
  table_ok w (2 ^ length (chosen_groups b))
           (previous_groups_prob_partstates b) (previous_groups_cumcond_entropy b) /\
  Forall (good_group self st n_patients) (chosen_groups b) /\
  length (substeps b) = length (chosen_groups b) /\
  Forall (fun passes => (1 <= passes)%nat) (substeps b).

(** The beliefs of the data model: as many weights as particles, the
    weights a probability vector, sensitivities and specificities in [0, 1]. *)
Definition valid_belief (st : State) : Prop :=
  length (particle_weights st) = length (particles st) /\
  weights_ok (particle_weights st) /\
  Forall probability (prior_sensitivity st) /\
  Forall probability (prior_specificity st).

(** The shapes the arrays of a state have: one weight per particle and one
    entry per patient in every particle; one result per past group and one
    entry per patient in every past group. *)
Definition belief_shape (st : State) : Prop :=
  length (particle_weights st) = length (particles st) /\
  Forall (fun particle => length particle = num_patients st) (particles st).

Definition history_shape (st : State) : Prop :=
  length (past_test_results st) = length (past_groups st) /\
  Forall (fun g => length g = num_patients st) (past_groups st).

(** The shapes of the arguments of [joint_mi_criterion_mg]: one weight, one
    entry of [cur_positives] and one row of the outcome table per particle,
    particles as wide as the group, and a rectangular table. *)
Definition criterion_shapes (w : list R) (parts : list (list bool)) (g : group)
  (pos : list bool) (tab : table) : Prop :=
  length parts = length w /\ length pos = length w /\ length tab = length w /\
  Forall (fun particle => length particle = length g) parts /\
  Forall (fun row => length row = shape1 tab) tab.

(** Whether a test of group [g] has an infected patient under [particle]:
    one entry of [np.dot(groups, particles.T) > 0]. *)
Definition tests_positive (g : group) (particle : list bool) : bool :=
  existsb (fun cp => fst cp && snd cp) (combine g particle).

(** The criterion of a candidate group, given the vector that says in which
    particles it would test positive: the entropy of the outcomes of all
    the tests minus their conditional entropy given the particle. *)
Definition criterion (w : list R) (tab : table) (cum sensitivity specificity : R)
  (positives : list bool) : R :=
  compute_whole_entropy_groups positives specificity (specificity + sensitivity - 1) w tab
  - (cum + binary_entropy specificity
     + (binary_entropy sensitivity - binary_entropy specificity)
       * dot w (map b2r positives)).

(** The vector of positives of the candidate that adds patient [j] to the
    group or, when backtracking, removes patient [j] from it. *)
Definition candidate_positives (parts : list (list bool)) (g : group) (pos : list bool)
  (backtracking : bool) (j : nat) : list bool :=
  if backtracking then map (tests_positive (index_update g j false)) parts
  else map (fun pp => fst pp || nth j (snd pp) false) (combine pos parts).

(** The lengths of the maximal runs of equal consecutive entries. *)
Fixpoint runs (l : list R) : list nat :=
  match l with
  | [] => []
  | x :: l' =>
      match runs l' with
      | [] => [1%nat]
      | k :: ks =>
          match l' with
          | [] => [1%nat]
          | y :: _ => if Req_dec_T x y then S k :: ks else 1%nat :: k :: ks
          end
      end
  end.

(** The index of the last entry of each of the consecutive blocks of the
    given sizes, the first block starting at index [s]. *)
Fixpoint ends_from (s : nat) (sizes : list nat) : list nat :=
  match sizes with
  | [] => []
  | k :: ks => (s + k - 1)%nat :: ends_from (s + k) ks
  end.

(** The total weight that a weighted population gives to the particle [q]. *)
Definition weight_of (q : list bool) (ws : list R) (ps : list (list bool)) : R :=
  rsum (map (fun wp => if list_eq_dec bool_dec (snd wp) q then fst wp else 0)
            (combine ws ps)).


End Spec.

(** ** Concrete states and selectors used in the examples *)

Module Fixtures.
Import Np InfDorfman MutualInformation.

(** The 8 x 12 assay matrix over 96 patients: row [r] pools the patients
    [12 r .. 12 r + 11], column [c] the patients congruent to [c] modulo 12;
    every one of the 20 pools came back negative. *)
Definition assay_groups : list group :=
  map (fun r => map (fun j => j / 12 =? r) (seq 0 96)) (seq 0 8) ++
  map (fun c => map (fun j => j mod 12 =? c) (seq 0 96)) (seq 0 12).

Definition assay_negative : State :=
  mkState 96 12 0 [(1/10)%R] [1%R] [1%R] [] [] assay_groups (repeat false 20) [].

(** The assay after a first wave in which the first row and the first
    column came back positive: the patient at their crossing is patient 0. *)
Definition assay_corner_positive : State :=
  mkState 96 12 0 [(1/10)%R] [1%R] [1%R] [] [] assay_groups
          ((true :: repeat false 7) ++ (true :: repeat false 11)) [].

Definition retested_twice : State :=
  mkState 2 2 0 [(1/10)%R] [1%R] [1%R] [] []
          [[true; false]; [true; false]] [true; true] [].

Definition two_patients (groups : list group) (pending : list nat) : State :=
  mkState 2 2 0 [(1/10)%R] [1%R] [1%R] [] [] groups (map (fun _ => true) groups) pending.


Local Open Scope R_scope.

Definition default_selector : InformativeDorfman := mkInformativeDorfman 1 0 false.

(** One patient, known to be infected: the marginal is 1. *)
Definition one_resolved_patient : State :=
  mkState 1 1 1 [1 / 10] [1] [1] [1] [[true]] [] [] [].

(** One patient, infected in one of two equally likely particles. *)
Definition one_open_patient : State :=
  mkState 1 1 1 [1 / 10] [1] [1] [1 / 2; 1 / 2] [[true]; [false]] [] [] [].

(** Two patients with marginals 1 and 0. *)
Definition two_resolved_patients : State :=
  mkState 2 2 1 [1 / 10] [1] [1] [1] [[true; false]] [] [] [].

(** Two patients with marginals 1/2 and 1/4. *)
Definition four_open_patients : State :=
  mkState 4 4 1 [1 / 10] [1] [1] [1 / 10; 9 / 10]
          [[true; true; true; true]; [false; false; false; false]] [] [] [].

Definition two_open_patients : State :=
  mkState 2 2 1 [1 / 10] [1] [1] [1 / 4; 1 / 4; 1 / 2]
          [[true; true]; [true; false]; [false; false]] [] [] [].


(** Two patients of marginal 1/2 each and no room in a pool. *)
Definition two_patients_no_room : State :=
  mkState 2 0 1 [1 / 10] [1] [1] [1 / 2; 1 / 2] [[true; false]; [false; true]] [] [] [].

(** The selector of the modified Informative Dorfman procedure. *)
Definition modified_selector : InformativeDorfman := mkInformativeDorfman 1 0 true.

Definition distinct_particles : list (list bool) := [[true]; [false]].
Definition uneven_weights : list R := [1 / 4; 3 / 4].
Definition twin_particles : list (list bool) := [[true]; [true]].
Definition half_weights : list R := [1 / 2; 1 / 2].
Definition unit_alpha : list R := [1].

Definition greedy_selector : MaxMutualInformation := mkMaxMutualInformation 1 0.
Definition wide_selector : MaxMutualInformation := mkMaxMutualInformation 2 0.

(** Three patients, one particle of weight 1, perfect tests. *)
Definition three_patients (max_group_size extra_tests_needed : Z) : State :=
  mkState 3 max_group_size extra_tests_needed [1 / 10] [1] [1] [1]
          [[true; false; false]] [] [] [].

(** Four patients, of whom at most one is infected: no infection with
    probability 1/2, each single infection with probability 1/8.  Perfect
    tests, groups of at most three patients, one test to add. *)
Definition at_most_one_infected : list (list bool) :=
  [[false; false; false; false]; [true; false; false; false]; [false; true; false; false];
   [false; false; true; false]; [false; false; false; true]].

Definition five_weights : list R := [1 / 2; 1 / 8; 1 / 8; 1 / 8; 1 / 8].

Definition four_patients_cap_three : State :=
  mkState 4 3 1 [1 / 10] [1] [1] five_weights at_most_one_infected [] [] [].

(** A draw of the random projection that tells the five particles apart. *)
Definition increasing_alpha : list R := [1; 2; 3; 4].

End Fixtures.

(* ================================================================== *)
(** * Properties *)

(** Evaluation of the real-valued code on a concrete input: unfold
    everything but the real operations, then settle each comparison. *)
Ltac eval_reals :=
  cbv -[Rle_dec Rlt_dec Req_dec_T Rplus Rmult Rminus Rdiv Rinv Ropp IZR ln].

Ltac decide_reals :=
  repeat match goal with
  | |- context [Rle_dec ?a ?b] =>
      let H := fresh in destruct (Rle_dec a b) as [H|H]; try (exfalso; lra)
  | |- context [Rlt_dec ?a ?b] =>
      let H := fresh in destruct (Rlt_dec a b) as [H|H]; try (exfalso; lra)
  | |- context [Req_dec_T ?a ?b] =>
      let H := fresh in destruct (Req_dec_T a b) as [H|H]; try (exfalso; lra)
  end.
(* ================================================================== *)

(** ** Shared facts about the array operations *)

Lemma bind_ok_inv {A B : Type} (m : result A) (f : A -> result B) (b : B) :
  bind m f = Ok b -> exists a, m = Ok a /\ f a = Ok b.
Proof.
  destruct m as [a|e]; simpl; intros H; [exists a; split; [reflexivity|exact H] | discriminate].
Qed.

Lemma compress_all_false {A : Type} (mask : list bool) (rows : list A) :
  Forall (fun b => b = false) mask -> Np.compress mask rows = [].
Proof.
  intros H; revert rows.
  induction H as [|b mask Hb _ IH]; intros [|r rows]; simpl; try reflexivity.
  rewrite Hb. apply IH.
Qed.

Lemma where_from_none {A : Type} (p : A -> bool) (v : list A) (i : nat) :
  Forall (fun x => p x = false) v -> Np.where_from p i v = [].
Proof.
  intros H; revert i.
  induction H as [|x v Hx _ IH]; intros i; simpl; [reflexivity|].
  rewrite Hx. apply IH.
Qed.

Lemma sum_axis0_nil (n : nat) : Np.sum_axis0 n [] = repeat 0 n.
Proof.
  unfold Np.sum_axis0. generalize 0 at 1 as s.
  induction n as [|n IH]; intros s; simpl; [reflexivity|].
  f_equal. apply IH.
Qed.

Lemma run_effects_empty_batch (s : Session) (flag : bool) :
  run_effects s [AddGroupsToTest [] flag] = s.
Proof.
  destruct s as [q c]. unfold run_effects; simpl. now rewrite app_nil_r.
Qed.

(** ** The two-stage matrix selector (C1) *)

Module TwoDFacts.
Import Np Split.
Import Spec Fixtures.

(** C1, as stated, fails: after the first wave of 20 all-negative pools the
    selector adds an empty batch and does not touch [all_cleared]. *)
Lemma two_d_all_negative_not_cleared :
  length (past_groups assay_negative) = 8 + 12 /\
  Forall (fun t => t = false) (past_test_results assay_negative) /\
  TwoDDorfmanPostSelector_call assay_negative = [AddGroupsToTest [] false] /\
  ~ In SetAllCleared (TwoDDorfmanPostSelector_call assay_negative) /\
  all_cleared
    (run_effects (mkSession [] false) (TwoDDorfmanPostSelector_call assay_negative)) = false.
Proof.
  assert (E : TwoDDorfmanPostSelector_call assay_negative = [AddGroupsToTest [] false])
    by (vm_compute; reflexivity).
  split; [reflexivity|]. split; [repeat constructor|]. split; [exact E|]. split.
  - rewrite E. intros [H|[]]. discriminate H.
  - rewrite E. reflexivity.
Qed.

(** C1 (amended).  With exactly 20 past groups, all of them negative, the
    selector passes an empty batch to [add_groups_to_test] and performs no
    other operation: the queue and [all_cleared] are left as they were.
    [all_cleared] is set exactly when the number of past groups is not 20. *)
Theorem two_d_all_negative_queues_nothing (st : State) :
  length (past_groups st) = 8 + 12 ->
  length (past_test_results st) = length (past_groups st) ->
  Forall (fun t => t = false) (past_test_results st) ->
  TwoDDorfmanPostSelector_call st = [AddGroupsToTest [] false] /\
  forall s : Session, run_effects s (TwoDDorfmanPostSelector_call st) = s.
Proof.
  intros Hlen _ Hneg.
  assert (E : TwoDDorfmanPostSelector_call st = [AddGroupsToTest [] false]).
  { unfold TwoDDorfmanPostSelector_call.
    rewrite Hlen, Nat.eqb_refl.
    rewrite (compress_all_false _ _ Hneg), sum_axis0_nil.
    assert (F0 : forall k, count_true (firstn k (past_test_results st)) = 0).
    { intros k. revert k. induction Hneg as [|t l Ht _ IH]; intros [|k]; simpl; try reflexivity.
      rewrite Ht. apply IH. }
    assert (F1 : forall k, count_true (firstn k (skipn 8 (past_test_results st))) = 0).
    { assert (Hs : Forall (fun t => t = false) (skipn 8 (past_test_results st))).
      { apply Forall_forall. intros x Hx. rewrite Forall_forall in Hneg.
        apply Hneg. revert Hx. generalize 8 as m. generalize (past_test_results st) as l.
        induction l as [|y l IH]; intros [|m] Hx; simpl in *; auto.
        right. eapply IH. exact Hx. }
      intros k. revert k. induction Hs as [|t l Ht _ IH]; intros [|k]; simpl; try reflexivity.
      rewrite Ht. apply IH. }
    rewrite F0, F1. change (xorb (0 <? 0) (0 <? 0)) with false. cbv iota.
    unfold where_. rewrite where_from_none; [reflexivity|].
    apply Forall_forall. intros x Hx. apply repeat_spec in Hx. subst x. reflexivity. }
  split; [exact E|].
  intros s. rewrite E. apply run_effects_empty_batch.
Qed.

Lemma two_d_all_negative_queues_nothing_witness :
  TwoDDorfmanPostSelector_call assay_negative = [AddGroupsToTest [] false] /\
  forall s : Session, run_effects s (TwoDDorfmanPostSelector_call assay_negative) = s.
Proof.
  apply (two_d_all_negative_queues_nothing assay_negative).
  - reflexivity.
  - reflexivity.
  - repeat constructor.
Defined.

(** On any other number of past groups the selector only sets [all_cleared]. *)
Lemma two_d_other_wave (st : State) :
  length (past_groups st) <> 8 + 12 ->
  TwoDDorfmanPostSelector_call st = [SetAllCleared].
Proof.
  intros H. unfold TwoDDorfmanPostSelector_call.
  destruct (Nat.eqb_spec (length (past_groups st)) (8 + 12)) as [E|E]; [contradiction|reflexivity].
Qed.

End TwoDFacts.

(** ** The Dorfman decoder (C4) *)

Module DecoderFacts.
Import Np Decoder.
Import Spec Fixtures.

(** C4, as stated, fails: a patient with two positive individual tests gets
    the value 2, not 1. *)
Lemma decoder_counts_repeated_tests :
  positive_singletons 0 (past_groups retested_twice) (past_test_results retested_twice) = 2 /\
  sampler_particles (produce_sample retested_twice) = [[2%Z; 0%Z]] /\
  nth 0 (nth 0 (sampler_particles (produce_sample retested_twice)) []) 0%Z <> 1%Z.
Proof.
  split; [reflexivity|]. split; [reflexivity|]. vm_compute. discriminate.
Qed.

(** The example of the specification. *)
Example decoder_spec_example :
  sampler_particles
    (produce_sample
       (mkState 3 3 0 [(1/10)%R] [1%R] [1%R] [] []
                [[true; false; false]; [false; true; true]] [true; true] []))
  = [[1%Z; 0%Z; 0%Z]].
Proof. reflexivity. Qed.

Lemma column_of_compress (j : nat) (groups : list group) (tests : list bool) :
  count_true (map (fun r => nth j r false) (compress (ind_tests groups tests) groups))
  = positive_singletons j groups tests.
Proof.
  revert tests. induction groups as [|g groups IH]; intros [|t tests]; simpl; try reflexivity.
  destruct ((count_true g =? 1) && t) eqn:E; simpl.
  - rewrite IH. reflexivity.
  - apply IH.
Qed.

Lemma count_true_zero_compress {A : Type} (mask : list bool) (rows : list A) :
  count_true mask = 0 -> compress mask rows = [].
Proof.
  revert rows. induction mask as [|b mask IH]; intros [|r rows] H; simpl in *; try reflexivity.
  destruct b; [discriminate|]. apply IH. exact H.
Qed.

Lemma nth_add_vec_zeros_from (n j s : nat) (f : nat -> nat) :
  j < n ->
  nth j (add_vec (repeat 0%Z n) (map f (seq s n))) 0%Z = Z.of_nat (f (s + j)).
Proof.
  unfold add_vec. revert j s.
  induction n as [|n IH]; intros j s Hj; [lia|].
  destruct j as [|j]; simpl.
  - now rewrite Nat.add_0_r.
  - rewrite IH by lia. f_equal. f_equal. lia.
Qed.

Lemma nth_add_vec_zeros (n j : nat) (f : nat -> nat) :
  j < n ->
  nth j (add_vec (repeat 0%Z n) (map f (seq 0 n))) 0%Z = Z.of_nat (f j).
Proof. intros H. now rewrite nth_add_vec_zeros_from. Qed.

(** C4 (amended).  The weight vector is the singleton [1]; the single
    particle has one entry per patient, and the entry of a patient is the
    number of positive past groups of size exactly 1 that contain the
    patient: 0 for a patient in no such group, at least 1 otherwise, and
    exactly 1 when there is one such group. *)
Theorem decoder_marginal_counts (st : State) :
  length (past_test_results st) = length (past_groups st) ->
  sampler_particle_weights (produce_sample st) = [1%Z] /\
  exists marginal,
    sampler_particles (produce_sample st) = [marginal] /\
    length marginal = num_patients st /\
    forall j, j < num_patients st ->
      nth j marginal 0%Z
      = Z.of_nat (positive_singletons j (past_groups st) (past_test_results st)).
Proof.
  intros _. split; [reflexivity|].
  unfold produce_sample. simpl sampler_particles.
  eexists. split; [reflexivity|]. split.
  - destruct (0 <? _); [|apply repeat_length].
    unfold add_vec, sum_axis0. rewrite length_map, length_combine, repeat_length, length_map, length_seq.
    apply Nat.min_id.
  - intros j Hj.
    destruct (Nat.ltb_spec 0 (count_true (ind_tests (past_groups st) (past_test_results st)))) as [H|H].
    + unfold sum_axis0. rewrite nth_add_vec_zeros by exact Hj.
      now rewrite column_of_compress.
    + rewrite nth_repeat.
      rewrite <- column_of_compress, count_true_zero_compress by lia. reflexivity.
Qed.

Lemma decoder_marginal_counts_witness :
  sampler_particle_weights (produce_sample retested_twice) = [1%Z] /\
  exists marginal,
    sampler_particles (produce_sample retested_twice) = [marginal] /\
    length marginal = num_patients retested_twice /\
    forall j, j < num_patients retested_twice ->
      nth j marginal 0%Z
      = Z.of_nat (positive_singletons j (past_groups retested_twice)
                                      (past_test_results retested_twice)).
Proof.
  apply (decoder_marginal_counts retested_twice). reflexivity.
Defined.

End DecoderFacts.

(** ** Split selectors: committed groups and their members (C2) *)

Module SplitFacts.
Import Np Split.
Import Spec Fixtures.

Lemma chunks_lengths {A : Type} (sizes : list nat) (l : list A) :
  list_sum sizes <= length l -> map (@length A) (chunks l sizes) = sizes.
Proof.
  revert l. induction sizes as [|s sizes IH]; intros l H; simpl in *; [reflexivity|].
  rewrite length_firstn, Nat.min_l by lia. f_equal.
  apply IH. rewrite length_skipn. lia.
Qed.

Lemma chunks_incl {A : Type} (sizes : list nat) (l p : list A) (x : A) :
  In p (chunks l sizes) -> In x p -> In x l.
Proof.
  revert l. induction sizes as [|s sizes IH]; intros l; simpl; [tauto|].
  intros [<-|Hp] Hx.
  - rewrite <- (firstn_skipn s l). apply in_or_app. now left.
  - rewrite <- (firstn_skipn s l). apply in_or_app. right. now apply IH.
Qed.

Lemma list_sum_repeat (a m : nat) : list_sum (repeat a m) = m * a.
Proof. induction m as [|m IH]; simpl; [reflexivity|]. rewrite IH. reflexivity. Qed.

Lemma section_sizes_sum (len k : nat) :
  0 < k ->
  list_sum (repeat (S (len / k)) (len mod k) ++ repeat (len / k) (k - len mod k)) = len.
Proof.
  intros Hk. rewrite list_sum_app, !list_sum_repeat.
  pose proof (Nat.div_mod_eq len k) as E.
  pose proof (Nat.mod_upper_bound len k ltac:(lia)) as U.
  nia.
Qed.

(** When there are at most as many sections as elements, no section of
    [array_split] is empty. *)
Lemma array_split_nonempty {A : Type} (l : list A) (k : Z) (parts : list (list A)) :
  (k <= Z.of_nat (length l))%Z ->
  array_split l k = Ok parts ->
  Forall (fun p => 1 <= length p) parts.
Proof.
  unfold array_split. intros Hk.
  destruct (Z.leb_spec k 0) as [H0|H0]; [discriminate|].
  intros [= <-].
  set (n := Z.to_nat k). assert (Hn : 0 < n <= length l) by lia.
  assert (Hd : 1 <= length l / n) by (apply Nat.div_le_lower_bound; lia).
  apply Forall_forall. intros p Hp.
  pose proof (chunks_lengths (repeat (S (length l / n)) (length l mod n)
                              ++ repeat (length l / n) (n - length l mod n)) l) as HL.
  rewrite section_sizes_sum in HL by lia. specialize (HL (Nat.le_refl _)).
  apply (in_map (@length A)) in Hp. rewrite HL in Hp.
  apply in_app_or in Hp. destruct Hp as [Hp|Hp]; apply repeat_spec in Hp; lia.
Qed.

Lemma array_split_incl {A : Type} (l : list A) (k : Z) (parts : list (list A)) (p : list A) (x : A) :
  array_split l k = Ok parts -> In p parts -> In x p -> In x l.
Proof.
  unfold array_split. destruct (k <=? 0)%Z; [discriminate|].
  intros [= <-]. apply chunks_incl.
Qed.

Lemma put_has_member (n : nat) (idxs : list nat) (i : nat) :
  In i idxs -> i < n -> In true (put n idxs).
Proof.
  intros Hi Hn. unfold put. apply in_map_iff. exists i. split.
  - apply existsb_exists. exists i. split; [exact Hi|apply Nat.eqb_refl].
  - apply in_seq. lia.
Qed.

Lemma where_from_bound {A : Type} (p : A -> bool) (v : list A) (s i : nat) :
  In i (where_from p s v) -> s <= i < s + length v.
Proof.
  revert s. induction v as [|x v IH]; intros s; simpl; [tauto|].
  destruct (p x); simpl; [intros [<-|H]|intros H]; try lia; apply IH in H; lia.
Qed.

Lemma where_from_length (v : list bool) (s : nat) :
  length (where_from (fun b : bool => b) s v) = count_true v.
Proof.
  revert s. induction v as [|b v IH]; intros s; simpl; [reflexivity|].
  destruct b; simpl; now rewrite IH.
Qed.

(** The rows built from the sections of a split all have a member. *)
Lemma split_rows_have_members (n : nat) (l : list nat) (k : Z) (parts : list (list nat)) :
  (k <= Z.of_nat (length l))%Z ->
  Forall (fun i => i < n) l ->
  array_split l k = Ok parts ->
  Forall (fun g => In true g) (map (put n) parts).
Proof.
  intros Hk Hl Hs. apply Forall_forall. intros g Hg.
  apply in_map_iff in Hg. destruct Hg as [p [<- Hp]].
  pose proof (array_split_nonempty l k parts Hk Hs) as Hne.
  rewrite Forall_forall in Hne. specialize (Hne p Hp).
  destruct p as [|i p']; [simpl in Hne; lia|].
  apply (put_has_member n (i :: p') i); [now left|].
  rewrite Forall_forall in Hl. apply Hl.
  apply (array_split_incl l k parts (i :: p') i Hs Hp). now left.
Qed.

Lemma split_groups_loop_members (f : Z) (n : nat) (groups : list group) :
  forall (newg : option (list group)) (acc out : list group),
  Forall (fun g => length g = n /\ (f <= Z.of_nat (count_true g))%Z) groups ->
  Forall (fun g => In true g) acc ->
  (forall rows, newg = Some rows -> Forall (fun g => In true g) rows) ->
  split_groups_loop (Some f) n groups newg acc = Ok out ->
  Forall (fun g => In true g) out.
Proof.
  induction groups as [|g groups IH]; intros newg acc out Hg Hacc Hnewg; simpl.
  - now intros [= <-].
  - intros H. apply bind_ok_inv in H. destruct H as [newg' [H1 H2]].
    inversion Hg as [|? ? [Hlen Hf] Hrest]; subst.
    assert (Hnewg' : forall rows, newg' = Some rows -> Forall (fun g => In true g) rows).
    { destruct (1 <? count_true g).
      - apply bind_ok_inv in H1. destruct H1 as [parts [Hs [= <-]]].
        intros rows [= <-].
        eapply split_rows_have_members; [| |exact Hs].
        + unfold where_. now rewrite where_from_length.
        + apply Forall_forall. intros i Hi. apply where_from_bound in Hi. lia.
      - injection H1 as <-. exact Hnewg. }
    destruct newg' as [rows|]; [|discriminate].
    eapply IH; [exact Hrest| |exact Hnewg'|exact H2].
    apply Forall_app. split; [exact Hacc|]. now apply Hnewg'.
Qed.

Lemma take_rows_in {A : Type} (rows : list A) (idxs : list nat) (out : list A) (r : A) :
  take_rows rows idxs = Ok out -> In r out ->
  exists i, In i idxs /\ nth_error rows i = Some r.
Proof.
  revert out. induction idxs as [|i idxs IH]; intros out; simpl.
  - intros [= <-] [].
  - destruct (nth_error rows i) as [r0|] eqn:E; [|discriminate].
    intros H. apply bind_ok_inv in H. destruct H as [rs [H1 [= <-]]].
    intros [<-|Hin].
    + exists i. split; [now left|exact E].
    + destruct (IH rs H1 Hin) as [i' [Hi' E']]. exists i'. split; [now right|exact E'].
Qed.

(** C2, as stated, fails for both selectors: a split factor of 3 applied to
    two patients produces a third group without any member. *)
Lemma split_factor_beyond_members_empty_group :
  SplitSelector_call (Some 3%Z) (two_patients [] [])
  = Ok [AddGroupsToTest [[true; false]; [false; true]; [false; false]] true] /\
  SplitPositive_call (Some 3%Z) (two_patients [[true; true]] [0])
  = Ok [AddGroupsToTest [[true; false]; [false; true]; [false; false]] true;
        UpdateToClearPositives] /\
  ~ In true [false; false].
Proof.
  split; [reflexivity|]. split; [reflexivity|].
  intros [H|[H|[]]]; discriminate H.
Qed.

(** C2 (amended).  Every row of the batch passed to [add_groups_to_test] has
    a member when the split factor in force does not exceed the number of
    patients it splits: for [SplitSelector] (with at least one patient and a
    positive [max_group_size]) when the explicit factor is at most
    [num_patients], and then the call does commit a batch; for
    [SplitPositive] when the explicit factor is at most the number of
    members of every pending group with more than one member. *)
Theorem split_committed_groups_have_members (f : Z) (st : State) :
  (1 <= num_patients st /\ (1 <= max_group_size st)%Z /\ (f <= Z.of_nat (num_patients st))%Z ->
   exists batch,
     SplitSelector_call (Some f) st = Ok [AddGroupsToTest batch true] /\
     Forall (fun g => In true g) batch) /\
  (Forall (fun g => length g = num_patients st) (past_groups st) ->
   (forall i g, In i (to_clear_positives st) -> nth_error (past_groups st) i = Some g ->
                1 < count_true g -> (f <= Z.of_nat (count_true g))%Z) ->
   forall es batch flag,
     SplitPositive_call (Some f) st = Ok es ->
     In (AddGroupsToTest batch flag) es ->
     Forall (fun g => In true g) batch).
Proof.
  split.
  - intros (Hn & Hm & Hf).
    unfold SplitSelector_call, SplitSelector_get_groups.
    destruct (Z.eqb_spec (max_group_size st) 0) as [E|_]; [lia|]. cbn [bind].
    set (k := Z.max f (cdiv (Z.of_nat (num_patients st)) (max_group_size st))).
    assert (Hk : (1 <= k <= Z.of_nat (num_patients st))%Z).
    { unfold k, cdiv.
      assert (- Z.of_nat (num_patients st) / max_group_size st <= -1)%Z.
      { apply Z.lt_succ_r. apply Z.div_lt_upper_bound; lia. }
      assert (- Z.of_nat (num_patients st) <= - Z.of_nat (num_patients st) / max_group_size st)%Z.
      { apply Z.div_le_lower_bound; nia. }
      lia. }
    destruct (array_split (seq 0 (num_patients st)) k) as [parts|e] eqn:Hs.
    + cbn [bind]. eexists. split; [reflexivity|].
      eapply split_rows_have_members; [| |exact Hs].
      * rewrite length_seq. lia.
      * apply Forall_forall. intros i Hi. apply in_seq in Hi. lia.
    + exfalso. unfold array_split in Hs.
      destruct (Z.leb_spec k 0); [lia|discriminate].
  - intros Hw Hf es batch flag Hcall Hin.
    unfold SplitPositive_call in Hcall.
    apply bind_ok_inv in Hcall. destruct Hcall as [ng [Hget Hes]].
    destruct ng as [groups|].
    2:{ injection Hes as <-. destruct Hin as [H|[]]. discriminate H. }
    injection Hes as <-.
    destruct Hin as [H|[H|[]]]; [|discriminate H]. injection H as <- <-.
    unfold SplitPositive_get_groups in Hget.
    destruct (_ && _); [|discriminate].
    apply bind_ok_inv in Hget. destruct Hget as [rows [Htake Hget]].
    set (to_split := filter (fun g => 1 <? count_true g) rows) in *.
    destruct (0 <? length to_split * shape1 to_split); [|discriminate].
    apply bind_ok_inv in Hget. destruct Hget as [out [Hsplit [= <-]]].
    assert (Hall : Forall (fun g => length g = num_patients st
                                    /\ (f <= Z.of_nat (count_true g))%Z) to_split).
    { apply Forall_forall. intros g Hg. apply filter_In in Hg. destruct Hg as [Hg Hc].
      apply Nat.ltb_lt in Hc.
      destruct (take_rows_in _ _ _ _ Htake Hg) as [i [Hi E]].
      rewrite Forall_forall in Hw. split.
      - apply Hw. eapply nth_error_In. exact E.
      - eapply Hf; eauto. }
    unfold SplitPositive_split_groups in Hsplit.
    assert (Hshape : shape1 to_split = num_patients st \/ to_split = []).
    { destruct to_split as [|g ts]; [now right|left]. simpl.
      inversion Hall as [|? ? [Hl _] _]. exact Hl. }
    destruct Hshape as [Hshape|Hnil].
    + rewrite Hshape in Hsplit.
      eapply split_groups_loop_members; [exact Hall| | |exact Hsplit].
      * constructor.
      * intros rows0 H. discriminate H.
    + rewrite Hnil in Hsplit. simpl in Hsplit. injection Hsplit as <-. constructor.
Qed.

Lemma split_committed_groups_have_members_witness :
  (exists batch,
     SplitSelector_call (Some 2%Z) (two_patients [[true; true]] [0])
     = Ok [AddGroupsToTest batch true] /\
     Forall (fun g => In true g) batch) /\
  Forall (fun g => In true g) [[true; false]; [false; true]].
Proof.
  pose proof (split_committed_groups_have_members 2%Z (two_patients [[true; true]] [0]))
    as [HA HB].
  split.
  - apply HA. simpl. lia.
  - apply (HB ltac:(repeat constructor)) with
      (es := [AddGroupsToTest [[true; false]; [false; true]] true; UpdateToClearPositives])
      (flag := true).
    + intros i g [<-|[]]. simpl. intros [= <-] _. simpl. lia.
    + reflexivity.
    + now left.
Defined.

End SplitFacts.

(** ** Configuration errors (C6) *)

Module ConfigFacts.
Import Np Split MutualInformation.
Import Spec Fixtures.



Lemma array_split_ok {A : Type} (l : list A) (k : Z) :
  (1 <= k)%Z -> exists parts, array_split l k = Ok parts.
Proof.
  intros Hk. unfold array_split.
  destruct (Z.leb_spec k 0); [lia|]. eexists. reflexivity.
Qed.



End ConfigFacts.

(** ** Sorting and extremum facts *)

Module RNpFacts.
Import Np RNp.
Import Spec Fixtures.
Local Open Scope R_scope.

Lemma insert_key_perm (x : R * nat) (l : list (R * nat)) :
  Permutation (insert_key x l) (x :: l).
Proof.
  induction l as [|y l IH]; simpl; [apply Permutation_refl|].
  destruct (Rle_dec (fst x) (fst y)); [apply Permutation_refl|].
  eapply perm_trans; [apply perm_skip, IH|apply perm_swap].
Qed.

Lemma sort_keys_perm (l : list (R * nat)) : Permutation (sort_keys l) l.
Proof.
  induction l as [|x l IH]; simpl; [constructor|].
  eapply perm_trans; [apply insert_key_perm|now apply perm_skip].
Qed.

Lemma insert_key_sorted (x : R * nat) (l : list (R * nat)) :
  StronglySorted key_le l -> StronglySorted key_le (insert_key x l).
Proof.
  induction 1 as [|y l Hs IH Hy]; simpl.
  - constructor; constructor.
  - destruct (Rle_dec (fst x) (fst y)) as [Hle|Hgt].
    + constructor; [constructor; assumption|].
      constructor; [exact Hle|].
      rewrite Forall_forall in Hy |- *. intros z Hz. specialize (Hy z Hz).
      unfold key_le in *. lra.
    + constructor; [exact IH|].
      rewrite Forall_forall in Hy |- *. intros z Hz.
      apply (Permutation_in _ (insert_key_perm x l)) in Hz.
      destruct Hz as [<-|Hz]; [unfold key_le; lra|now apply Hy].
Qed.

Lemma sort_keys_sorted (l : list (R * nat)) : StronglySorted key_le (sort_keys l).
Proof.
  induction l as [|x l IH]; simpl; [constructor|now apply insert_key_sorted].
Qed.

Lemma combine_seq_keys (v : list R) (s : nat) :
  Forall (fun p => nth (snd p - s) v 0 = fst p /\ (s <= snd p < s + length v)%nat)
         (combine v (seq s (length v))).
Proof.
  revert s. induction v as [|x v IH]; intros s; simpl; [constructor|].
  constructor.
  - simpl. rewrite Nat.sub_diag. split; [reflexivity|lia].
  - specialize (IH (S s)). rewrite Forall_forall in IH |- *.
    intros [y i] Hp. destruct (IH _ Hp) as [E B]. simpl in *.
    split; [|lia].
    replace (i - s)%nat with (S (i - S s)) by lia. exact E.
Qed.

Lemma map_snd_combine_seq (v : list R) (s : nat) :
  map snd (combine v (seq s (length v))) = seq s (length v).
Proof.
  revert s. induction v as [|x v IH]; intros s; simpl; [reflexivity|].
  now rewrite IH.
Qed.

Lemma argsort_perm (v : list R) : Permutation (argsort v) (seq 0 (length v)).
Proof.
  unfold argsort. rewrite <- (map_snd_combine_seq v 0) at 2.
  apply Permutation_map, sort_keys_perm.
Qed.

Lemma argsort_length (v : list R) : length (argsort v) = length v.
Proof.
  rewrite (Permutation_length (argsort_perm v)). apply length_seq.
Qed.

Lemma gather_argsort (v : list R) :
  gather 0 v (argsort v) = map fst (sort_keys (combine v (seq 0 (length v)))).
Proof.
  unfold gather, argsort. rewrite map_map.
  apply map_ext_in. intros p Hp.
  apply (Permutation_in _ (sort_keys_perm _)) in Hp.
  pose proof (combine_seq_keys v 0) as H. rewrite Forall_forall in H.
  destruct (H p Hp) as [E _]. now rewrite Nat.sub_0_r in E.
Qed.

Lemma gather_argsort_sorted (v : list R) : StronglySorted Rle (gather 0 v (argsort v)).
Proof.
  rewrite gather_argsort.
  generalize (sort_keys_sorted (combine v (seq 0 (length v)))).
  generalize (sort_keys (combine v (seq 0 (length v)))).
  induction 1 as [|y l Hs IH Hy]; simpl; constructor; [exact IH|].
  rewrite Forall_forall in Hy |- *. intros z Hz.
  apply in_map_iff in Hz. destruct Hz as [p [<- Hp]]. now apply Hy.
Qed.

(** [argmin_from]: either the running best survives, or the result is the
    first position of the least entry of the rest. *)
Lemma argmin_from_spec (v : list R) :
  forall best besti i,
  let r := argmin_from best besti i v in
  (r = besti /\ Forall (fun x => best <= x) v) \/
  (exists k, r = (i + k)%nat /\ (k < length v)%nat /\ nth k v 0 < best /\
             (forall j, (j < k)%nat -> nth k v 0 < nth j v 0) /\
             (forall j, (j < length v)%nat -> nth k v 0 <= nth j v 0)).
Proof.
  induction v as [|x v IH]; intros best besti i; simpl.
  - left. split; [reflexivity|constructor].
  - destruct (Rlt_dec x best) as [Hlt|Hge].
    + right. destruct (IH x i (S i)) as [[E Hall]|(k & E & Hk & Hb & Hfirst & Hmin)].
      * exists 0%nat. rewrite E. split; [lia|]. split; [lia|]. split; [exact Hlt|].
        split; [intros j Hj; lia|].
        intros [|j] Hj; simpl; [lra|].
        rewrite Forall_forall in Hall. apply Hall, nth_In. lia.
      * exists (S k). rewrite E. split; [lia|]. split; [lia|]. simpl.
        split; [lra|]. split.
        -- intros [|j] Hj; [lra|]. apply Hfirst. lia.
        -- intros [|j] Hj; [lra|]. apply Hmin. lia.
    + destruct (IH best besti (S i)) as [[E Hall]|(k & E & Hk & Hb & Hfirst & Hmin)].
      * left. split; [exact E|]. constructor; [lra|exact Hall].
      * right. exists (S k). rewrite E. split; [lia|]. split; [lia|]. simpl.
        split; [exact Hb|]. split.
        -- intros [|j] Hj; [lra|]. apply Hfirst. lia.
        -- intros [|j] Hj; [lra|]. apply Hmin. lia.
Qed.

(** [argmin] returns the first index of a least entry. *)
Lemma argmin_first_least (v : list R) :
  v <> [] ->
  (argmin v < length v)%nat /\
  (forall j, (j < length v)%nat -> nth (argmin v) v 0 <= nth j v 0) /\
  (forall j, (j < argmin v)%nat -> nth (argmin v) v 0 < nth j v 0).
Proof.
  destruct v as [|x v]; [congruence|intros _]. unfold argmin.
  destruct (argmin_from_spec v x 0%nat 1%nat) as [[E Hall]|(k & E & Hk & Hb & Hfirst & Hmin)];
    cbv zeta in E; rewrite E.
  - simpl. split; [lia|]. split; [|intros j Hj; lia].
    intros [|j] Hj; [lra|]. rewrite Forall_forall in Hall. apply Hall, nth_In. lia.
  - simpl. split; [lia|]. split.
    + intros [|j] Hj; [lra|]. apply Hmin. lia.
    + intros [|j] Hj; [lra|]. apply Hfirst. lia.
Qed.

Lemma cumprod_from_length (acc : R) (v : list R) : length (cumprod_from acc v) = length v.
Proof. revert acc. induction v as [|x v IH]; intros acc; simpl; [reflexivity|now rewrite IH]. Qed.

Lemma cumprod_from_nth (v : list R) (acc : R) (i : nat) :
  (i < length v)%nat ->
  nth i (cumprod_from acc v) 0 = acc * fold_right Rmult 1 (firstn (S i) v).
Proof.
  revert acc i. induction v as [|x v IH]; intros acc i Hi; simpl in Hi; [lia|].
  destruct i as [|i].
  - simpl. destruct v; simpl; ring.
  - change (nth (S i) (cumprod_from acc (x :: v)) 0) with (nth i (cumprod_from (acc * x) v) 0).
    rewrite IH by lia. rewrite (firstn_cons (S i) x v). simpl fold_right. ring.
Qed.

End RNpFacts.

(** ** Informative Dorfman (C8, C9) *)

Module InfDorfmanFacts.
Import Np RNp RNpFacts InfDorfman.
Import Spec Fixtures.
Local Open Scope R_scope.

(** *** The code against the rule *)

Lemma nth_map_in {A B : Type} (f : A -> B) (l : list A) (i : nat) (da : A) (db : B) :
  (i < length l)%nat -> nth i (map f l) db = f (nth i l da).
Proof.
  intros H. rewrite (nth_indep _ db (f da)) by (now rewrite length_map).
  apply map_nth.
Qed.

Lemma exp_div_size_costs (st : State) (rest : list R) (index_max : nat) :
  (1 <= index_max <= length rest)%nat ->
  exists costs,
    exp_div_size st index_max (firstn index_max rest) = Ok costs /\
    length costs = index_max /\
    forall i, (i < index_max)%nat -> nth i costs 0 = cost_per_patient st rest (S i).
Proof.
  intros [H1 H2]. unfold exp_div_size.
  set (f := fun sc : nat * R =>
              (1 + INR (fst sc) * (select_from_sizes (prior_sensitivity st) (fst sc)
                 + (1 - select_from_sizes (prior_sensitivity st) (fst sc)
                      - select_from_sizes (prior_specificity st) (fst sc)) * snd sc))
              / INR (fst sc)).
  set (cp := cumprod (map (fun m => 1 - m) (firstn index_max rest))).
  assert (Lcp : length cp = index_max).
  { unfold cp, cumprod. rewrite cumprod_from_length, length_map, length_firstn. lia. }
  assert (Lc : length (combine (seq 1 index_max) cp) = index_max).
  { rewrite length_combine, length_seq, Lcp. lia. }
  assert (Hn : forall i, (i < index_max)%nat ->
             nth i (map f (combine (seq 1 index_max) cp)) 0
             = f (S i, fold_right Rmult 1 (map (fun m => 1 - m) (firstn (S i) rest)))).
  { intros i Hi. rewrite (nth_map_in f _ i (0%nat, 0)) by lia.
    rewrite combine_nth by (rewrite length_seq; lia).
    rewrite seq_nth by lia. f_equal. f_equal.
    unfold cp, cumprod. rewrite cumprod_from_nth by (rewrite length_map, length_firstn; lia).
    rewrite Rmult_1_l. f_equal.
    rewrite <- !firstn_map. rewrite firstn_firstn. f_equal. lia. }
  destruct (map f (combine (seq 1 index_max) cp)) as [|c0 rest_costs] eqn:E.
  - apply (f_equal (@length R)) in E. rewrite length_map, Lc in E. simpl in E. lia.
  - exists (1 :: rest_costs). split; [reflexivity|]. split.
    + apply (f_equal (@length R)) in E. rewrite length_map, Lc in E. simpl in *. lia.
    + intros [|i] Hi; [reflexivity|].
      change (nth (S i) (1 :: rest_costs) 0) with (nth (S i) (c0 :: rest_costs) 0).
      rewrite Hn by lia. unfold cost_per_patient, f. simpl fst. simpl snd.
      destruct (Nat.eqb_spec (S (S i)) 1); [lia|reflexivity].
Qed.

Lemma carve_greedy (st : State) (not_cut_ids sorted_ids : list nat) (sorted_marginal : list R) :
  (1 <= max_group_size st)%Z ->
  forall fuel n_p n_r all_new_groups,
  (n_p + n_r = length sorted_marginal)%nat ->
  (n_r <= fuel)%nat ->
  exists sizes,
    carve fuel st not_cut_ids sorted_ids sorted_marginal n_p n_r all_new_groups
    = Some (Ok (all_new_groups
                ++ map (group_of st not_cut_ids) (chunks (skipn n_p sorted_ids) sizes))) /\
    greedy st (skipn n_p sorted_marginal) sizes /\
    list_sum sizes = n_r.
Proof.
  intros Hm. induction fuel as [|fuel IH]; intros n_p n_r acc Hlen Hfuel.
  - assert (n_r = 0%nat) by lia. subst n_r. exists []. simpl.
    destruct (Nat.ltb_spec n_p (length sorted_marginal)); [lia|].
    rewrite app_nil_r. split; [reflexivity|]. split; [|reflexivity].
    rewrite skipn_all2 by lia. constructor.
  - cbn [carve]. cbv zeta.
    destruct (Nat.ltb_spec n_p (length sorted_marginal)) as [Hlt|Hge].
    2:{ assert (n_r = 0%nat) by lia. subst n_r. exists []. simpl.
        rewrite app_nil_r. split; [reflexivity|]. split; [|reflexivity].
        rewrite skipn_all2 by lia. constructor. }
    set (rest := skipn n_p sorted_marginal).
    assert (Lrest : length rest = n_r) by (unfold rest; rewrite length_skipn; lia).
    set (index_max := Z.to_nat (Z.min (Z.of_nat n_r) (max_group_size st))).
    assert (Him : (1 <= index_max <= length rest)%nat) by (unfold index_max; lia).
    destruct (exp_div_size_costs st rest index_max Him) as (costs & -> & Lcosts & Hcosts).
    assert (Hne : costs <> []) by (intros ->; simpl in Lcosts; lia).
    destruct (argmin_first_least costs Hne) as (Ha & Hmin & Hfirst).
    set (opt := S (argmin costs)).
    destruct (IH (n_p + opt)%nat (n_r - opt)%nat
                 (acc ++ [put (num_patients st)
                            (gather 0%nat not_cut_ids (firstn opt (skipn n_p sorted_ids)))]))
      as (sizes & Hcarve & Hgreedy & Hsum); [unfold opt; lia|unfold opt; lia|].
    exists (opt :: sizes). split; [|split].
    + fold opt. rewrite Hcarve. rewrite <- app_assoc. cbn [chunks map app].
      rewrite skipn_skipn. rewrite (Nat.add_comm opt n_p). reflexivity.
    + constructor.
      * intros E. rewrite E in Lrest. simpl in Lrest. lia.
      * assert (Hcand : forall s, candidate_size st rest s <-> (1 <= s <= index_max)%nat).
        { intros s. unfold candidate_size, index_max. rewrite Lrest. lia. }
        split; [apply Hcand; unfold opt; lia|].
        intros s' Hs'. apply Hcand in Hs'.
        destruct s' as [|i]; [lia|].
        unfold opt. rewrite <- !Hcosts by lia. split.
        -- apply Hmin. lia.
        -- intros Hlt'. apply Hfirst. lia.
      * unfold rest. rewrite skipn_skipn. rewrite (Nat.add_comm opt n_p). exact Hgreedy.
    + simpl. rewrite Hsum. unfold opt. lia.
Qed.

Lemma where_from_iff {A : Type} (p : A -> bool) (d : A) (v : list A) (s i : nat) :
  In i (where_from p s v) <->
  (s <= i < s + length v)%nat /\ p (nth (i - s) v d) = true.
Proof.
  revert s. induction v as [|x v IH]; intros s; cbn [where_from length].
  - split; [intros []|intros [H _]; lia].
  - assert (Hx : forall j, (S s <= j)%nat -> nth (j - s) (x :: v) d = nth (j - S s) v d).
    { intros j Hj. replace (j - s)%nat with (S (j - S s)) by lia. reflexivity. }
    assert (H0 : nth (s - s) (x :: v) d = x) by (now rewrite Nat.sub_diag).
    destruct (p x) eqn:E; cbn [In]; rewrite IH; split.
    + intros [<-|[H1 H2]].
      * split; [lia|]. now rewrite H0.
      * split; [lia|]. now rewrite Hx by lia.
    + intros [H1 H2]. destruct (Nat.eq_dec s i) as [->|Hne]; [now left|right].
      split; [lia|]. now rewrite <- Hx by lia.
    + intros [H1 H2]. split; [lia|]. now rewrite Hx by lia.
    + intros [H1 H2]. destruct (Nat.eq_dec s i) as [<-|Hne].
      * rewrite H0 in H2. congruence.
      * split; [lia|]. now rewrite <- Hx by lia.
Qed.

Lemma where_from_NoDup {A : Type} (p : A -> bool) (v : list A) (s : nat) :
  NoDup (where_from p s v).
Proof.
  revert s. induction v as [|x v IH]; intros s; simpl; [constructor|].
  destruct (p x); [|apply IH]. constructor; [|apply IH].
  intros H. apply (where_from_iff p x) in H. lia.
Qed.

Lemma gather_seq_from {A : Type} (d : A) (pre l : list A) :
  map (fun i => nth i (pre ++ l) d) (seq (length pre) (length l)) = l.
Proof.
  revert pre. induction l as [|x l IH]; intros pre; simpl; [reflexivity|].
  rewrite app_nth2, Nat.sub_diag by lia. simpl. f_equal.
  specialize (IH (pre ++ [x])). rewrite <- app_assoc, length_app in IH. simpl in IH.
  rewrite Nat.add_1_r in IH. exact IH.
Qed.

Lemma gather_seq {A : Type} (d : A) (l : list A) : gather d l (seq 0 (length l)) = l.
Proof. exact (gather_seq_from d [] l). Qed.

Lemma chunks_map {A B : Type} (f : A -> B) (sizes : list nat) (l : list A) :
  map (map f) (chunks l sizes) = chunks (map f l) sizes.
Proof.
  revert l. induction sizes as [|s sizes IH]; intros l; simpl; [reflexivity|].
  now rewrite IH, firstn_map, skipn_map.
Qed.

Lemma concat_chunks {A : Type} (sizes : list nat) (l : list A) :
  list_sum sizes = length l -> concat (chunks l sizes) = l.
Proof.
  revert l. induction sizes as [|s sizes IH]; intros l H; simpl in *.
  - destruct l; [reflexivity|discriminate].
  - rewrite IH by (rewrite length_skipn; lia). apply firstn_skipn.
Qed.

Lemma nth_put (n p : nat) (idxs : list nat) :
  (p < n)%nat -> nth p (put n idxs) false = existsb (Nat.eqb p) idxs.
Proof.
  intros H. unfold put. rewrite (nth_map_in _ _ p 0%nat) by (now rewrite length_seq).
  now rewrite seq_nth.
Qed.

Lemma existsb_eqb_in (p : nat) (l : list nat) : existsb (Nat.eqb p) l = true <-> In p l.
Proof.
  rewrite existsb_exists. split.
  - intros [x [Hx E]]. apply Nat.eqb_eq in E. now subst.
  - intros H. exists p. split; [exact H|apply Nat.eqb_refl].
Qed.

(** With pairwise disjoint chunks, a patient is in exactly as many rows as
    it has occurrences in their concatenation: one or none. *)
Lemma membership_count (n p : nat) (cs : list (list nat)) :
  (p < n)%nat -> NoDup (concat cs) ->
  count_true (map (fun g => nth p g false) (map (put n) cs))
  = if existsb (Nat.eqb p) (concat cs) then 1%nat else 0%nat.
Proof.
  intros Hp. induction cs as [|c cs IH]; simpl; intros Hnd; [reflexivity|].
  rewrite nth_put by exact Hp. rewrite existsb_app.
  assert (Hnd' : NoDup (concat cs)) by (eapply NoDup_app_remove_l; exact Hnd).
  rewrite (IH Hnd').
  destruct (existsb (Nat.eqb p) c) eqn:Ec; simpl; [|reflexivity].
  destruct (existsb (Nat.eqb p) (concat cs)) eqn:Er; [|reflexivity].
  exfalso. apply existsb_eqb_in in Ec. apply existsb_eqb_in in Er.
  revert Hnd Ec Er. clear. induction c as [|x c IHc]; simpl; [tauto|].
  intros Hnd [->|Hc] Hr.
  - inversion Hnd as [|? ? Hnot _]; subst. apply Hnot, in_or_app. now right.
  - inversion Hnd; subst. now apply IHc.
Qed.

Lemma squeeze_vector (xs : list R) : length xs <> 1%nat -> squeeze xs = Vector xs.
Proof. destruct xs as [|x [|y xs]]; simpl; intros H; auto; lia. Qed.

Lemma marginal_of_length (st : State) : length (marginal_of st) = num_patients st.
Proof. unfold marginal_of. now rewrite length_map, length_seq. Qed.

(** The general statement of C8 and C9, for states with other than exactly
    one patient (see below for that case). *)
Lemma informative_dorfman_groups (self : InformativeDorfman) (st : State) :
  num_patients st <> 1%nat ->
  (1 <= max_group_size st)%Z ->
  where_ (eligible self) (marginal_of st) <> [] ->
  exists order sizes,
    Permutation order (where_ (eligible self) (marginal_of st)) /\
    StronglySorted Rle (gather 0 (marginal_of st) order) /\
    greedy st (gather 0 (marginal_of st) order) sizes /\
    form_groups self st
    = Some (Ok (Some (map (put (num_patients st)) (chunks order sizes)))) /\
    forall p, (p < num_patients st)%nat ->
      count_true (map (fun g => nth p g false)
                      (map (put (num_patients st)) (chunks order sizes)))
      = if eligible self (nth p (marginal_of st) 0) then 1%nat else 0%nat.
Proof.
  intros Hn Hm Hne.
  set (xs := marginal_of st) in *.
  set (ids := where_ (eligible self) xs) in *.
  set (m' := gather 0 xs ids).
  set (sorted_ids := argsort m').
  set (order := gather 0%nat ids sorted_ids).
  assert (Lm' : length m' = length ids) by (unfold m', gather; apply length_map).
  assert (Lsorted : length sorted_ids = length ids)
    by (unfold sorted_ids; now rewrite argsort_length).
  assert (Hperm : Permutation order ids).
  { assert (H : Permutation sorted_ids (seq 0 (length ids)))
      by (unfold sorted_ids; rewrite <- Lm'; apply argsort_perm).
    apply (Permutation_map (fun i => nth i ids 0%nat)) in H.
    pose proof (gather_seq 0%nat ids) as G. unfold gather in G.
    rewrite G in H. exact H. }
  assert (Hsm : gather 0 m' sorted_ids = gather 0 xs order).
  { unfold order, gather. rewrite map_map. apply map_ext_in. intros i Hi.
    unfold m', gather. apply (nth_map_in (fun k => nth k xs 0) ids i 0%nat 0).
    apply (Permutation_in _ (argsort_perm m')) in Hi. apply in_seq in Hi. lia. }
  destruct (carve_greedy st ids sorted_ids (gather 0 m' sorted_ids) Hm
              (length m') 0%nat (length m') [])
    as (sizes & Hcarve & Hgreedy & Hsum).
  { unfold gather at 1. rewrite length_map. simpl. lia. }
  { lia. }
  exists order, sizes.
  split; [exact Hperm|]. split; [rewrite <- Hsm; apply gather_argsort_sorted|].
  split; [rewrite <- Hsm; exact Hgreedy|].
  assert (Hgroups : map (group_of st ids) (chunks sorted_ids sizes)
                    = map (put (num_patients st)) (chunks order sizes)).
  { unfold order, gather. rewrite <- chunks_map, map_map. reflexivity. }
  split.
  - unfold form_groups. fold xs. rewrite squeeze_vector
      by (unfold xs; rewrite marginal_of_length; exact Hn).
    cbn [entries take]. fold ids. fold m'. fold sorted_ids.
    destruct (Nat.eqb_spec (length m') 0) as [E|_].
    { exfalso. rewrite Lm' in E. destruct ids; [congruence|discriminate]. }
    simpl skipn in Hcarve. rewrite Hcarve. simpl app. now rewrite Hgroups.
  - intros p Hp. rewrite membership_count; [|exact Hp|].
    + rewrite concat_chunks by (unfold order, gather; rewrite length_map; lia).
      destruct (eligible self (nth p xs 0)) eqn:E.
      * assert (In p order); [|now rewrite (proj2 (existsb_eqb_in p order))].
        apply (Permutation_in _ (Permutation_sym Hperm)).
        apply (where_from_iff _ 0). rewrite Nat.sub_0_r. split; [|exact E].
        unfold xs. rewrite marginal_of_length. lia.
      * destruct (existsb (Nat.eqb p) order) eqn:Ex; [|reflexivity].
        apply existsb_eqb_in in Ex. apply (Permutation_in _ Hperm) in Ex.
        apply (where_from_iff _ 0) in Ex. rewrite Nat.sub_0_r in Ex.
        destruct Ex as [_ Ex]. congruence.
    + rewrite concat_chunks by (unfold order, gather; rewrite length_map; lia).
      apply (Permutation_NoDup (Permutation_sym Hperm)). apply where_from_NoDup.
Qed.

Lemma informative_dorfman_nobody_eligible (self : InformativeDorfman)
  (permutation : list group -> list group) (st : State) :
  num_patients st <> 1%nat ->
  Forall (fun m => ~ (cut_off_low self < m < cut_off_high self)) (marginal_of st) ->
  InformativeDorfman_call self permutation st = Some (Ok [SetAllCleared]).
Proof.
  intros Hn Hnone.
  unfold InformativeDorfman_call, form_groups.
  rewrite squeeze_vector by (rewrite marginal_of_length; exact Hn).
  cbn [entries take].
  assert (E : where_ (eligible self) (marginal_of st) = []).
  { apply where_from_none. rewrite Forall_forall in Hnone |- *. intros m Hm.
    specialize (Hnone m Hm). unfold eligible, Rltb.
    destruct (Rlt_dec m (cut_off_high self)); [|reflexivity].
    destruct (Rlt_dec (cut_off_low self) m); [|reflexivity].
    exfalso. apply Hnone. split; assumption. }
  rewrite E. reflexivity.
Qed.

(** *** A single patient *)

(** With exactly one patient [onp.squeeze] turns the marginal into a
    0-dimensional array, and [marginal[not_cut_ids]] raises. *)
Lemma informative_dorfman_one_patient (self : InformativeDorfman)
  (permutation : list group -> list group) (st : State) :
  num_patients st = 1%nat ->
  InformativeDorfman_call self permutation st = Some (Raise IndexError).
Proof.
  intros Hn. unfold InformativeDorfman_call, form_groups.
  pose proof (marginal_of_length st) as L. rewrite Hn in L.
  destruct (marginal_of st) as [|x [|y xs]]; try discriminate L.
  reflexivity.
Qed.

(** Four patients of marginal 1/10 each and perfect tests: one pool of
    four costs 1/4 + 1 - (9/10)^4 per patient, the least of the four sizes. *)
Example informative_dorfman_four_open_patients :
  form_groups default_selector four_open_patients
  = Some (Ok (Some [[true; true; true; true]])).
Proof. eval_reals. decide_reals. reflexivity. Qed.

(** C9.  When no marginal lies strictly between the two cut-offs the call
    only sets [all_cleared], whatever the permutation drawn, provided the
    state does not have exactly one patient.  With exactly one patient
    (whose marginal 1 is outside the open interval (0, 1)) the call raises
    instead of setting [all_cleared]. *)
Theorem informative_dorfman_all_cleared :
  (forall (self : InformativeDorfman) (permutation : list group -> list group) (st : State),
     num_patients st <> 1%nat ->
     Forall (fun m => ~ (cut_off_low self < m < cut_off_high self)) (marginal_of st) ->
     InformativeDorfman_call self permutation st = Some (Ok [SetAllCleared])) /\
  (Forall (fun m => ~ (cut_off_low default_selector < m < cut_off_high default_selector))
          (marginal_of one_resolved_patient) /\
   InformativeDorfman_call default_selector (fun groups => groups) one_resolved_patient
   = Some (Raise IndexError)).
Proof.
  split; [exact informative_dorfman_nobody_eligible|]. split.
  - repeat constructor. unfold dot, rsum, b2r. simpl. lra.
  - now apply informative_dorfman_one_patient.
Qed.

Lemma informative_dorfman_all_cleared_witness :
  InformativeDorfman_call default_selector (fun groups => groups) two_resolved_patients
  = Some (Ok [SetAllCleared]).
Proof.
  apply (proj1 informative_dorfman_all_cleared).
  - simpl. lia.
  - repeat constructor; unfold dot, rsum, b2r; simpl; lra.
Defined.

(** C8.  For a state with other than exactly one patient, a positive
    [max_group_size] and at least one eligible patient: the eligible
    patients, put in ascending order of marginal ([order]), are cut into
    consecutive groups whose sizes follow the rule [greedy] (at each
    position the least size of least cost among 1 .. min(remaining,
    max_group_size), a single patient costing 1); these are the groups
    formed, and every eligible patient is in exactly one of them and every
    other patient in none.  With exactly one patient, eligible, the call
    raises instead of forming the group. *)
Theorem informative_dorfman_greedy_partition :
  (forall (self : InformativeDorfman) (st : State),
     num_patients st <> 1%nat ->
     (1 <= max_group_size st)%Z ->
     where_ (eligible self) (marginal_of st) <> [] ->
     exists order sizes,
       Permutation order (where_ (eligible self) (marginal_of st)) /\
       StronglySorted Rle (gather 0 (marginal_of st) order) /\
       greedy st (gather 0 (marginal_of st) order) sizes /\
       form_groups self st
       = Some (Ok (Some (map (put (num_patients st)) (chunks order sizes)))) /\
       forall p, (p < num_patients st)%nat ->
         count_true (map (fun g => nth p g false)
                         (map (put (num_patients st)) (chunks order sizes)))
         = if eligible self (nth p (marginal_of st) 0) then 1%nat else 0%nat) /\
  (where_ (eligible default_selector) (marginal_of one_open_patient) = [0%nat] /\
   InformativeDorfman_call default_selector (fun groups => groups) one_open_patient
   = Some (Raise IndexError)).
Proof.
  split; [exact informative_dorfman_groups|]. split.
  - unfold where_, marginal_of, eligible, default_selector, Rltb, dot, rsum, b2r. simpl.
    destruct (Rlt_dec _ _) as [_|H]; [|exfalso; apply H; lra].
    destruct (Rlt_dec _ _) as [_|H]; [|exfalso; apply H; lra].
    reflexivity.
  - now apply informative_dorfman_one_patient.
Qed.

Lemma informative_dorfman_greedy_partition_witness :
  exists order sizes,
    Permutation order (where_ (eligible default_selector) (marginal_of two_open_patients)) /\
    StronglySorted Rle (gather 0 (marginal_of two_open_patients) order) /\
    greedy two_open_patients (gather 0 (marginal_of two_open_patients) order) sizes /\
    form_groups default_selector two_open_patients
    = Some (Ok (Some (map (put (num_patients two_open_patients)) (chunks order sizes)))) /\
    forall p, (p < num_patients two_open_patients)%nat ->
      count_true (map (fun g => nth p g false)
                      (map (put (num_patients two_open_patients)) (chunks order sizes)))
      = if eligible default_selector (nth p (marginal_of two_open_patients) 0)
        then 1%nat else 0%nat.
Proof.
  apply (proj1 informative_dorfman_greedy_partition).
  - simpl. lia.
  - simpl. lia.
  - unfold where_, marginal_of, eligible, default_selector, Rltb, dot, rsum, b2r. simpl.
    destruct (Rlt_dec _ _) as [_|H]; [|exfalso; apply H; lra].
    destruct (Rlt_dec _ _) as [_|H]; [|exfalso; apply H; lra].
    discriminate.
Defined.

End InfDorfmanFacts.

(** ** Particle collapsing (C5) *)

Module CollapseFacts.
Import Np RNp RNpFacts MutualInformation.
Import Spec Fixtures.
Local Open Scope R_scope.

Lemma rsum_app (u v : list R) : rsum (u ++ v) = rsum u + rsum v.
Proof. induction u as [|x u IH]; simpl; [ring|]. rewrite IH. ring. Qed.

Lemma rsum_perm (u v : list R) : Permutation u v -> rsum u = rsum v.
Proof.
  induction 1 as [|x u v _ IH|x y u|u v t _ IH1 _ IH2]; simpl; try lra.
Qed.

Lemma rsum_nonneg (v : list R) : Forall (fun x => 0 <= x) v -> 0 <= rsum v.
Proof. induction 1 as [|x v Hx _ IH]; simpl; lra. Qed.

(** A head followed by the successive differences sums to the last entry. *)
Lemma rsum_head_diff (l : list R) (x : R) : rsum (x :: diff (x :: l)) = last (x :: l) 0.
Proof.
  revert x. induction l as [|y l IH]; intros x.
  - simpl. ring.
  - change (diff (x :: y :: l)) with ((y - x) :: diff (y :: l)).
    change (last (x :: y :: l) 0) with (last (y :: l) 0).
    rewrite <- IH. simpl. ring.
Qed.

Lemma diff_length (l : list R) : length (diff l) = (length l - 1)%nat.
Proof.
  induction l as [|x [|y l] IH]; try reflexivity.
  change (diff (x :: y :: l)) with ((y - x) :: diff (y :: l)).
  simpl length in *. rewrite IH. lia.
Qed.

Lemma cumsum_from_length (acc : R) (v : list R) : length (cumsum_from acc v) = length v.
Proof. revert acc. induction v as [|x v IH]; intros acc; simpl; [reflexivity|now rewrite IH]. Qed.

Lemma cumsum_from_last (v : list R) (acc : R) :
  v <> [] -> nth (length v - 1) (cumsum_from acc v) 0 = acc + rsum v.
Proof.
  revert acc. induction v as [|x v IH]; intros acc H; [congruence|].
  destruct v as [|y v].
  - simpl. ring.
  - change (cumsum_from acc (x :: y :: v)) with ((acc + x) :: cumsum_from (acc + x) (y :: v)).
    replace (length (x :: y :: v) - 1)%nat with (S (length (y :: v) - 1)) by (simpl; lia).
    change (nth (S ?n) (?a :: ?l) 0) with (nth n l 0).
    rewrite IH by discriminate. simpl. ring.
Qed.

Lemma cumsum_from_lower (v : list R) (acc : R) :
  Forall (fun x => 0 <= x) v -> Forall (fun c => acc <= c) (cumsum_from acc v).
Proof.
  intros H. revert acc. induction H as [|x v Hx _ IH]; intros acc; simpl; constructor.
  - lra.
  - specialize (IH (acc + x)). rewrite Forall_forall in IH |- *.
    intros c Hc. specialize (IH c Hc). lra.
Qed.

Lemma cumsum_from_sorted (v : list R) (acc : R) :
  Forall (fun x => 0 <= x) v -> StronglySorted Rle (cumsum_from acc v).
Proof.
  intros H. revert acc. induction H as [|x v Hx Hv IH]; intros acc; simpl; constructor.
  - apply IH.
  - now apply cumsum_from_lower.
Qed.

Lemma where_from_length_le {A : Type} (p : A -> bool) (v : list A) (s : nat) :
  (length (where_from p s v) <= length v)%nat.
Proof.
  revert s. induction v as [|x v IH]; intros s; simpl; [lia|].
  destruct (p x); simpl; specialize (IH (S s)); lia.
Qed.

Lemma where_from_sorted {A : Type} (p : A -> bool) (v : list A) (s : nat) :
  StronglySorted lt (where_from p s v) /\
  Forall (fun i => (s <= i < s + length v)%nat) (where_from p s v).
Proof.
  revert s. induction v as [|x v IH]; intros s; simpl; [split; constructor|].
  destruct (IH (S s)) as [Hs Hb].
  assert (Hb' : Forall (fun i => (s <= i < s + S (length v))%nat) (where_from p (S s) v)).
  { rewrite Forall_forall in Hb |- *. intros i Hi. specialize (Hb i Hi). lia. }
  destruct (p x); [|split; assumption].
  split; constructor; try assumption; [|lia].
  rewrite Forall_forall in Hb |- *. intros i Hi. specialize (Hb i Hi). lia.
Qed.

Lemma StronglySorted_snoc (l : list nat) (x : nat) :
  StronglySorted lt l -> Forall (fun i => (i < x)%nat) l -> StronglySorted lt (l ++ [x]).
Proof.
  induction 1 as [|y l Hs IH Hy]; intros Hb; simpl.
  - repeat constructor.
  - inversion Hb; subst. constructor; [now apply IH|].
    apply Forall_app. split; [exact Hy|]. now constructor.
Qed.

Lemma gather_sorted (cs : list R) (idxs : list nat) :
  StronglySorted Rle cs -> StronglySorted lt idxs ->
  Forall (fun i => (i < length cs)%nat) idxs ->
  StronglySorted Rle (gather 0 cs idxs).
Proof.
  intros Hcs Hs. induction Hs as [|i idxs Hs IH Hi]; intros Hb; simpl; constructor.
  - apply IH. now inversion Hb.
  - inversion Hb as [|? ? Hil Hbl]; subst.
    rewrite Forall_forall in Hi, Hbl |- *. intros c Hc.
    apply in_map_iff in Hc. destruct Hc as [j [<- Hj]].
    specialize (Hi j Hj). specialize (Hbl j Hj).
    clear - Hcs Hi Hbl Hil. revert i j Hi Hbl Hil.
    induction Hcs as [|c cs Hcs IHcs Hc]; intros i j Hij Hj Hi; simpl in *; [lia|].
    destruct j as [|j]; [lia|]. destruct i as [|i].
    + rewrite Forall_forall in Hc. apply Hc, nth_In. lia.
    + apply IHcs; lia.
Qed.

Lemma diff_sorted_nonneg (l : list R) :
  StronglySorted Rle l -> Forall (fun x => 0 <= x) (diff l).
Proof.
  induction 1 as [|x l Hs IH Hx]; [constructor|].
  destruct l as [|y l]; [constructor|].
  change (diff (x :: y :: l)) with ((y - x) :: diff (y :: l)).
  constructor; [|exact IH]. inversion Hx; subst. lra.
Qed.

Lemma gather_perm {A : Type} (d : A) (l : list A) (idxs : list nat) :
  Permutation idxs (seq 0 (length l)) -> Permutation (gather d l idxs) l.
Proof.
  intros H. apply (Permutation_map (fun i => nth i l d)) in H.
  pose proof (InfDorfmanFacts.gather_seq d l) as G. unfold gather in *.
  now rewrite G in H.
Qed.

Lemma gather_in {A : Type} (d : A) (l : list A) (idxs : list nat) (x : A) :
  Forall (fun i => (i < length l)%nat) idxs -> In x (gather d l idxs) -> In x l.
Proof.
  intros Hb Hx. unfold gather in Hx. apply in_map_iff in Hx. destruct Hx as [i [<- Hi]].
  rewrite Forall_forall in Hb. apply nth_In. now apply Hb.
Qed.

(** What [collapse_particles] guarantees when it does collapse. *)
Lemma collapse_particles_facts (alpha w : list R) (parts : list (list bool)) :
  length w = length parts ->
  (2 <= length parts)%nat ->
  forall w' parts', collapse_particles alpha w parts = (w', parts') ->
  rsum w' = rsum w /\
  length w' = length parts' /\
  (1 <= length parts' <= length parts)%nat /\
  (forall r, In r parts' -> In r parts) /\
  (Forall (fun x => 0 <= x) w -> Forall (fun x => 0 <= x) w').
Proof.
  intros Hlen Hn w' parts'. unfold collapse_particles.
  destruct (Nat.ltb_spec (length parts) 2) as [|_]; [lia|].
  set (rp := map (fun p => dot (map b2r p) alpha) parts).
  set (indices := argsort rp).
  set (parts1 := gather [] parts indices).
  set (w1 := gather 0 w indices).
  set (cs := cumsum w1).
  set (a := where_ (fun d => negb (Reqb d 0)) (rev (diff (rev (gather 0 rp indices))))).
  set (singles := a ++ [(length parts - 1)%nat]).
  intros [= <- <-].
  assert (Lrp : length rp = length parts) by (unfold rp; apply length_map).
  assert (Hperm : Permutation indices (seq 0 (length parts))).
  { unfold indices. rewrite <- Lrp. apply argsort_perm. }
  assert (Lind : length indices = length parts).
  { rewrite (Permutation_length Hperm). apply length_seq. }
  assert (Lw1 : length w1 = length parts) by (unfold w1, gather; now rewrite length_map).
  assert (Lp1 : length parts1 = length parts) by (unfold parts1, gather; now rewrite length_map).
  assert (Pw1 : Permutation w1 w).
  { unfold w1. apply gather_perm. now rewrite Hlen. }
  assert (Lcs : length cs = length parts).
  { unfold cs, cumsum. now rewrite cumsum_from_length. }
  assert (La : (length a <= length parts - 1)%nat /\
               Forall (fun i => (i < length parts - 1)%nat) a /\ StronglySorted lt a).
  { unfold a, where_. set (d := rev (diff (rev (gather 0 rp indices)))).
    assert (Ld : length d = (length parts - 1)%nat).
    { unfold d. rewrite length_rev, diff_length, length_rev. unfold gather.
      now rewrite length_map, Lind. }
    destruct (where_from_sorted (fun d0 => negb (Reqb d0 0)) d 0) as [Hs Hb].
    pose proof (where_from_length_le (fun d0 => negb (Reqb d0 0)) d 0) as Hl.
    rewrite Ld in *. repeat split; [lia| |exact Hs].
    rewrite Forall_forall in Hb |- *. intros i Hi. specialize (Hb i Hi). lia. }
  destruct La as (La & Ba & Sa).
  assert (Ssingles : StronglySorted lt singles) by (now apply StronglySorted_snoc).
  assert (Bsingles : Forall (fun i => (i < length parts)%nat) singles).
  { apply Forall_app. split.
    - rewrite Forall_forall in Ba |- *. intros i Hi. specialize (Ba i Hi). lia.
    - constructor; [lia|constructor]. }
  assert (Lsingles : length singles = S (length a)).
  { unfold singles. rewrite length_app. simpl. lia. }
  assert (Hhead : nth (nth 0 singles 0%nat) cs 0 :: diff (gather 0 cs singles)
                  = hd 0 (gather 0 cs singles) :: diff (gather 0 cs singles)).
  { destruct singles as [|s0 ss]; [discriminate Lsingles|reflexivity]. }
  rewrite Hhead.
  assert (Hg : exists g0 g, gather 0 cs singles = g0 :: g).
  { destruct singles as [|s0 ss]; [discriminate Lsingles|]. simpl. eauto. }
  destruct Hg as (g0 & g & Eg).
  assert (Hlast : last (g0 :: g) 0 = rsum w1).
  { rewrite <- Eg. unfold singles, gather. rewrite map_app. simpl map.
    rewrite last_last. unfold cs, cumsum. rewrite <- Lw1.
    rewrite cumsum_from_last; [ring|].
    intros E. rewrite E in Lw1. simpl in Lw1. lia. }
  split; [|split; [|split; [|split]]].
  - rewrite Eg. cbn [hd]. rewrite rsum_head_diff, Hlast. now apply rsum_perm.
  - cbn [length]. rewrite diff_length. unfold gather. rewrite !length_map. lia.
  - unfold gather. rewrite length_map. lia.
  - intros r Hr. apply gather_in in Hr; [|now rewrite Lp1].
    unfold parts1 in Hr. apply gather_in in Hr; [exact Hr|].
    rewrite Forall_forall. intros i Hi. apply (Permutation_in _ Hperm) in Hi.
    apply in_seq in Hi. lia.
  - intros Hw.
    assert (Hw1 : Forall (fun x => 0 <= x) w1).
    { rewrite Forall_forall in Hw |- *. intros x Hx. apply Hw.
      now apply (Permutation_in _ Pw1). }
    assert (Sg : StronglySorted Rle (gather 0 cs singles)).
    { apply gather_sorted; [now apply cumsum_from_sorted|exact Ssingles|now rewrite Lcs]. }
    constructor; [|now apply diff_sorted_nonneg].
    rewrite Eg. cbn [hd].
    assert (Hin : In g0 cs).
    { apply (gather_in 0 cs singles); [now rewrite Lcs|]. rewrite Eg. now left. }
    pose proof (cumsum_from_lower w1 0 Hw1) as Hlow. rewrite Forall_forall in Hlow.
    now apply Hlow.
Qed.

(** Two particles with the same projection are merged into one that
    carries both weights. *)
Example collapse_twin_particles :
  collapse_particles unit_alpha half_weights twin_particles
  = ([0 + 1 / 2 + 1 / 2], [[true]]).
Proof.
  unfold collapse_particles, argsort, sort_keys, dot, rsum, b2r, Reqb.
  eval_reals. decide_reals. eval_reals. decide_reals. reflexivity.
Qed.

(** Two particles with different projections are both kept, in the order of
    their projections, each with its own weight. *)
Example collapse_distinct_particles :
  collapse_particles unit_alpha uneven_weights distinct_particles
  = ([0 + 3 / 4; 0 + 3 / 4 + 1 / 4 - (0 + 3 / 4)], [[false]; [true]]).
Proof.
  unfold collapse_particles, argsort, sort_keys, dot, rsum, b2r, Reqb.
  eval_reals. decide_reals. eval_reals. decide_reals. reflexivity.
Qed.

(** C5.  The weights returned by [collapse_particles] have the sum of the
    weights received, there are at most as many particles as were received,
    and a population of fewer than two particles is returned as it is.
    (Real arithmetic: the sums are equal exactly.) *)
Theorem collapse_particles_preserves (alpha w : list R) (parts : list (list bool)) :
  length w = length parts ->
  rsum (fst (collapse_particles alpha w parts)) = rsum w /\
  (length (snd (collapse_particles alpha w parts)) <= length parts)%nat /\
  ((length parts < 2)%nat -> collapse_particles alpha w parts = (w, parts)).
Proof.
  intros Hlen.
  destruct (Nat.ltb_spec (length parts) 2) as [Hsmall|Hbig].
  - assert (E : collapse_particles alpha w parts = (w, parts)).
    { unfold collapse_particles. apply Nat.ltb_lt in Hsmall. now rewrite Hsmall. }
    rewrite E. simpl. auto.
  - destruct (collapse_particles alpha w parts) as [w' parts'] eqn:E.
    destruct (collapse_particles_facts alpha w parts Hlen Hbig w' parts' E)
      as (Hsum & _ & Hcount & _).
    simpl. split; [exact Hsum|]. split; [lia|]. intros; lia.
Qed.

Lemma collapse_particles_preserves_witness :
  rsum (fst (collapse_particles unit_alpha half_weights twin_particles)) = rsum half_weights /\
  (length (snd (collapse_particles unit_alpha half_weights twin_particles))
   <= length twin_particles)%nat /\
  ((length twin_particles < 2)%nat ->
   collapse_particles unit_alpha half_weights twin_particles = (half_weights, twin_particles)).
Proof.
  apply (collapse_particles_preserves unit_alpha half_weights twin_particles). reflexivity.
Defined.

End CollapseFacts.

(** ** Entropy: concavity and additivity *)

Module EntropyFacts.
Import Np RNp MutualInformation.
Import Spec Fixtures.
Local Open Scope R_scope.

Lemma ln_nonpos (x : R) : x <= 0 -> ln x = 0.
Proof.
  intros H. unfold ln. destruct (Rlt_dec 0 x) as [Hpos|_]; [|reflexivity].
  exfalso. apply (Rlt_irrefl 0). now apply Rlt_le_trans with x.
Qed.

Lemma eta_0 : eta 0 = 0.
Proof. unfold eta. ring. Qed.

Lemma eta_1 : eta 1 = 0.
Proof. unfold eta. rewrite ln_1. ring. Qed.

Lemma ln_le_minus_1 (t : R) : 0 < t -> ln t <= t - 1.
Proof.
  intros H. pose proof (exp_ineq1_le (ln t)) as E. rewrite exp_ln in E by exact H. lra.
Qed.

(** [eta] lies below its tangent at any [m > 0]. *)
Lemma eta_tangent (x m : R) :
  0 <= x -> 0 < m -> eta x <= eta m - (ln m + 1) * (x - m).
Proof.
  intros Hx Hm. unfold eta.
  destruct (Req_dec_T x 0) as [->|Hnz].
  - rewrite Rmult_0_l. nra.
  - assert (Hpos : 0 < x) by lra.
    assert (Hq : 0 < m / x) by (apply Rdiv_lt_0_compat; assumption).
    pose proof (ln_le_minus_1 (m / x) Hq) as L.
    unfold Rdiv in L. rewrite ln_mult, ln_Rinv in L; try assumption.
    2:{ now apply Rinv_0_lt_compat. }
    assert (E : x * (m * / x - 1) = m - x) by (field; lra).
    assert (x * (ln m + - ln x) <= x * (m * / x - 1)) by (apply Rmult_le_compat_l; lra).
    lra.
Qed.

Lemma eta_mult (x a : R) : 0 <= x -> 0 <= a -> eta (x * a) = a * eta x + x * eta a.
Proof.
  intros Hx Ha. unfold eta.
  destruct (Req_dec_T x 0) as [->|Hx0]; [rewrite !Rmult_0_l; ring|].
  destruct (Req_dec_T a 0) as [->|Ha0]; [rewrite !Rmult_0_r, !Rmult_0_l; ring|].
  rewrite ln_mult by lra. ring.
Qed.

Lemma bigsum_ext (n : nat) (F G : nat -> R) :
  (forall i, (i < n)%nat -> F i = G i) -> bigsum n F = bigsum n G.
Proof.
  induction n as [|n IH]; intros H; simpl; [reflexivity|].
  rewrite IH by (intros; apply H; lia). rewrite H by lia. reflexivity.
Qed.

Lemma bigsum_le (n : nat) (F G : nat -> R) :
  (forall i, (i < n)%nat -> F i <= G i) -> bigsum n F <= bigsum n G.
Proof.
  induction n as [|n IH]; intros H; simpl; [lra|].
  assert (bigsum n F <= bigsum n G) by (apply IH; intros; apply H; lia).
  assert (F n <= G n) by (apply H; lia). lra.
Qed.

Lemma bigsum_plus (n : nat) (F G : nat -> R) :
  bigsum n (fun i => F i + G i) = bigsum n F + bigsum n G.
Proof. induction n as [|n IH]; simpl; [ring|]. rewrite IH. ring. Qed.

Lemma bigsum_scal (n : nat) (c : R) (F : nat -> R) :
  bigsum n (fun i => c * F i) = c * bigsum n F.
Proof. induction n as [|n IH]; simpl; [ring|]. rewrite IH. ring. Qed.

Lemma bigsum_zero (n : nat) : bigsum n (fun _ => 0) = 0.
Proof. induction n as [|n IH]; simpl; [reflexivity|]. rewrite IH. ring. Qed.

Lemma bigsum_swap (n m : nat) (G : nat -> nat -> R) :
  bigsum n (fun p => bigsum m (fun s => G p s))
  = bigsum m (fun s => bigsum n (fun p => G p s)).
Proof.
  induction n as [|n IH]; simpl.
  - now rewrite bigsum_zero.
  - rewrite IH. now rewrite <- bigsum_plus.
Qed.

Lemma bigsum_shift (n : nat) (F : nat -> R) :
  bigsum (S n) F = F 0%nat + bigsum n (fun i => F (S i)).
Proof.
  induction n as [|n IH]; [simpl; ring|].
  change (bigsum (S (S n)) F) with (bigsum (S n) F + F (S n)).
  rewrite IH. simpl. ring.
Qed.

Lemma bigsum_split (n m : nat) (F : nat -> R) :
  bigsum (n + m) F = bigsum n F + bigsum m (fun i => F (n + i)%nat).
Proof.
  induction m as [|m IH]; simpl.
  - rewrite Nat.add_0_r. ring.
  - rewrite Nat.add_succ_r. simpl. rewrite IH. ring.
Qed.

Lemma bigsum_nonneg (n : nat) (F : nat -> R) :
  (forall i, (i < n)%nat -> 0 <= F i) -> 0 <= bigsum n F.
Proof.
  intros H. rewrite <- (bigsum_zero n). apply bigsum_le. exact H.
Qed.

Lemma bigsum_zero_terms (n : nat) (F : nat -> R) :
  (forall i, (i < n)%nat -> 0 <= F i) -> bigsum n F = 0 ->
  forall i, (i < n)%nat -> F i = 0.
Proof.
  induction n as [|n IH]; intros Hpos Hsum i Hi; [lia|]. simpl in Hsum.
  assert (0 <= bigsum n F) by (apply bigsum_nonneg; intros; apply Hpos; lia).
  assert (0 <= F n) by (apply Hpos; lia).
  destruct (Nat.eq_dec i n) as [->|Hne]; [lra|].
  apply IH; [intros; apply Hpos; lia|lra|lia].
Qed.

Lemma rsum_bigsum (l : list R) : rsum l = bigsum (length l) (fun i => nth i l 0).
Proof.
  induction l as [|x l IH]; [reflexivity|].
  cbn [length]. rewrite bigsum_shift. simpl. now rewrite IH.
Qed.

Lemma rsum_map_seq (n : nat) (F : nat -> R) : rsum (map F (seq 0 n)) = bigsum n F.
Proof.
  induction n as [|n IH]; [reflexivity|].
  rewrite seq_S, map_app, CollapseFacts.rsum_app, IH. simpl. ring.
Qed.

Lemma dot_bigsum (u v : list R) :
  length u = length v ->
  dot u v = bigsum (length u) (fun i => nth i u 0 * nth i v 0).
Proof.
  intros H. unfold dot. rewrite rsum_bigsum, length_map, length_combine, <- H, Nat.min_id.
  apply bigsum_ext. intros i Hi.
  rewrite (InfDorfmanFacts.nth_map_in _ _ i (0, 0))
    by (rewrite length_combine, <- H, Nat.min_id; exact Hi).
  now rewrite combine_nth by exact H.
Qed.

Lemma entropy_eta (l : list R) : entropy l = rsum (map eta l).
Proof.
  unfold entropy. induction l as [|x l IH]; simpl; [ring|].
  rewrite <- IH. unfold eta. ring.
Qed.

Lemma entropy_bigsum (l : list R) :
  entropy l = bigsum (length l) (fun i => eta (nth i l 0)).
Proof.
  rewrite entropy_eta, rsum_bigsum, length_map.
  apply bigsum_ext. intros i Hi.
  now rewrite (InfDorfmanFacts.nth_map_in _ _ i 0) by exact Hi.
Qed.

(** Jensen's inequality for [eta] and a finite convex combination. *)
Lemma jensen_eta (n : nat) (w x : nat -> R) :
  (forall p, (p < n)%nat -> 0 <= w p) ->
  (forall p, (p < n)%nat -> 0 <= x p) ->
  bigsum n w = 1 ->
  bigsum n (fun p => w p * eta (x p)) <= eta (bigsum n (fun p => w p * x p)).
Proof.
  intros Hw Hx Hsum.
  set (m := bigsum n (fun p => w p * x p)).
  assert (Hm : 0 <= m).
  { apply bigsum_nonneg. intros p Hp. apply Rmult_le_pos; auto. }
  destruct (Req_dec_T m 0) as [Hz|Hnz].
  - rewrite Hz, eta_0.
    assert (Ht : forall p, (p < n)%nat -> w p * x p = 0).
    { apply bigsum_zero_terms; [|exact Hz]. intros p Hp. apply Rmult_le_pos; auto. }
    rewrite (bigsum_ext n _ (fun _ => 0)); [rewrite bigsum_zero; lra|].
    intros p Hp. specialize (Ht p Hp).
    apply Rmult_integral in Ht. destruct Ht as [->| ->]; [ring|rewrite eta_0; ring].
  - assert (Hpos : 0 < m) by lra.
    apply Rle_trans with
      (bigsum n (fun p => w p * (eta m - (ln m + 1) * (x p - m)))).
    + apply bigsum_le. intros p Hp. apply Rmult_le_compat_l; [auto|].
      apply eta_tangent; auto.
    + rewrite (bigsum_ext n _
                 (fun p => (eta m + (ln m + 1) * m) * w p + (- (ln m + 1)) * (w p * x p)))
        by (intros; ring).
      rewrite bigsum_plus, !bigsum_scal, Hsum. fold m. lra.
Qed.

End EntropyFacts.

(** ** The outcome-probability table *)

Module TableFacts.
Import Np RNp MutualInformation EntropyFacts.
Import Spec Fixtures.
Local Open Scope R_scope.

Lemma probabilities_new_test_sum (positive : bool) (specificity rho : R) :
  fst (probabilities_new_test positive specificity rho)
  + snd (probabilities_new_test positive specificity rho) = 1.
Proof. unfold probabilities_new_test. simpl. ring. Qed.

Lemma probabilities_new_test_nonneg (positive : bool) (sensitivity specificity : R) :
  probability sensitivity -> probability specificity ->
  0 <= fst (probabilities_new_test positive specificity (specificity + sensitivity - 1)) /\
  0 <= snd (probabilities_new_test positive specificity (specificity + sensitivity - 1)).
Proof.
  unfold probability, probabilities_new_test, b2r. intros Hse Hsp.
  destruct positive; simpl; lra.
Qed.

Lemma binary_entropy_eta (p : R) : binary_entropy p = eta p + eta (1 - p).
Proof. unfold binary_entropy, eta. ring. Qed.

Lemma probabilities_new_test_entropy (positive : bool) (sensitivity specificity : R) :
  eta (fst (probabilities_new_test positive specificity (specificity + sensitivity - 1)))
  + eta (snd (probabilities_new_test positive specificity (specificity + sensitivity - 1)))
  = binary_entropy specificity
    + (binary_entropy sensitivity - binary_entropy specificity) * b2r positive.
Proof.
  rewrite !binary_entropy_eta. unfold probabilities_new_test, b2r.
  destruct positive; simpl.
  - replace (specificity - (specificity + sensitivity - 1) * 1) with (1 - sensitivity) by ring.
    replace (1 - specificity + (specificity + sensitivity - 1) * 1) with sensitivity by ring.
    ring.
  - replace (specificity - (specificity + sensitivity - 1) * 0) with specificity by ring.
    replace (1 - specificity + (specificity + sensitivity - 1) * 0) with (1 - specificity)
      by ring.
    ring.
Qed.

Lemma rsum_scaled (a : R) (r : list R) : rsum (map (Rmult a) r) = a * rsum r.
Proof. induction r as [|x r IH]; simpl; [ring|]. rewrite IH. ring. Qed.

Lemma entropy_scaled (a : R) (r : list R) :
  0 <= a -> Forall (fun x => 0 <= x) r ->
  entropy (map (Rmult a) r) = a * entropy r + eta a * rsum r.
Proof.
  intros Ha Hr. rewrite !entropy_eta.
  induction Hr as [|x r Hx _ IH]; simpl; [ring|].
  rewrite IH. rewrite (Rmult_comm a x), eta_mult by assumption. ring.
Qed.

Lemma entropy_app (u v : list R) : entropy (u ++ v) = entropy u + entropy v.
Proof. rewrite !entropy_eta, map_app, CollapseFacts.rsum_app. reflexivity. Qed.

(** Entropy of the joint outcome of independent tests. *)
Lemma row_entropy_split (r : list R) (a b : R) :
  Forall (fun x => 0 <= x) r -> rsum r = 1 -> 0 <= a -> 0 <= b -> a + b = 1 ->
  entropy (map (Rmult a) r ++ map (Rmult b) r) = entropy r + eta a + eta b.
Proof.
  intros Hr Hs Ha Hb Hab.
  rewrite entropy_app, !entropy_scaled, Hs by assumption.
  replace (a * entropy r + eta a * 1 + (b * entropy r + eta b * 1))
    with ((a + b) * entropy r + eta a + eta b) by ring.
  rewrite Hab. ring.
Qed.

Lemma upd_length (tab : table) (pos : list bool) (specificity rho : R) :
  length tab = length pos ->
  length (upd_prob_groups_x_particle_x_states tab pos specificity rho) = length tab.
Proof.
  intros H. unfold upd_prob_groups_x_particle_x_states.
  rewrite length_map, length_combine, <- H. apply Nat.min_id.
Qed.

Lemma upd_row (tab : table) (pos : list bool) (specificity rho : R) (p : nat) :
  length tab = length pos -> (p < length tab)%nat ->
  nth p (upd_prob_groups_x_particle_x_states tab pos specificity rho) []
  = map (Rmult (fst (probabilities_new_test (nth p pos false) specificity rho)))
        (nth p tab [])
    ++ map (Rmult (snd (probabilities_new_test (nth p pos false) specificity rho)))
           (nth p tab []).
Proof.
  intros H Hp. unfold upd_prob_groups_x_particle_x_states.
  rewrite (InfDorfmanFacts.nth_map_in _ _ p ([], false))
    by (rewrite length_combine, <- H, Nat.min_id; exact Hp).
  rewrite combine_nth by exact H. reflexivity.
Qed.

(** Each committed group doubles the number of columns and keeps every row
    a distribution: the two probabilities of the new test sum to 1. *)
Lemma upd_rows_sum (tab : table) (pos : list bool) (specificity rho : R) (c : nat) :
  length tab = length pos ->
  Forall (fun row => length row = c /\ rsum row = 1) tab ->
  Forall (fun row => length row = (2 * c)%nat /\ rsum row = 1)
         (upd_prob_groups_x_particle_x_states tab pos specificity rho).
Proof.
  intros Hlen Hrows. apply Forall_forall. intros row Hin.
  unfold upd_prob_groups_x_particle_x_states in Hin.
  apply in_map_iff in Hin. destruct Hin as [[r pb] [<- Hin]].
  apply in_combine_l in Hin. rewrite Forall_forall in Hrows.
  destruct (Hrows r Hin) as [Hc Hs]. cbn [fst snd]. split.
  - rewrite length_app, !length_map. lia.
  - rewrite CollapseFacts.rsum_app, !rsum_scaled, Hs.
    pose proof (probabilities_new_test_sum pb specificity rho). lra.
Qed.

Lemma upd_distribution (tab : table) (pos : list bool) (sensitivity specificity : R) (c : nat) :
  length tab = length pos ->
  probability sensitivity -> probability specificity ->
  Forall (distribution c) tab ->
  Forall (distribution (2 * c))
         (upd_prob_groups_x_particle_x_states tab pos specificity
            (specificity + sensitivity - 1)).
Proof.
  intros Hlen Hse Hsp Hrows. apply Forall_forall. intros row Hin.
  unfold upd_prob_groups_x_particle_x_states in Hin.
  apply in_map_iff in Hin. destruct Hin as [[r pb] [<- Hin]].
  apply in_combine_l in Hin. rewrite Forall_forall in Hrows.
  destruct (Hrows r Hin) as (Hc & Hpos & Hs). cbn [fst snd].
  destruct (probabilities_new_test_nonneg pb sensitivity specificity Hse Hsp) as [Ha Hb].
  split; [|split].
  - rewrite length_app, !length_map. lia.
  - apply Forall_app. split; apply Forall_forall; intros x Hx;
      apply in_map_iff in Hx; destruct Hx as [y [<- Hy]];
      rewrite Forall_forall in Hpos; specialize (Hpos y Hy); nra.
  - rewrite CollapseFacts.rsum_app, !rsum_scaled, Hs.
    pose proof (probabilities_new_test_sum pb specificity (specificity + sensitivity - 1)).
    lra.
Qed.

Lemma weights_nth_nonneg (w : list R) (p : nat) :
  Forall (fun x => 0 <= x) w -> 0 <= nth p w 0.
Proof.
  intros H. destruct (Nat.lt_ge_cases p (length w)) as [Hp|Hp].
  - rewrite Forall_forall in H. now apply H, nth_In.
  - rewrite nth_overflow by exact Hp. lra.
Qed.

Lemma table_row (c : nat) (tab : table) (p : nat) :
  Forall (distribution c) tab -> (p < length tab)%nat -> distribution c (nth p tab []).
Proof. intros H Hp. rewrite Forall_forall in H. now apply H, nth_In. Qed.

Lemma entropy_scaled_bigsum (a : R) (r : list R) :
  entropy (map (Rmult a) r) = bigsum (length r) (fun s => eta (nth s r 0 * a)).
Proof.
  rewrite entropy_bigsum, length_map. apply bigsum_ext. intros s Hs.
  rewrite (InfDorfmanFacts.nth_map_in _ _ s 0) by exact Hs. now rewrite Rmult_comm.
Qed.

(** The conditional entropy the code accumulates is the weighted entropy of
    the rows of the extended table. *)
Lemma cond_entropy_mixture (w : list R) (c : nat) (tab : table) (cum : R)
  (pos : list bool) (sensitivity specificity : R) :
  weights_ok w -> table_ok w c tab cum -> length pos = length w ->
  probability sensitivity -> probability specificity ->
  cum + binary_entropy specificity
  + (binary_entropy sensitivity - binary_entropy specificity) * dot w (map b2r pos)
  = bigsum (length w)
      (fun p => nth p w 0
                * entropy (nth p (upd_prob_groups_x_particle_x_states tab pos specificity
                                    (specificity + sensitivity - 1)) [])).
Proof.
  intros [Hw Hsum] (Hlen & Hrows & Hcum) Hpos Hse Hsp.
  set (gamma := binary_entropy sensitivity - binary_entropy specificity).
  rewrite (bigsum_ext _ _
             (fun p => nth p w 0 * entropy (nth p tab [])
                       + (binary_entropy specificity * nth p w 0
                          + gamma * (nth p w 0 * nth p (map b2r pos) 0)))).
  - rewrite !bigsum_plus, !bigsum_scal, <- Hcum.
    rewrite <- rsum_bigsum, Hsum.
    rewrite <- dot_bigsum by (now rewrite length_map). ring.
  - intros p Hp.
    rewrite upd_row by (rewrite ?Hlen, ?Hpos; auto).
    destruct (table_row c tab p Hrows ltac:(now rewrite Hlen)) as (_ & Hr & Hs).
    destruct (probabilities_new_test_nonneg (nth p pos false) sensitivity specificity Hse Hsp)
      as [Ha Hb].
    rewrite row_entropy_split; try assumption;
      [|apply probabilities_new_test_sum].
    rewrite (InfDorfmanFacts.nth_map_in b2r pos p false 0) by (now rewrite Hpos).
    pose proof (probabilities_new_test_entropy (nth p pos false) sensitivity specificity) as E.
    fold gamma in E.
    rewrite Rplus_assoc, E. ring.
Qed.

Lemma flat_pair_entropy (c : nat) (A B : nat -> R) :
  entropy (flat_map (fun s => [A s; B s]) (seq 0 c))
  = bigsum c (fun s => eta (A s) + eta (B s)).
Proof.
  rewrite entropy_eta. induction c as [|c IH]; [reflexivity|].
  rewrite seq_S, flat_map_app, map_app, CollapseFacts.rsum_app, IH. simpl. ring.
Qed.

(** Concavity of the entropy: the entropy of the mixture of the rows is at
    least the weighted entropy of the rows. *)
Lemma whole_entropy_mixture_bound (w : list R) (c : nat) (tab : table)
  (pos : list bool) (sensitivity specificity : R) :
  weights_ok w -> length tab = length w -> Forall (distribution c) tab ->
  length pos = length w ->
  probability sensitivity -> probability specificity ->
  bigsum (length w)
    (fun p => nth p w 0
              * entropy (nth p (upd_prob_groups_x_particle_x_states tab pos specificity
                                  (specificity + sensitivity - 1)) []))
  <= compute_whole_entropy_groups pos specificity (specificity + sensitivity - 1) w tab.
Proof.
  intros [Hw Hsum] Hlen Hrows Hpos Hse Hsp.
  set (rho := specificity + sensitivity - 1).
  set (n := length w) in *.
  set (a := fun p => fst (probabilities_new_test (nth p pos false) specificity rho)).
  set (b := fun p => snd (probabilities_new_test (nth p pos false) specificity rho)).
  set (cell := fun p s => nth s (nth p tab []) 0).
  assert (Hn : (1 <= n)%nat).
  { unfold n. destruct w; [simpl in Hsum; lra|simpl; lia]. }
  assert (Hshape : shape1 tab = c).
  { destruct tab as [|r0 tab']; [simpl in Hlen; lia|].
    inversion Hrows as [|? ? [Hc _] _]; subst. reflexivity. }
  assert (Hab : forall p, 0 <= a p /\ 0 <= b p).
  { intros p. apply probabilities_new_test_nonneg; assumption. }
  assert (Hcell : forall p s, (p < n)%nat -> 0 <= cell p s).
  { intros p s Hp. unfold cell.
    destruct (table_row c tab p Hrows ltac:(now rewrite Hlen)) as (_ & Hr & _).
    now apply weights_nth_nonneg. }
  (* the left-hand side, cell by cell *)
  assert (L : forall p, (p < n)%nat ->
     entropy (nth p (upd_prob_groups_x_particle_x_states tab pos specificity rho) [])
     = bigsum c (fun s => eta (cell p s * a p) + eta (cell p s * b p))).
  { intros p Hp. rewrite upd_row by (rewrite ?Hlen, ?Hpos; auto).
    destruct (table_row c tab p Hrows ltac:(now rewrite Hlen)) as (Hc & _ & _).
    rewrite entropy_app, !entropy_scaled_bigsum, Hc, bigsum_plus. reflexivity. }
  rewrite (bigsum_ext n _
             (fun p => bigsum c (fun s => nth p w 0
                                          * (eta (cell p s * a p) + eta (cell p s * b p)))))
    by (intros p Hp; rewrite L by exact Hp; now rewrite bigsum_scal).
  rewrite bigsum_swap.
  (* the right-hand side, cell by cell *)
  unfold compute_whole_entropy_groups. rewrite Hshape.
  set (pnt := map (fun p => probabilities_new_test p specificity rho) pos).
  assert (Lpnt : length pnt = n) by (unfold pnt; now rewrite length_map).
  assert (Hpnt : forall p, (p < n)%nat -> nth p pnt (0, 0) = (a p, b p)).
  { intros p Hp. unfold pnt.
    rewrite (InfDorfmanFacts.nth_map_in _ _ p false) by (now rewrite Hpos).
    unfold a, b. now destruct (probabilities_new_test _ _ _). }
  assert (Hdot : forall (f : R * R -> R) s,
     dot (map (fun row => nth s row 0) tab)
         (map (fun pw => f (fst pw) * snd pw) (combine pnt w))
     = bigsum n (fun p => nth p w 0 * (cell p s * f (a p, b p)))).
  { intros f s. rewrite dot_bigsum
      by (rewrite !length_map, length_combine, Lpnt, Hlen; fold n; lia).
    rewrite length_map, Hlen. fold n. apply bigsum_ext. intros p Hp.
    rewrite (InfDorfmanFacts.nth_map_in _ _ p []) by (now rewrite Hlen).
    rewrite (InfDorfmanFacts.nth_map_in _ _ p ((0, 0), 0))
      by (rewrite length_combine, Lpnt; fold n; lia).
    rewrite combine_nth by (now rewrite Lpnt). cbn [fst snd].
    rewrite Hpnt by exact Hp. unfold cell. ring. }
  rewrite flat_pair_entropy.
  apply bigsum_le. intros s Hs.
  rewrite (Hdot fst s), (Hdot snd s). cbn [fst snd].
  rewrite (bigsum_ext n _
             (fun p => nth p w 0 * eta (cell p s * a p) + nth p w 0 * eta (cell p s * b p)))
    by (intros; ring).
  rewrite bigsum_plus.
  apply Rplus_le_compat.
  - apply (jensen_eta n (fun p => nth p w 0) (fun p => cell p s * a p)).
    + intros p _. now apply weights_nth_nonneg.
    + intros p Hp. apply Rmult_le_pos; [now apply Hcell|apply Hab].
    + unfold n. now rewrite <- rsum_bigsum.
  - apply (jensen_eta n (fun p => nth p w 0) (fun p => cell p s * b p)).
    + intros p _. now apply weights_nth_nonneg.
    + intros p Hp. apply Rmult_le_pos; [now apply Hcell|apply Hab].
    + unfold n. now rewrite <- rsum_bigsum.
Qed.

(** The criterion of every candidate is a mutual information, hence not
    negative. *)
Lemma objective_nonneg (w : list R) (c : nat) (tab : table) (cum : R)
  (pos : list bool) (sensitivity specificity : R) :
  weights_ok w -> table_ok w c tab cum -> length pos = length w ->
  probability sensitivity -> probability specificity ->
  0 <= compute_whole_entropy_groups pos specificity (specificity + sensitivity - 1) w tab
       - (cum + binary_entropy specificity
          + (binary_entropy sensitivity - binary_entropy specificity)
            * dot w (map b2r pos)).
Proof.
  intros Hw Htab Hpos Hse Hsp.
  rewrite (cond_entropy_mixture w c tab cum pos sensitivity specificity) by assumption.
  destruct Htab as (Hlen & Hrows & _).
  pose proof (whole_entropy_mixture_bound w c tab pos sensitivity specificity
                Hw Hlen Hrows Hpos Hse Hsp).
  lra.
Qed.

End TableFacts.

(** ** One evaluation of the criterion *)

Module CriterionFacts.
Import Np RNp MutualInformation EntropyFacts TableFacts.
Import Spec Fixtures.
Local Open Scope R_scope.

Lemma index_update_length (g : group) (i : nat) (v : bool) :
  length (index_update g i v) = length g.
Proof.
  revert i. induction g as [|b g IH]; intros [|i]; simpl; try reflexivity.
  now rewrite IH.
Qed.

Lemma index_update_add (g : group) (i : nat) :
  (i < length g)%nat -> nth i g false = false ->
  count_true (index_update g i true) = S (count_true g).
Proof.
  revert i. induction g as [|b g IH]; intros [|i] Hi Hn; simpl in *; try lia.
  - subst b. reflexivity.
  - rewrite IH by (assumption || lia). lia.
Qed.

Lemma index_update_remove (g : group) (i : nat) :
  (i < length g)%nat -> nth i g false = true ->
  S (count_true (index_update g i false)) = count_true g.
Proof.
  revert i. induction g as [|b g IH]; intros [|i] Hi Hn; simpl in *; try lia.
  - subst b. reflexivity.
  - rewrite <- (IH i) by (assumption || lia). lia.
Qed.

Lemma index_update_negb (g : group) (i : nat) :
  map negb (index_update (map negb g) i true) = index_update g i false.
Proof.
  revert i. induction g as [|b g IH]; intros [|i]; simpl; try reflexivity.
  - now rewrite map_map, (map_ext _ (fun x => x)), map_id by apply negb_involutive.
  - now rewrite negb_involutive, IH.
Qed.

Lemma where_negb_length (g : group) (s : nat) :
  (length (where_from negb s g) + count_true g = length g)%nat.
Proof.
  revert s. induction g as [|b g IH]; intros s; simpl; [reflexivity|].
  destruct b; simpl; specialize (IH (S s)); lia.
Qed.

Lemma where_negb_map_length (g : group) (s : nat) :
  length (where_from negb s (map negb g)) = count_true g.
Proof.
  revert s. induction g as [|b g IH]; intros s; simpl; [reflexivity|].
  destruct b; simpl; now rewrite IH.
Qed.

Lemma argmax_from_bound (v : list R) (best : R) (besti i : nat) :
  (besti < i)%nat -> (argmax_from best besti i v < i + length v)%nat.
Proof.
  revert best besti i. induction v as [|x v IH]; intros best besti i H; simpl; [lia|].
  destruct (Rlt_dec best x).
  - specialize (IH x i (S i) ltac:(lia)). lia.
  - specialize (IH best besti (S i) ltac:(lia)). lia.
Qed.

Lemma argmax_cases (v : list R) :
  (v = [] /\ argmax v = Raise ValueError) \/
  (exists i, argmax v = Ok i /\ (i < length v)%nat).
Proof.
  destruct v as [|x v]; [now left|right].
  eexists. split; [reflexivity|].
  pose proof (argmax_from_bound v x 0 1 ltac:(lia)). simpl. lia.
Qed.

Lemma select_from_sizes_probability (values : list R) (size : nat) :
  Forall probability values -> probability (select_from_sizes values size).
Proof.
  intros H. unfold select_from_sizes.
  destruct (Nat.lt_ge_cases (Nat.min size (length values) - 1) (length values)) as [Hi|Hi].
  - rewrite Forall_forall in H. now apply H, nth_In.
  - rewrite nth_overflow by exact Hi. unfold probability. lra.
Qed.

Lemma map_combine_maps {A B C D : Type} (f : A -> B) (g : A -> C) (h : B * C -> D)
  (l : list A) :
  map h (combine (map f l) (map g l)) = map (fun x => h (f x, g x)) l.
Proof. induction l as [|x l IH]; simpl; [reflexivity|now rewrite IH]. Qed.

Lemma joint_mi_criterion_mg_cases (w : list R) (parts : list (list bool))
  (g : group) (pos : list bool) (c : nat) (tab : table) (cum : R)
  (sensitivity specificity : list R) (backtracking : bool) :
  weights_ok w -> length parts = length w -> length pos = length w ->
  table_ok w c tab cum ->
  Forall probability sensitivity -> Forall probability specificity ->
  (no_candidate backtracking g /\
   joint_mi_criterion_mg w parts g pos tab cum sensitivity specificity backtracking
   = Raise ValueError) \/
  (~ no_candidate backtracking g /\
   exists p,
     joint_mi_criterion_mg w parts g pos tab cum sensitivity specificity backtracking = Ok p /\
     moved backtracking g (new_group p) /\
     length (new_positives p) = length w /\
     fresh w c (new_objective p) (prob_particles_states p) (new_cond_entropy p)).
Proof.
  intros Hw Hparts Hpos Htab Hse Hsp.
  unfold joint_mi_criterion_mg.
  set (size := if backtracking then (count_true g - 1)%nat else (count_true g + 1)%nat).
  set (se := select_from_sizes sensitivity size).
  set (sp := select_from_sizes specificity size).
  assert (Pse : probability se) by (now apply select_from_sizes_probability).
  assert (Psp : probability sp) by (now apply select_from_sizes_probability).
  set (idxs := where_ negb g).
  set (cands := map (map negb) (add_ones_to_line (map negb g))).
  set (P := if backtracking
            then map (fun cand =>
                        map (fun particle =>
                               existsb (fun cp => fst cp && snd cp) (combine cand particle))
                            parts) cands
            else map (fun j => map (fun pp => fst pp || nth j (snd pp) false)
                                   (combine pos parts)) idxs).
  set (C := fun pos0 : list bool =>
              cum + binary_entropy sp
              + (binary_entropy se - binary_entropy sp) * dot w (map b2r pos0)).
  set (W := fun pos0 : list bool =>
              compute_whole_entropy_groups pos0 sp (sp + se - 1) w tab).
  rewrite (map_combine_maps W C (fun wc => fst wc - snd wc) P). cbn [fst snd].
  assert (LP : forall pos0, In pos0 P -> length pos0 = length w).
  { intros pos0 Hin. unfold P in Hin. destruct backtracking.
    - apply in_map_iff in Hin. destruct Hin as [cand [<- _]]. now rewrite length_map.
    - apply in_map_iff in Hin. destruct Hin as [j [<- _]].
      rewrite length_map, length_combine, Hpos, Hparts. apply Nat.min_id. }
  assert (NP : length P = if backtracking then count_true g
                          else (length g - count_true g)%nat).
  { unfold P. destruct backtracking.
    - unfold cands, add_ones_to_line, where_. rewrite !length_map.
      apply where_negb_map_length.
    - unfold idxs, where_. rewrite length_map.
      pose proof (where_negb_length g 0). lia. }
  assert (CT : (count_true g <= length g)%nat) by (pose proof (where_negb_length g 0); lia).
  destruct (argmax_cases (map (fun x => W x - C x) P)) as [[E ->]|(index & -> & Hidx)].
  - left. split; [|reflexivity].
    apply (f_equal (@length R)) in E. rewrite length_map, NP in E. simpl in E.
    unfold no_candidate. destruct backtracking; lia.
  - right. rewrite length_map in Hidx. split.
    { unfold no_candidate. rewrite NP in Hidx. destruct backtracking; lia. }
    cbn [bind]. eexists. split; [reflexivity|]. cbn [new_group new_positives new_objective
      prob_particles_states new_cond_entropy].
    set (pos1 := nth index P []).
    assert (Hpos1 : length pos1 = length w) by (apply LP, nth_In; exact Hidx).
    split; [|split; [exact Hpos1|]].
    + unfold moved. destruct backtracking.
      * unfold cands, add_ones_to_line. rewrite map_map.
        unfold P in Hidx. rewrite length_map in Hidx.
        unfold cands, add_ones_to_line in Hidx. rewrite !length_map in Hidx.
        rewrite (InfDorfmanFacts.nth_map_in _ _ index 0%nat) by exact Hidx.
        rewrite index_update_negb.
        set (j := nth index (where_ negb (map negb g)) 0%nat).
        assert (Hj : In j (where_ negb (map negb g))) by (apply nth_In; exact Hidx).
        apply (InfDorfmanFacts.where_from_iff negb true) in Hj.
        rewrite Nat.sub_0_r, length_map in Hj. destruct Hj as [Hjb Hjv].
        rewrite (InfDorfmanFacts.nth_map_in negb g j false true) in Hjv by lia.
        apply negb_true_iff, negb_false_iff in Hjv.
        split; [apply index_update_length|].
        apply index_update_remove; [lia|exact Hjv].
      * unfold P in Hidx. rewrite length_map in Hidx.
        set (j := nth index idxs 0%nat).
        assert (Hj : In j idxs) by (apply nth_In; exact Hidx).
        apply (InfDorfmanFacts.where_from_iff negb false) in Hj.
        rewrite Nat.sub_0_r in Hj. destruct Hj as [Hjb Hjv].
        apply negb_true_iff in Hjv.
        split; [apply index_update_length|].
        apply index_update_add; [lia|exact Hjv].
    + unfold fresh.
      rewrite (InfDorfmanFacts.nth_map_in (fun x => W x - C x) P index [] 0) by exact Hidx.
      rewrite (InfDorfmanFacts.nth_map_in C P index [] 0) by exact Hidx.
      fold pos1. split.
      * unfold W, C. now apply (objective_nonneg w c tab cum pos1 se sp).
      * destruct Htab as (Hlen & Hrows & Hcum).
        split; [|split].
        -- rewrite upd_length; [exact Hlen|]. now rewrite Hlen, Hpos1.
        -- apply upd_distribution; try assumption. now rewrite Hlen, Hpos1.
        -- unfold C. apply (cond_entropy_mixture w c tab cum pos1 se sp); try assumption.
           split; [exact Hlen|split; [exact Hrows|exact Hcum]].
Qed.

End CriterionFacts.

(** ** The forward/backward search for one group *)

Module SearchFacts.
Import Np RNp MutualInformation EntropyFacts TableFacts CriterionFacts.
Import Spec Fixtures.
Local Open Scope R_scope.

Section OneGroup.

Variables (self : MaxMutualInformation) (st : State).
Variables (w : list R) (parts : list (list bool)) (b : Batch) (c : nat).

Hypothesis Hiter : (backward_iterations self < forward_iterations self)%nat.
Hypothesis Hw : weights_ok w.
Hypothesis Hparts : length parts = length w.
Hypothesis Htab :
  table_ok w c (previous_groups_prob_partstates b) (previous_groups_cumcond_entropy b).
Hypothesis Hse : Forall probability (prior_sensitivity st).
Hypothesis Hsp : Forall probability (prior_specificity st).

Lemma run_steps_cases (k : nat) (backtrack : bool) :
  forall g pos ev, length pos = length w ->
  match run_steps k backtrack st w parts b g pos ev with
  | Raise e =>
      e = ValueError /\
      (if backtrack then (count_true g < k)%nat else (length g < count_true g + k)%nat)
  | Ok (g', pos', ev') =>
      length g' = length g /\ length pos' = length w /\
      (if backtrack then (count_true g' + k = count_true g)%nat
       else (count_true g' = count_true g + k)%nat) /\
      ((k = 0%nat /\ ev' = ev) \/ ((1 <= k)%nat /\ fresh_ev w c ev'))
  end.
Proof.
  induction k as [|k IH]; intros g pos ev Hpos.
  - simpl. repeat split; try assumption; [destruct backtrack; lia|now left].
  - cbn [run_steps].
    destruct (joint_mi_criterion_mg_cases w parts g pos c
                (previous_groups_prob_partstates b) (previous_groups_cumcond_entropy b)
                (prior_sensitivity st) (prior_specificity st) backtrack
                Hw Hparts Hpos Htab Hse Hsp)
      as [[Hnone ->]|(Hsome & p & -> & [Hlen Hcount] & Hpos' & Hfresh)].
    + cbn [bind]. split; [reflexivity|].
      unfold no_candidate in Hnone. destruct backtrack; lia.
    + cbn [bind].
      specialize (IH (new_group p) (new_positives p)
                     (Some (mkEvaluated (new_objective p) (prob_particles_states p)
                                        (new_cond_entropy p))) Hpos').
      destruct (run_steps k backtrack st w parts b (new_group p) (new_positives p) _)
        as [[[g' pos'] ev']|e].
      * destruct IH as (L1 & L2 & L3 & L4).
        split; [congruence|]. split; [exact L2|]. split.
        -- destruct backtrack; lia.
        -- right. split; [lia|].
           destruct L4 as [[_ ->]|[_ Hf]]; [|exact Hf].
           eexists. split; [reflexivity|exact Hfresh].
      * destruct IH as (-> & L). split; [reflexivity|].
        destruct backtrack; lia.
Qed.

Lemma run_pass_cases (g : group) (pos : list bool) (ev : option Evaluated) :
  length pos = length w ->
  match run_pass self st w parts b g pos ev with
  | Raise e => e = ValueError /\ (length g < count_true g + forward_iterations self)%nat
  | Ok (g', pos', ev') =>
      length g' = length g /\ length pos' = length w /\
      (count_true g' + backward_iterations self
       = count_true g + forward_iterations self)%nat /\
      fresh_ev w c ev'
  end.
Proof.
  intros Hpos. unfold run_pass.
  pose proof (run_steps_cases (forward_iterations self) false g pos ev Hpos) as F.
  destruct (run_steps (forward_iterations self) false st w parts b g pos ev)
    as [[[g1 pos1] ev1]|e]; cbn [bind fst snd].
  2:{ exact F. }
  destruct F as (L1 & L2 & L3 & L4).
  pose proof (run_steps_cases (backward_iterations self) true g1 pos1 ev1 L2) as B.
  destruct (run_steps (backward_iterations self) true st w parts b g1 pos1 ev1)
    as [[[g2 pos2] ev2]|e].
  - destruct B as (M1 & M2 & M3 & M4).
    split; [congruence|]. split; [exact M2|]. split; [lia|].
    destruct M4 as [[_ ->]|[_ Hf]]; [|exact Hf].
    destruct L4 as [[H0 _]|[_ Hf]]; [lia|exact Hf].
  - destruct B as (_ & B). lia.
Qed.

Lemma grow_cases (n_patients : nat) (fuel : nat) :
  forall g pos size obj_old backward_it ev acc passes,
  let F := Z.of_nat (forward_iterations self) in
  let B := Z.of_nat (backward_iterations self) in
  let M := max_group_size st in
  length g = n_patients -> length pos = length w ->
  (B <= backward_it <= F - 1)%Z ->
  ((size + F - backward_it <= M)%Z ->
   size = Z.of_nat (count_true g) /\ (backward_it = B \/ backward_it = size + F - M)%Z) ->
  count_true g = (passes * step_size self)%nat ->
  (passes = 0%nat -> obj_old = -1) ->
  ((1 <= passes)%nat ->
   good_acc self st w c n_patients acc /\ exists a, acc = Some a /\ cur_group a = g) ->
  (M + 1 <= Z.of_nat fuel + size)%Z ->
  match grow fuel self st w parts b g pos size obj_old backward_it ev acc passes with
  | None => False
  | Some (Raise e) => e = ValueError /\ (Z.of_nat n_patients < M + F - 1)%Z
  | Some (Ok (ev', acc', passes')) =>
      (passes <= passes')%nat /\
      ((size + F - backward_it <= M)%Z -> (1 <= passes')%nat) /\
      (~ (size + F - backward_it <= M)%Z -> ev' = ev /\ acc' = acc /\ passes' = passes) /\
      ((1 <= passes')%nat -> good_acc self st w c n_patients acc')
  end.
Proof.
  induction fuel as [|fuel IH];
    intros g pos size obj_old backward_it ev acc passes F B M
           Hg Hpos Hb Htrack Hcount Hold Hacc Hfuel.
  - cbn [grow]. fold F M.
    destruct (Z.leb_spec (size + F - backward_it) M) as [Hc|Hc]; [lia|].
    split; [lia|]. split; [lia|]. split; [auto|]. intros H1. now apply Hacc.
  - cbn [grow]. fold F M.
    destruct (Z.leb_spec (size + F - backward_it) M) as [Hc|Hc].
    2:{ split; [lia|]. split; [lia|]. split; [auto|]. intros H1. now apply Hacc. }
    destruct (Htrack Hc) as [Hsize Hbit].
    pose proof (run_pass_cases g pos ev Hpos) as P.
    destruct (run_pass self st w parts b g pos ev) as [[[g' pos'] ev']|e].
    2:{ destruct P as (-> & P). split; [reflexivity|]. unfold F. lia. }
    destruct P as (L1 & L2 & L3 & (e & -> & Hobj & Hfresh)).
    assert (Hcount' : count_true g' = (S passes * step_size self)%nat).
    { unfold step_size in *. simpl. lia. }
    destruct (Rlt_dec (obj_old + 1 / 1000000) (obj_new e)) as [Hyes|Hno].
    + set (size' := (size + (F - backward_it))%Z).
      set (bit' := Z.min (Z.max backward_it (size' + F - M)) (F - 1)).
      assert (Hgood : good_acc self st w c n_patients
                (Some (mkAccepted g' (proposed_group_cumcond_entropy e)
                                  (proposed_group_prob_partstates e)))).
      { eexists. split; [reflexivity|]. cbn [cur_group cur_groups_cumcond_entropy
          cur_groups_recorded_prob_partstates].
        split; [exact Hfresh|]. split; [congruence|]. split.
        - exists (S passes). split; [lia|exact Hcount'].
        - intros [q Hq]. unfold step_size in *.
          destruct Hbit as [Hbit|Hbit]; [unfold F, B in *; lia|].
          assert (Hs : (Z.of_nat (count_true g) <= M - 1)%Z) by (unfold F in *; lia).
          destruct (Z.eq_dec backward_it B) as [E|E]; [unfold F, B in *; lia|].
          exfalso.
          assert (Hd : (0 < Z.of_nat (forward_iterations self - backward_iterations self))%Z)
            by lia.
          assert (Hover : (M < Z.of_nat (count_true g)
                               + Z.of_nat (forward_iterations self - backward_iterations self))%Z)
            by (unfold F, B in *; lia).
          rewrite Hcount in Hs, Hover. rewrite Nat2Z.inj_mul in Hs, Hover.
          fold M in Hq. rewrite Hq in Hs, Hover.
          set (dd := Z.of_nat (forward_iterations self - backward_iterations self)) in *.
          assert (Z.of_nat passes < q)%Z by nia.
          assert (q < Z.of_nat passes + 1)%Z by nia.
          lia. }
      specialize (IH g' pos' size' (obj_new e) bit' (Some e)
                     (Some (mkAccepted g' (proposed_group_cumcond_entropy e)
                                       (proposed_group_prob_partstates e)))
                     (S passes)).
      cbv zeta in IH. fold F B M in IH.
      assert (R : match grow fuel self st w parts b g' pos' size' (obj_new e) bit' (Some e)
                          (Some (mkAccepted g' (proposed_group_cumcond_entropy e)
                                            (proposed_group_prob_partstates e)))
                          (S passes) with
                  | None => False
                  | Some (Raise e0) => e0 = ValueError /\ (Z.of_nat n_patients < M + F - 1)%Z
                  | Some (Ok (ev', acc', passes')) =>
                      (S passes <= passes')%nat /\
                      ((size' + F - bit' <= M)%Z -> (1 <= passes')%nat) /\
                      (~ (size' + F - bit' <= M)%Z ->
                       ev' = Some e /\
                       acc' = Some (mkAccepted g' (proposed_group_cumcond_entropy e)
                                               (proposed_group_prob_partstates e)) /\
                       passes' = S passes) /\
                      ((1 <= passes')%nat -> good_acc self st w c n_patients acc')
                  end).
      { apply IH.
        - congruence.
        - exact L2.
        - unfold bit', F, B in *. lia.
        - intros Hc'. unfold bit', size', F, B in *.
          assert (Z.of_nat (count_true g') = Z.of_nat (count_true g)
                  + Z.of_nat (forward_iterations self) - Z.of_nat (backward_iterations self))%Z
            by lia.
          lia.
        - exact Hcount'.
        - intros H0. lia.
        - intros _. split; [exact Hgood|]. eexists. split; reflexivity.
        - unfold size'. lia. }
      fold size' bit'.
      destruct (grow fuel self st w parts b g' pos' size' (obj_new e) bit' (Some e) _ (S passes))
        as [[[[ev2 acc2] passes2]|e2]|]; [|exact R|exact R].
      destruct R as (R1 & R2 & R3 & R4).
      split; [lia|]. split; [intros; lia|]. split; [intros Hn; contradiction|exact R4].
    + split; [lia|]. split; [intros; lia|]. split; [intros Hn; contradiction|].
      intros _. destruct (Nat.eq_dec passes 0) as [H0|H0].
      * exfalso. rewrite (Hold H0) in Hno. apply Hno. lra.
      * apply Hacc. lia.
Qed.

End OneGroup.

(** *** The groups of a batch *)

Lemma count_true_repeat_false (n : nat) : count_true (repeat false n) = 0%nat.
Proof. induction n as [|n IH]; simpl; [reflexivity|exact IH]. Qed.

Lemma initial_batch_ok (self : MaxMutualInformation) (st : State) (w : list R)
  (n_patients : nat) :
  batch_ok self st w n_patients (mkBatch (repeat [1] (length w)) 0 [] None None []).
Proof.
  unfold batch_ok. cbn [chosen_groups previous_groups_prob_partstates
    previous_groups_cumcond_entropy substeps length Nat.pow].
  split; [|repeat constructor].
  split; [apply repeat_length|]. split.
  - apply Forall_forall. intros row Hrow. apply repeat_spec in Hrow. subst row.
    split; [reflexivity|]. split; [repeat constructor; lra|]. simpl. ring.
  - symmetry. rewrite (bigsum_ext _ _ (fun _ => 0)); [apply bigsum_zero|].
    intros p Hp. rewrite nth_repeat_lt by exact Hp.
    unfold entropy. simpl. rewrite ln_1. ring.
Qed.

Lemma add_groups_cases (self : MaxMutualInformation) (st : State)
  (w : list R) (parts : list (list bool)) :
  (backward_iterations self < forward_iterations self)%nat ->
  weights_ok w -> length parts = length w ->
  Forall probability (prior_sensitivity st) ->
  Forall probability (prior_specificity st) ->
  precondition self st ->
  forall todo b,
  batch_ok self st w (shape1 parts) b ->
  match add_groups todo self st w parts b with
  | None => False
  | Some (Raise e) =>
      e = ValueError /\
      (Z.of_nat (shape1 parts)
       < max_group_size st + Z.of_nat (forward_iterations self) - 1)%Z
  | Some (Ok b') =>
      batch_ok self st w (shape1 parts) b' /\
      length (chosen_groups b') = (length (chosen_groups b) + todo)%nat
  end.
Proof.
  intros Hiter Hw Hparts Hse Hsp Hpre.
  induction todo as [|todo IH]; intros b Hb.
  - simpl. split; [exact Hb|lia].
  - cbn [add_groups].
    destruct Hb as (Htab & Hgroups & Hsub & Hpasses).
    pose proof (grow_cases self st w parts b (2 ^ length (chosen_groups b))
                  Hiter Hw Hparts Htab Hse Hsp (shape1 parts)
                  (S (Z.to_nat (max_group_size st)))
                  (repeat false (shape1 parts)) (repeat false (length parts))
                  0%Z (-1) (Z.of_nat (backward_iterations self))
                  (evaluated b) (accepted b) 0%nat) as G.
    cbv zeta in G.
    assert (G' := G (repeat_length _ _)
                    ltac:(rewrite repeat_length; exact Hparts)
                    ltac:(lia)
                    ltac:(intros _; rewrite count_true_repeat_false; split; [reflexivity|now left])
                    ltac:(rewrite count_true_repeat_false; reflexivity)
                    ltac:(reflexivity)
                    ltac:(intros; lia)
                    ltac:(lia)).
    clear G.
    destruct (grow (S (Z.to_nat (max_group_size st))) self st w parts b _ _ 0%Z (-1) _ _ _ 0)
      as [[[[ev acc] passes]|e]|]; [|exact G'|exact G'].
    destruct G' as (_ & G1 & _ & G2).
    assert (H1 : (1 <= passes)%nat) by (apply G1; unfold precondition in Hpre; lia).
    destruct (G2 H1) as (a & -> & Htab' & Hgood).
    set (b1 := mkBatch (cur_groups_recorded_prob_partstates a) (cur_groups_cumcond_entropy a)
                       (chosen_groups b ++ [cur_group a]) ev (Some a)
                       (substeps b ++ [passes])).
    assert (Hb1 : batch_ok self st w (shape1 parts) b1).
    { unfold batch_ok, b1. cbn [chosen_groups previous_groups_prob_partstates
        previous_groups_cumcond_entropy substeps].
      rewrite !length_app. cbn [length]. rewrite Nat.add_1_r.
      split; [|split; [|split]].
      - rewrite Nat.pow_succ_r'. exact Htab'.
      - apply Forall_app. split; [exact Hgroups|]. constructor; [exact Hgood|constructor].
      - rewrite Hsub. cbn [length]. lia.
      - apply Forall_app. split; [exact Hpasses|]. constructor; [exact H1|constructor]. }
    specialize (IH b1 Hb1).
    destruct (add_groups todo self st w parts b1) as [[b'|e]|]; [|exact IH|exact IH].
    destruct IH as [I1 I2]. split; [exact I1|].
    rewrite I2. unfold b1. cbn [chosen_groups]. rewrite length_app. simpl. lia.
Qed.

Lemma add_groups_unbound (self : MaxMutualInformation) (st : State)
  (w : list R) (parts : list (list bool)) (todo : nat) (b : Batch) :
  ~ precondition self st -> accepted b = None ->
  add_groups (S todo) self st w parts b = Some (Raise UnboundLocalError).
Proof.
  intros Hpre Hacc. cbn [add_groups grow].
  unfold precondition in Hpre.
  destruct (Z.leb_spec (0 + Z.of_nat (forward_iterations self)
                        - Z.of_nat (backward_iterations self)) (max_group_size st)) as [H|H];
    [lia|].
  now rewrite Hacc.
Qed.

Lemma collapse_valid (alpha : list R) (st : State) :
  valid_belief st ->
  weights_ok (fst (collapse_particles alpha (particle_weights st) (particles st))) /\
  length (snd (collapse_particles alpha (particle_weights st) (particles st)))
  = length (fst (collapse_particles alpha (particle_weights st) (particles st))) /\
  (1 <= length (snd (collapse_particles alpha (particle_weights st) (particles st))))%nat /\
  (forall r, In r (snd (collapse_particles alpha (particle_weights st) (particles st))) ->
             In r (particles st)).
Proof.
  intros (Hlen & [Hw Hsum] & _).
  destruct (Nat.ltb_spec (length (particles st)) 2) as [Hsmall|Hbig].
  - assert (E : collapse_particles alpha (particle_weights st) (particles st)
                = (particle_weights st, particles st)).
    { unfold collapse_particles. apply Nat.ltb_lt in Hsmall. now rewrite Hsmall. }
    rewrite E. cbn [fst snd]. split; [split; assumption|]. split; [now rewrite Hlen|].
    split; [|auto].
    rewrite <- Hlen. destruct (particle_weights st); [simpl in Hsum; lra|simpl; lia].
  - destruct (collapse_particles alpha (particle_weights st) (particles st))
      as [w' parts'] eqn:E.
    destruct (CollapseFacts.collapse_particles_facts alpha _ _ Hlen Hbig w' parts' E)
      as (S1 & S2 & S3 & S4 & S5).
    cbn [fst snd]. split; [split; [now apply S5|now rewrite S1]|].
    split; [now rewrite S2|]. split; [lia|exact S4].
Qed.

End SearchFacts.

(** ** The mutual-information selector (C3, C7, C10) *)

Module SelectorFacts.
Import Np RNp MutualInformation EntropyFacts TableFacts CriterionFacts SearchFacts.
Import Spec Fixtures.
Local Open Scope R_scope.

Lemma init_iterations (fw bw : nat) (self : MaxMutualInformation) :
  MaxMutualInformation_init fw bw = Ok self ->
  forward_iterations self = fw /\ backward_iterations self = bw /\ (bw < fw)%nat.
Proof.
  unfold MaxMutualInformation_init. destruct (Nat.leb_spec fw bw); [discriminate|].
  intros [= <-]. auto.
Qed.

(** The three ways [get_groups] can end. *)
Lemma get_groups_batch_cases (self : MaxMutualInformation) (alpha : list R) (st : State) :
  (backward_iterations self < forward_iterations self)%nat ->
  valid_belief st ->
  let w := fst (collapse_particles alpha (particle_weights st) (particles st)) in
  let parts := snd (collapse_particles alpha (particle_weights st) (particles st)) in
  (precondition self st ->
   match get_groups_batch self alpha st with
   | None => False
   | Some (Raise e) =>
       e = ValueError /\
       (Z.of_nat (shape1 parts)
        < max_group_size st + Z.of_nat (forward_iterations self) - 1)%Z
   | Some (Ok b) =>
       batch_ok self st w (shape1 parts) b /\
       length (chosen_groups b) = Z.to_nat (extra_tests_needed st)
   end) /\
  (~ precondition self st ->
   get_groups_batch self alpha st
   = if (1 <=? extra_tests_needed st)%Z then Some (Raise UnboundLocalError)
     else Some (Ok (mkBatch (repeat [1] (length parts)) 0 [] None None []))).
Proof.
  intros Hiter Hvalid w parts.
  destruct (collapse_valid alpha st Hvalid) as (Hw & Hlen & Hne & Hin).
  fold w parts in Hw, Hlen, Hne, Hin.
  destruct Hvalid as (_ & _ & Hse & Hsp).
  assert (E : get_groups_batch self alpha st
              = add_groups (Z.to_nat (extra_tests_needed st)) self st w parts
                  (mkBatch (repeat [1] (length parts)) 0 [] None None [])).
  { unfold get_groups_batch, w, parts.
    now destruct (collapse_particles alpha (particle_weights st) (particles st)). }
  rewrite E. clear E. split.
  - intros Hpre.
    pose proof (add_groups_cases self st w parts Hiter Hw Hlen Hse Hsp Hpre
                  (Z.to_nat (extra_tests_needed st))
                  (mkBatch (repeat [1] (length parts)) 0 [] None None [])) as A.
    rewrite Hlen in A. specialize (A (initial_batch_ok self st w (shape1 parts))).
    rewrite Hlen.
    destruct (add_groups _ self st w parts _) as [[b|e]|]; [|exact A|exact A].
    destruct A as [A1 A2]. split; [exact A1|]. rewrite A2. reflexivity.
  - intros Hpre. destruct (Z.leb_spec 1 (extra_tests_needed st)) as [H1|H1].
    + destruct (Z.to_nat (extra_tests_needed st)) as [|todo] eqn:T; [lia|].
      now apply add_groups_unbound.
    + replace (Z.to_nat (extra_tests_needed st)) with 0%nat by lia. reflexivity.
Qed.

Lemma three_patients_valid (m e : Z) : valid_belief (three_patients m e).
Proof.
  unfold valid_belief, three_patients, weights_ok, probability. simpl.
  split; [reflexivity|]. split; [split; [repeat constructor; lra|lra]|].
  split; repeat constructor; lra.
Qed.

(** With two forward iterations per pass and groups of at most one patient,
    [get_groups] returns no batch at all. *)
Lemma get_groups_without_room_raises :
  MaxMutualInformation_init 2 0 = Ok wide_selector /\
  extra_tests_needed (three_patients 1 1) = 1%Z /\
  get_groups wide_selector [] (three_patients 1 1) = Some (Raise UnboundLocalError).
Proof.
  split; [reflexivity|]. split; [reflexivity|].
  unfold get_groups.
  destruct (get_groups_batch_cases wide_selector [] (three_patients 1 1)
              ltac:(simpl; lia) (three_patients_valid 1 1)) as [_ H].
  rewrite H; [reflexivity|].
  unfold precondition. simpl. lia.
Qed.

(** When [forward_iterations - backward_iterations <=
    max_group_size] and there are at least [max_group_size +
    forward_iterations - 1] patients, [get_groups] returns a batch of
    exactly [extra_tests_needed] groups, each with at least one patient; and
    when [forward_iterations - backward_iterations] divides
    [max_group_size], no group has more than [max_group_size] patients. *)
Lemma get_groups_returns_batch (fw bw : nat) (self : MaxMutualInformation)
  (alpha : list R) (st : State) :
  MaxMutualInformation_init fw bw = Ok self ->
  valid_belief st ->
  Forall (fun p => length p = num_patients st) (particles st) ->
  (Z.of_nat fw - Z.of_nat bw <= max_group_size st)%Z ->
  (max_group_size st + Z.of_nat fw - 1 <= Z.of_nat (num_patients st))%Z ->
  exists groups,
    get_groups self alpha st = Some (Ok groups) /\
    length groups = Z.to_nat (extra_tests_needed st) /\
    Forall (fun g =>
              length g = num_patients st /\ (1 <= count_true g)%nat /\
              ((Z.of_nat (fw - bw) | max_group_size st)%Z ->
               (Z.of_nat (count_true g) <= max_group_size st)%Z))
           groups.
Proof.
  intros Hinit Hvalid Hrect Hpre Hroom.
  destruct (init_iterations fw bw self Hinit) as (Efw & Ebw & Hiter).
  destruct (collapse_valid alpha st Hvalid) as (_ & _ & Hne & Hin).
  set (parts := snd (collapse_particles alpha (particle_weights st) (particles st))) in *.
  assert (Hshape : shape1 parts = num_patients st).
  { destruct parts as [|r parts']; [simpl in Hne; lia|]. simpl.
    rewrite Forall_forall in Hrect. apply Hrect, Hin. now left. }
  destruct (get_groups_batch_cases self alpha st ltac:(lia) Hvalid) as [H _].
  fold parts in H. rewrite Hshape in H.
  assert (Hp : precondition self st) by (unfold precondition; lia).
  specialize (H Hp). unfold get_groups.
  destruct (get_groups_batch self alpha st) as [[b|e]|]; [|exfalso; lia|contradiction].
  destruct H as [(_ & Hgroups & _) Hcount].
  exists (chosen_groups b). split; [reflexivity|]. split; [exact Hcount|].
  rewrite Forall_forall in Hgroups |- *. intros g Hg.
  destruct (Hgroups g Hg) as (Hl & (j & Hj & Hc) & Hbound).
  unfold step_size in *. rewrite Efw, Ebw in *.
  split; [exact Hl|]. split; [nia|exact Hbound].
Qed.




(** C7.  The two probabilities of [probabilities_new_test] sum to 1 for any
    specificity and rho; [upd_prob_groups_x_particle_x_states] doubles the
    number of columns and keeps every row sum equal to 1; and when
    [get_groups] ends normally after committing [k] groups, the table has
    one row per particle, each of [2 ^ k] columns and of sum 1. *)
Theorem outcome_table_invariant :
  (forall (positive : bool) (specificity rho : R),
     fst (probabilities_new_test positive specificity rho)
     + snd (probabilities_new_test positive specificity rho) = 1) /\
  (forall (tab : table) (pos : list bool) (specificity rho : R) (c : nat),
     length tab = length pos ->
     Forall (fun row => length row = c /\ rsum row = 1) tab ->
     Forall (fun row => length row = (2 * c)%nat /\ rsum row = 1)
            (upd_prob_groups_x_particle_x_states tab pos specificity rho)) /\
  (forall (fw bw : nat) (self : MaxMutualInformation) (alpha : list R) (st : State) (b : Batch),
     MaxMutualInformation_init fw bw = Ok self ->
     valid_belief st ->
     get_groups_batch self alpha st = Some (Ok b) ->
     length (chosen_groups b) = Z.to_nat (extra_tests_needed st) /\
     length (previous_groups_prob_partstates b)
     = length (snd (collapse_particles alpha (particle_weights st) (particles st))) /\
     Forall (fun row => length row = (2 ^ length (chosen_groups b))%nat /\ rsum row = 1)
            (previous_groups_prob_partstates b)).
Proof.
  split; [exact probabilities_new_test_sum|]. split; [exact upd_rows_sum|].
  intros fw bw self alpha st b Hinit Hvalid Hrun.
  destruct (init_iterations fw bw self Hinit) as (Efw & Ebw & Hiter).
  destruct (collapse_valid alpha st Hvalid) as (_ & Hlen & _).
  destruct (get_groups_batch_cases self alpha st ltac:(lia) Hvalid) as [Hyes Hno].
  assert (Hok : batch_ok self st
                  (fst (collapse_particles alpha (particle_weights st) (particles st)))
                  (shape1 (snd (collapse_particles alpha (particle_weights st)
                                                   (particles st)))) b /\
                length (chosen_groups b) = Z.to_nat (extra_tests_needed st)).
  { destruct (Z.le_gt_cases (Z.of_nat (forward_iterations self)
                             - Z.of_nat (backward_iterations self)) (max_group_size st))
      as [Hpre|Hpre].
    - specialize (Hyes Hpre). now rewrite Hrun in Hyes.
    - rewrite Hrun in Hno. specialize (Hno ltac:(unfold precondition; lia)).
      destruct (Z.leb_spec 1 (extra_tests_needed st)) as [H1|H1]; [discriminate|].
      injection Hno as ->. split.
      + rewrite Hlen. apply initial_batch_ok.
      + simpl. lia. }
  destruct Hok as [((Ht & Hrows & _) & _) Hcount].
  split; [exact Hcount|]. split; [now rewrite Ht, Hlen|].
  rewrite Forall_forall in Hrows |- *. intros row Hrow.
  destruct (Hrows row Hrow) as (H1 & _ & H2). split; assumption.
Qed.

Lemma outcome_table_invariant_witness :
  exists b,
    get_groups_batch greedy_selector [] (three_patients 3 2) = Some (Ok b) /\
    length (chosen_groups b) = 2%nat /\
    length (previous_groups_prob_partstates b) = 1%nat /\
    Forall (fun row => length row = (2 ^ length (chosen_groups b))%nat /\ rsum row = 1)
           (previous_groups_prob_partstates b).
Proof.
  destruct (get_groups_batch_cases greedy_selector [] (three_patients 3 2)
              ltac:(simpl; lia) (three_patients_valid 3 2)) as [H _].
  specialize (H ltac:(unfold precondition; simpl; lia)).
  destruct (get_groups_batch greedy_selector [] (three_patients 3 2)) as [[b|e]|] eqn:E.
  - exists b. split; [reflexivity|].
    exact (proj2 (proj2 outcome_table_invariant) 1%nat 0%nat greedy_selector []
                 (three_patients 3 2) b eq_refl (three_patients_valid 3 2) E).
  - exfalso. destruct H as [_ H]. simpl in H. lia.
  - contradiction.
Defined.

(** *** A group larger than [max_group_size] *)

(** The probabilities that occur as arguments of [ln] in this example. *)
Ltac eighth x :=
  lazymatch x with
  | 0 => idtac | 1 => idtac | 1 / 8 => idtac | 1 / 4 => idtac | 3 / 8 => idtac
  | 1 / 2 => idtac | 5 / 8 => idtac | 3 / 4 => idtac | 7 / 8 => idtac
  end.

Ltac to_eighths_in H :=
  repeat match type of H with
  | context [ln ?x] =>
      tryif eighth x then fail
      else first [ replace x with 0 in H by lra | replace x with 1 in H by lra
                 | replace x with (1 / 8) in H by lra | replace x with (1 / 4) in H by lra
                 | replace x with (3 / 8) in H by lra | replace x with (1 / 2) in H by lra
                 | replace x with (5 / 8) in H by lra | replace x with (3 / 4) in H by lra
                 | replace x with (7 / 8) in H by lra ]
  end.

Ltac to_eighths :=
  repeat match goal with
  | |- context [ln ?x] =>
      tryif eighth x then fail
      else first [ replace x with 0 by lra | replace x with 1 by lra
                 | replace x with (1 / 8) by lra | replace x with (1 / 4) by lra
                 | replace x with (3 / 8) by lra | replace x with (1 / 2) by lra
                 | replace x with (5 / 8) by lra | replace x with (3 / 4) by lra
                 | replace x with (7 / 8) by lra ]
  end.

Ltac decide_criteria :=
  repeat match goal with
  | |- context [Rlt_dec ?a ?b] =>
      let H := fresh "D" in
      destruct (Rlt_dec a b) as [H|H]; try (exfalso; to_eighths_in H; lra)
  end.

Lemma collapse_at_most_one_infected : exists w0 w1 w2 w3 w4,
  collapse_particles increasing_alpha five_weights at_most_one_infected
  = ([w0; w1; w2; w3; w4], at_most_one_infected) /\
  w0 = 1 / 2 /\ w1 = 1 / 8 /\ w2 = 1 / 8 /\ w3 = 1 / 8 /\ w4 = 1 / 8.
Proof.
  eval_reals. decide_reals.
  do 5 eexists. split; [reflexivity|]. repeat split; lra.
Qed.

Lemma ln_quarter : ln (1 / 4) = 2 * ln (1 / 2).
Proof.
  replace (1 / 4) with (1 / 2 * (1 / 2)) by lra. rewrite ln_mult by lra. ring.
Qed.

Lemma ln_gap : 11 / 27 <= 3 * ln (3 / 4) - 2 * ln (1 / 2).
Proof.
  assert (E : ln (3 / 4 * (3 / 4) * (3 / 4)) = ln (27 / 16 * (1 / 2) * (1 / 2)))
    by (f_equal; lra).
  rewrite !ln_mult in E by lra.
  pose proof (ln_le_minus_1 (/ (27 / 16)) ltac:(lra)) as L.
  rewrite ln_Rinv in L by lra. lra.
Qed.

Section LargeGroup.

Variables w0 w1 w2 w3 w4 : R.
Hypothesis H0 : w0 = 1 / 2.
Hypothesis H1 : w1 = 1 / 8.
Hypothesis H2 : w2 = 1 / 8.
Hypothesis H3 : w3 = 1 / 8.
Hypothesis H4 : w4 = 1 / 8.

Let W : list R := [w0; w1; w2; w3; w4].
Let B0 : Batch := mkBatch [[1]; [1]; [1]; [1]; [1]] 0 [] None None [].

Ltac evaluate_criterion :=
  pose proof ln_1 as L1; pose proof (ln_nonpos 0 ltac:(lra)) as L0;
  unfold joint_mi_criterion_mg, W; eval_reals; decide_criteria;
  do 3 eexists; split; [reflexivity|to_eighths; lra].

(** The four additions: every candidate of a step has the same criterion,
    the binary entropy of the probability that the group tests positive,
    so the first candidate is taken. *)
Lemma first_addition : exists obj tab cum,
  joint_mi_criterion_mg W at_most_one_infected [false; false; false; false]
    [false; false; false; false; false] (repeat [1] 5) 0 [1] [1] false
  = Ok (mkProposal [true; false; false; false] [false; true; false; false; false]
                   obj tab cum)
  /\ obj = - (7 / 8 * ln (7 / 8) + 1 / 8 * ln (1 / 8)).
Proof. evaluate_criterion. Qed.

Lemma second_addition : exists obj tab cum,
  joint_mi_criterion_mg W at_most_one_infected [true; false; false; false]
    [false; true; false; false; false] (repeat [1] 5) 0 [1] [1] false
  = Ok (mkProposal [true; true; false; false] [false; true; true; false; false]
                   obj tab cum)
  /\ obj = - (3 / 4 * ln (3 / 4) + 1 / 4 * ln (1 / 4)).
Proof. evaluate_criterion. Qed.

Lemma third_addition : exists obj tab cum,
  joint_mi_criterion_mg W at_most_one_infected [true; true; false; false]
    [false; true; true; false; false] (repeat [1] 5) 0 [1] [1] false
  = Ok (mkProposal [true; true; true; false] [false; true; true; true; false]
                   obj tab cum)
  /\ obj = - (5 / 8 * ln (5 / 8) + 3 / 8 * ln (3 / 8)).
Proof. evaluate_criterion. Qed.

Lemma fourth_addition : exists obj tab cum,
  joint_mi_criterion_mg W at_most_one_infected [true; true; true; false]
    [false; true; true; true; false] (repeat [1] 5) 0 [1] [1] false
  = Ok (mkProposal [true; true; true; true] [false; true; true; true; true]
                   obj tab cum)
  /\ obj = - (1 / 2 * ln (1 / 2) + 1 / 2 * ln (1 / 2)).
Proof. evaluate_criterion. Qed.

Lemma first_pass (ev : option Evaluated) : exists obj tab cum,
  run_pass wide_selector four_patients_cap_three W at_most_one_infected B0
           [false; false; false; false] [false; false; false; false; false] ev
  = Ok ([true; true; false; false], [false; true; true; false; false],
        Some (mkEvaluated obj tab cum)) /\
  obj = - (3 / 4 * ln (3 / 4) + 1 / 4 * ln (1 / 4)).
Proof.
  destruct first_addition as (o1 & t1 & c1 & E1 & V1).
  destruct second_addition as (o2 & t2 & c2 & E2 & V2).
  exists o2, t2, c2. split; [|exact V2].
  unfold run_pass, wide_selector, four_patients_cap_three, B0.
  cbn [forward_iterations backward_iterations run_steps prior_sensitivity prior_specificity
       previous_groups_prob_partstates previous_groups_cumcond_entropy].
  change [[1]; [1]; [1]; [1]; [1]] with (repeat [1] 5).
  rewrite E1. cbn [bind new_group new_positives]. rewrite E2. reflexivity.
Qed.

Lemma second_pass (ev : option Evaluated) : exists obj tab cum,
  run_pass wide_selector four_patients_cap_three W at_most_one_infected B0
           [true; true; false; false] [false; true; true; false; false] ev
  = Ok ([true; true; true; true], [false; true; true; true; true],
        Some (mkEvaluated obj tab cum)) /\
  obj = - (1 / 2 * ln (1 / 2) + 1 / 2 * ln (1 / 2)).
Proof.
  destruct third_addition as (o3 & t3 & c3 & E3 & V3).
  destruct fourth_addition as (o4 & t4 & c4 & E4 & V4).
  exists o4, t4, c4. split; [|exact V4].
  unfold run_pass, wide_selector, four_patients_cap_three, B0.
  cbn [forward_iterations backward_iterations run_steps prior_sensitivity prior_specificity
       previous_groups_prob_partstates previous_groups_cumcond_entropy].
  change [[1]; [1]; [1]; [1]; [1]] with (repeat [1] 5).
  rewrite E3. cbn [bind new_group new_positives]. rewrite E4. reflexivity.
Qed.

(** The loop test before the second pass uses the clamped [backward_it = 1]
    (2 + 2 - 1 <= 3), the pass itself removes [self.backward_iterations =
    0] patients, and its result is accepted. *)
Lemma large_group_added : exists b,
  add_groups 1 wide_selector four_patients_cap_three W at_most_one_infected B0
  = Some (Ok b) /\
  chosen_groups b = [[true; true; true; true]].
Proof.
  pose proof (ln_le_minus_1 (3 / 4) ltac:(lra)) as B34.
  pose proof (ln_le_minus_1 (1 / 4) ltac:(lra)) as B14.
  pose proof ln_quarter as Q. pose proof ln_gap as G.
  destruct (first_pass None) as (o2 & t2 & c2 & P1 & V2).
  destruct (second_pass (Some (mkEvaluated o2 t2 c2))) as (o4 & t4 & c4 & P2 & V4).
  cbn [add_groups].
  change (shape1 at_most_one_infected) with 4%nat.
  change (length at_most_one_infected) with 5%nat.
  change (repeat false 4) with [false; false; false; false].
  change (repeat false 5) with [false; false; false; false; false].
  change (max_group_size four_patients_cap_three) with 3%Z.
  change (Z.to_nat 3) with 3%nat.
  change (evaluated B0) with (@None Evaluated). change (accepted B0) with (@None Accepted).
  cbn [grow]. change (forward_iterations wide_selector) with 2%nat.
  change (backward_iterations wide_selector) with 0%nat.
  change (max_group_size four_patients_cap_three) with 3%Z.
  change (0 + Z.of_nat 2 - Z.of_nat 0 <=? 3)%Z with true. cbv iota.
  rewrite P1. cbv iota beta. cbn [obj_new].
  destruct (Rlt_dec (-1 + 1 / 1000000) o2) as [A1|A1]; [|exfalso; lra].
  cbn [proposed_group_cumcond_entropy proposed_group_prob_partstates].
  change (0 + (Z.of_nat 2 - Z.of_nat 0))%Z with 2%Z.
  change (Z.min (Z.max (Z.of_nat 0) (2 + Z.of_nat 2 - 3)) (Z.of_nat 2 - 1))%Z with 1%Z.
  change (2 + Z.of_nat 2 - 1 <=? 3)%Z with true. cbv iota.
  rewrite P2. cbv iota beta. cbn [obj_new].
  destruct (Rlt_dec (o2 + 1 / 1000000) o4) as [A2|A2]; [|exfalso; lra].
  cbn [proposed_group_cumcond_entropy proposed_group_prob_partstates].
  change (2 + (Z.of_nat 2 - 1))%Z with 3%Z.
  change (Z.min (Z.max 1 (3 + Z.of_nat 2 - 3)) (Z.of_nat 2 - 1))%Z with 1%Z.
  change (3 + Z.of_nat 2 - 1 <=? 3)%Z with false. cbv iota.
  eexists. split; [reflexivity|]. reflexivity.
Qed.

End LargeGroup.

Lemma four_patients_cap_three_valid : valid_belief four_patients_cap_three.
Proof.
  unfold valid_belief, four_patients_cap_three, five_weights, weights_ok, probability. simpl.
  split; [reflexivity|]. split; [split; [repeat constructor; lra|lra]|].
  split; repeat constructor; lra.
Qed.

(** C3.  On the belief [four_patients_cap_three], with two additions and no
    removal per pass, [get_groups] returns one group of four patients, more
    than [max_group_size = 3].  The bound does hold, together with the
    number of groups, for every valid belief with
    [forward_iterations - backward_iterations <= max_group_size] and at
    least [max_group_size + forward_iterations - 1] patients when
    [forward_iterations - backward_iterations] divides [max_group_size]. *)
Theorem get_groups_count_and_size :
  (MaxMutualInformation_init 2 0 = Ok wide_selector /\
   valid_belief four_patients_cap_three /\
   max_group_size four_patients_cap_three = 3%Z /\
   get_groups wide_selector increasing_alpha four_patients_cap_three
   = Some (Ok [[true; true; true; true]])) /\
  (forall (fw bw : nat) (self : MaxMutualInformation) (alpha : list R) (st : State),
     MaxMutualInformation_init fw bw = Ok self ->
     valid_belief st ->
     Forall (fun p => length p = num_patients st) (particles st) ->
     (Z.of_nat fw - Z.of_nat bw <= max_group_size st)%Z ->
     (max_group_size st + Z.of_nat fw - 1 <= Z.of_nat (num_patients st))%Z ->
     exists groups,
       get_groups self alpha st = Some (Ok groups) /\
       length groups = Z.to_nat (extra_tests_needed st) /\
       Forall (fun g =>
                 length g = num_patients st /\ (1 <= count_true g)%nat /\
                 ((Z.of_nat (fw - bw) | max_group_size st)%Z ->
                  (Z.of_nat (count_true g) <= max_group_size st)%Z))
              groups).
Proof.
  split; [|exact get_groups_returns_batch].
  split; [reflexivity|]. split; [exact four_patients_cap_three_valid|].
  split; [reflexivity|].
  destruct collapse_at_most_one_infected
    as (w0 & w1 & w2 & w3 & w4 & E & H0 & H1 & H2 & H3 & H4).
  destruct (large_group_added w0 w1 w2 w3 w4 H0 H1 H2 H3 H4) as (b & A & C).
  unfold get_groups, get_groups_batch.
  change (particle_weights four_patients_cap_three) with five_weights.
  change (particles four_patients_cap_three) with at_most_one_infected.
  rewrite E.
  change (Z.to_nat (extra_tests_needed four_patients_cap_three)) with 1%nat.
  change (length at_most_one_infected) with 5%nat.
  change (repeat [1] 5) with [[1]; [1]; [1]; [1]; [1]].
  rewrite A. now rewrite C.
Qed.

Lemma get_groups_count_and_size_witness :
  exists groups,
    get_groups greedy_selector [] (three_patients 3 2) = Some (Ok groups) /\
    length groups = Z.to_nat (extra_tests_needed (three_patients 3 2)) /\
    Forall (fun g =>
              length g = num_patients (three_patients 3 2) /\ (1 <= count_true g)%nat /\
              ((Z.of_nat (1 - 0) | max_group_size (three_patients 3 2))%Z ->
               (Z.of_nat (count_true g) <= max_group_size (three_patients 3 2))%Z))
           groups.
Proof.
  apply (proj2 get_groups_count_and_size 1%nat 0%nat greedy_selector []
               (three_patients 3 2)).
  - reflexivity.
  - apply three_patients_valid.
  - repeat constructor.
  - simpl. lia.
  - simpl. lia.
Defined.

End SelectorFacts.

(* ================================================================== *)
(** * Further properties of the selectors *)

(** ** Groups, sections and membership *)

Module GroupFacts.
Import Np.
Import Spec Fixtures.

Lemma count_true_all_false {A : Type} (l : list A) :
  count_true (map (fun _ => false) l) = 0.
Proof. induction l as [|x l IH]; simpl; [reflexivity|exact IH]. Qed.

Lemma count_true_one_more (i : nat) (h : nat -> bool) (l : list nat) :
  NoDup l -> In i l -> h i = false ->
  count_true (map (fun j => (j =? i) || h j) l) = S (count_true (map h l)).
Proof.
  induction l as [|x l IH]; intros Hnd Hin Hh; [destruct Hin|].
  inversion Hnd as [|? ? Hx Hl]; subst. cbn [map count_true].
  destruct (Nat.eqb_spec x i) as [->|Hne].
  - rewrite Hh. cbn [orb]. simpl. do 2 f_equal. apply map_ext_in.
    intros j Hj. destruct (Nat.eqb_spec j i) as [->|_]; [contradiction|reflexivity].
  - destruct Hin as [->|Hin]; [contradiction|].
    cbn [orb]. rewrite (IH Hl Hin Hh). lia.
Qed.

(** A row built by [put] has as many members as distinct indices in range. *)
Lemma count_true_put (n : nat) (idxs : list nat) :
  NoDup idxs -> Forall (fun i => i < n) idxs -> count_true (put n idxs) = length idxs.
Proof.
  unfold put. induction idxs as [|i idxs IH]; intros Hnd Hb.
  - apply count_true_all_false.
  - inversion Hnd as [|? ? Hi Hnd']; subst. inversion Hb as [|? ? Hin Hb']; subst.
    cbn [existsb length]. rewrite <- (IH Hnd' Hb').
    apply (count_true_one_more i (fun j => existsb (Nat.eqb j) idxs)).
    + apply seq_NoDup.
    + apply in_seq. lia.
    + destruct (existsb (Nat.eqb i) idxs) eqn:E; [|reflexivity].
      apply InfDorfmanFacts.existsb_eqb_in in E. contradiction.
Qed.

Lemma length_put (n : nat) (idxs : list nat) : length (put n idxs) = n.
Proof. unfold put. now rewrite length_map, length_seq. Qed.

Lemma sorted_same_members (l l' : list nat) :
  StronglySorted lt l -> StronglySorted lt l' ->
  (forall x, In x l <-> In x l') -> l = l'.
Proof.
  revert l'. induction l as [|a l IH]; intros l' Hs Hs' Hm.
  - destruct l' as [|b l']; [reflexivity|]. exfalso. apply (Hm b). now left.
  - destruct l' as [|b l']; [exfalso; apply (Hm a); now left|].
    apply StronglySorted_inv in Hs. destruct Hs as [Hs Ha].
    apply StronglySorted_inv in Hs'. destruct Hs' as [Hs' Hb].
    rewrite Forall_forall in Ha, Hb.
    assert (E : a = b).
    { destruct (proj1 (Hm a) (or_introl eq_refl)) as [E|Hin]; [now symmetry|].
      destruct (proj2 (Hm b) (or_introl eq_refl)) as [E|Hin']; [exact E|].
      specialize (Ha _ Hin'). specialize (Hb _ Hin). lia. }
    subst b. f_equal. apply IH; [exact Hs|exact Hs'|].
    intros x. split; intros Hx.
    + destruct (proj1 (Hm x) (or_intror Hx)) as [E|Hin]; [|exact Hin].
      specialize (Ha _ Hx). lia.
    + destruct (proj2 (Hm x) (or_intror Hx)) as [E|Hin]; [|exact Hin].
      specialize (Hb _ Hx). lia.
Qed.

Lemma where_from_increasing {A : Type} (p : A -> bool) (v : list A) (s : nat) :
  StronglySorted lt (where_from p s v).
Proof.
  revert s. induction v as [|x v IH]; intros s; simpl; [constructor|].
  destruct (p x); [|apply IH]. constructor; [apply IH|].
  apply Forall_forall. intros i Hi. apply SplitFacts.where_from_bound in Hi. lia.
Qed.

Lemma seq_increasing (a n : nat) : StronglySorted lt (seq a n).
Proof.
  revert a. induction n as [|n IH]; intros a; simpl; constructor; [apply IH|].
  apply Forall_forall. intros i Hi. apply in_seq in Hi. lia.
Qed.

(** The members of a row built by [put], read back with [np.where]. *)
Lemma where_put (n : nat) (idxs : list nat) :
  StronglySorted lt idxs -> Forall (fun i => i < n) idxs ->
  where_ (fun b : bool => b) (put n idxs) = idxs.
Proof.
  intros Hs Hb. apply sorted_same_members; [apply where_from_increasing|exact Hs|].
  intros x. unfold where_. rewrite (InfDorfmanFacts.where_from_iff _ false).
  rewrite length_put, Nat.sub_0_r. split.
  - intros [Hx E]. rewrite InfDorfmanFacts.nth_put in E by lia.
    now apply InfDorfmanFacts.existsb_eqb_in.
  - intros Hx. rewrite Forall_forall in Hb. pose proof (Hb _ Hx).
    split; [lia|]. rewrite InfDorfmanFacts.nth_put by lia.
    now apply InfDorfmanFacts.existsb_eqb_in.
Qed.

Lemma sorted_app_inv (u v : list nat) :
  StronglySorted lt (u ++ v) -> StronglySorted lt u /\ StronglySorted lt v.
Proof.
  induction u as [|x u IH]; simpl; intros H; [split; [constructor|exact H]|].
  apply StronglySorted_inv in H. destruct H as [H Hx].
  destruct (IH H) as [Hu Hv]. split; [|exact Hv].
  constructor; [exact Hu|]. apply Forall_app in Hx. tauto.
Qed.

Lemma sorted_concat_inv (ps : list (list nat)) :
  StronglySorted lt (concat ps) -> Forall (StronglySorted lt) ps.
Proof.
  induction ps as [|p ps IH]; simpl; intros H; constructor;
    apply sorted_app_inv in H; [tauto|]. apply IH. tauto.
Qed.


(** What [array_split] returns: consecutive sections that make up the
    array, the requested number of them, of sizes that differ by at most
    one, the larger ones first. *)
Lemma array_split_sections {A : Type} (l : list A) (k : Z) (parts : list (list A)) :
  array_split l k = Ok parts ->
  (1 <= k)%Z /\
  concat parts = l /\
  length parts = Z.to_nat k /\
  Forall (fun p => length l / Z.to_nat k <= length p <= S (length l / Z.to_nat k)) parts /\
  Forall (fun p => Z.of_nat (length p) <= cdiv (Z.of_nat (length l)) k)%Z parts.
Proof.
  unfold array_split. destruct (Z.leb_spec k 0) as [|Hk]; [discriminate|].
  intros [= <-].
  set (n := Z.to_nat k). assert (Hn : 0 < n) by lia.
  set (sizes := repeat (S (length l / n)) (length l mod n)
                ++ repeat (length l / n) (n - length l mod n)).
  assert (Hsum : list_sum sizes = length l) by (now apply SplitFacts.section_sizes_sum).
  pose proof (SplitFacts.chunks_lengths sizes l ltac:(lia)) as HL.
  pose proof (Nat.mod_upper_bound (length l) n ltac:(lia)) as U.
  split; [lia|]. split; [now apply InfDorfmanFacts.concat_chunks|].
  split.
  { rewrite <- (length_map (@length A)), HL. unfold sizes.
    rewrite length_app, !repeat_length. lia. }
  assert (Hin : forall p, In p (chunks l sizes) -> In (length p) sizes).
  { intros p Hp. rewrite <- HL. now apply in_map. }
  split; apply Forall_forall; intros p Hp; apply Hin in Hp; unfold sizes in Hp;
    apply in_app_or in Hp.
  - destruct Hp as [Hp|Hp]; apply repeat_spec in Hp; lia.
  - assert (Hc : cdiv (Z.of_nat (length l)) k
                 = (Z.of_nat (length l / n)
                    + (if (length l mod n =? 0)%nat then 0 else 1))%Z).
    { unfold cdiv. pose proof (Nat.div_mod_eq (length l) n) as E.
      assert (Ek : k = Z.of_nat n) by lia. rewrite Ek.
      destruct (Nat.eqb_spec (length l mod n) 0) as [E0|E0].
      - rewrite E0, Nat.add_0_r in E. rewrite E at 1.
        rewrite Nat2Z.inj_mul, <- Z.mul_opp_r, Z.mul_comm, Z.div_mul by lia. lia.
      - assert (Hq : (- Z.of_nat (length l) / Z.of_nat n = - Z.of_nat (length l / n) - 1)%Z).
        { symmetry. apply (Z.div_unique_pos _ _ _ (Z.of_nat n - Z.of_nat (length l mod n))); nia. }
        rewrite Hq. lia. }
    rewrite Hc. destruct Hp as [Hp|Hp].
    + destruct (length l mod n) eqn:Em; [destruct Hp|].
      apply repeat_spec in Hp. simpl. lia.
    + apply repeat_spec in Hp. destruct (length l mod n =? 0)%nat; lia.
Qed.

End GroupFacts.

(** ** [SplitSelector] *)

Module SplitSelectorProps.
Import Np Split GroupFacts.
Import Spec Fixtures.

(** X1.  Whatever the split factor, a batch that [SplitSelector.get_groups]
    returns cuts the patients 0 .. num_patients - 1 into consecutive groups:
    the members of the groups, read in order, are the patients in order;
    every patient is in exactly one group; and the sizes of two groups
    differ by at most one. *)
Theorem split_selector_partition (split_factor : option Z) (st : State)
  (groups : list group) :
  SplitSelector_get_groups split_factor st = Ok groups ->
  Forall (fun g => length g = num_patients st) groups /\
  concat (map (where_ (fun b : bool => b)) groups) = seq 0 (num_patients st) /\
  (forall p, p < num_patients st ->
     count_true (map (fun g => nth p g false) groups) = 1) /\
  (forall g g', In g groups -> In g' groups -> count_true g <= S (count_true g')).
Proof.
  unfold SplitSelector_get_groups. intros H.
  apply bind_ok_inv in H. destruct H as [factor [_ H]].
  apply bind_ok_inv in H. destruct H as [indices [Hs [= <-]]].
  destruct (array_split_sections _ _ _ Hs) as (_ & Hcat & _ & Hsz & _).
  rewrite length_seq in Hsz.
  assert (Hsorted : Forall (StronglySorted lt) indices).
  { apply sorted_concat_inv. rewrite Hcat. apply seq_increasing. }
  assert (Hrange : Forall (Forall (fun i => i < num_patients st)) indices).
  { apply Forall_forall. intros c Hc. apply Forall_forall. intros i Hi.
    assert (Hin : In i (concat indices)) by (apply in_concat; eauto).
    rewrite Hcat in Hin. apply in_seq in Hin. lia. }
  assert (Hcount : forall c, In c indices ->
            count_true (put (num_patients st) c) = length c).
  { intros c Hc. rewrite Forall_forall in Hsorted, Hrange.
    apply count_true_put; [|now apply Hrange].
    specialize (Hsorted c Hc). clear - Hsorted.
    induction Hsorted as [|x l Hl IH Hx]; constructor; [|exact IH].
    intros Hin. rewrite Forall_forall in Hx. specialize (Hx _ Hin). lia. }
  split; [|split; [|split]].
  - apply Forall_forall. intros g Hg. apply in_map_iff in Hg.
    destruct Hg as [c [<- _]]. apply length_put.
  - rewrite <- Hcat. f_equal. rewrite map_map.
    rewrite <- (map_id indices) at 2. apply map_ext_in. intros c Hc.
    rewrite Forall_forall in Hsorted, Hrange. apply where_put; auto.
  - intros p Hp. rewrite InfDorfmanFacts.membership_count; [|exact Hp|].
    + rewrite Hcat.
      assert (E : existsb (Nat.eqb p) (seq 0 (num_patients st)) = true).
      { apply InfDorfmanFacts.existsb_eqb_in, in_seq. lia. }
      now rewrite E.
    + rewrite Hcat. apply seq_NoDup.
  - intros g g' Hg Hg'. apply in_map_iff in Hg, Hg'.
    destruct Hg as [c [<- Hc]]. destruct Hg' as [c' [<- Hc']].
    rewrite !Hcount by assumption.
    rewrite Forall_forall in Hsz. pose proof (Hsz c Hc). pose proof (Hsz c' Hc'). lia.
Qed.

Lemma split_selector_partition_witness :
  Forall (fun g => length g = 2) [[true; false]; [false; true]; [false; false]] /\
  concat (map (where_ (fun b : bool => b)) [[true; false]; [false; true]; [false; false]])
  = seq 0 2 /\
  (forall p, p < 2 ->
     count_true (map (fun g => nth p g false) [[true; false]; [false; true]; [false; false]])
     = 1) /\
  (forall g g', In g [[true; false]; [false; true]; [false; false]] ->
                In g' [[true; false]; [false; true]; [false; false]] ->
                count_true g <= S (count_true g')).
Proof.
  apply (split_selector_partition (Some 3%Z) (two_patients [] [])). reflexivity.
Defined.








End SplitSelectorProps.

(** ** [SplitPositive] *)

Module SplitPositiveProps.
Import Np Split GroupFacts.
Import Spec Fixtures.

Lemma array_split_raises {A : Type} (l : list A) (k : Z) (e : exn) :
  array_split l k = Raise e -> e = ValueError.
Proof. unfold array_split. destruct (k <=? 0)%Z; [now intros [= <-]|discriminate]. Qed.

Lemma take_rows_raises {A : Type} (rows : list A) (idxs : list nat) (e : exn) :
  take_rows rows idxs = Raise e -> e = IndexError.
Proof.
  induction idxs as [|i idxs IH]; simpl; [discriminate|].
  destruct (nth_error rows i); [|now intros [= <-]].
  destruct (take_rows rows idxs); simpl; [discriminate|].
  intros [= <-]. now apply IH.
Qed.

Lemma take_rows_ok {A : Type} (d : A) (rows : list A) (idxs : list nat) :
  Forall (fun i => i < length rows) idxs ->
  take_rows rows idxs = Ok (map (fun i => nth i rows d) idxs).
Proof.
  induction idxs as [|i idxs IH]; intros H; simpl; [reflexivity|].
  inversion H as [|? ? Hi Hrest]; subst.
  destruct (nth_error rows i) as [r|] eqn:E.
  - rewrite (IH Hrest). simpl. now rewrite (nth_error_nth _ _ _ E).
  - apply nth_error_None in E. lia.
Qed.

Lemma count_true_le_length (g : group) : count_true g <= length g.
Proof. induction g as [|b g IH]; simpl; [lia|]. destruct b; lia. Qed.

Lemma count_true_app (u v : list bool) : count_true (u ++ v) = count_true u + count_true v.
Proof. induction u as [|b u IH]; simpl; [reflexivity|]. rewrite IH. lia. Qed.

(** A group with at most one member makes the loop read [newg]: unbound at
    the first group, the rows of the previous group afterwards. *)
Lemma split_groups_loop_small (f : option Z) (n : nat) (g : group) (rest : list group)
  (newg : option (list group)) (acc : list group) :
  count_true g <= 1 ->
  split_groups_loop f n (g :: rest) newg acc
  = match newg with
    | None => Raise UnboundLocalError
    | Some rows => split_groups_loop f n rest newg (acc ++ rows)
    end.
Proof.
  intros H. cbn [split_groups_loop].
  destruct (Nat.ltb_spec 1 (count_true g)) as [|_]; [lia|]. reflexivity.
Qed.

(** The loop on groups that all have more than one member. *)
Lemma split_groups_loop_rows (f : option Z) (n : nat) (groups : list group) :
  (forall k, f = Some k -> (1 <= k)%Z) ->
  Forall (fun g => 1 < count_true g) groups ->
  forall newg acc, exists rowss,
    split_groups_loop f n groups newg acc = Ok (acc ++ concat rowss) /\
    Forall2 (fun g rows =>
               exists parts,
                 array_split (where_ (fun b : bool => b) g)
                             match f with
                             | None => Z.of_nat (length (where_ (fun b : bool => b) g))
                             | Some k => k
                             end = Ok parts /\
                 rows = map (put n) parts)
            groups rowss.
Proof.
  intros Hf. induction groups as [|g groups IH]; intros Hg newg acc.
  - exists []. simpl. rewrite app_nil_r. split; [reflexivity|constructor].
  - inversion Hg as [|? ? H1 Hrest]; subst.
    cbn [split_groups_loop].
    destruct (Nat.ltb_spec 1 (count_true g)) as [_|]; [|lia].
    set (k := match f with
              | None => Z.of_nat (length (where_ (fun b : bool => b) g))
              | Some k => k
              end).
    assert (Hk : (1 <= k)%Z).
    { unfold k. destruct f as [k0|]; [now apply Hf|].
      unfold where_. rewrite SplitFacts.where_from_length. lia. }
    destruct (ConfigFacts.array_split_ok (where_ (fun b : bool => b) g) k Hk) as [parts Hs].
    rewrite Hs. cbn [bind].
    destruct (IH Hrest (Some (map (put n) parts)) (acc ++ map (put n) parts))
      as [rowss [E F]].
    exists (map (put n) parts :: rowss). split.
    + rewrite E. cbn [concat]. now rewrite app_assoc.
    + constructor; [|exact F]. exists parts. split; [exact Hs|reflexivity].
Qed.

Lemma filter_members (groups : list group) :
  Forall (fun g => 1 < count_true g) (filter (fun g => 1 <? count_true g) groups).
Proof.
  apply Forall_forall. intros g Hg. apply filter_In in Hg.
  destruct Hg as [_ Hg]. now apply Nat.ltb_lt.
Qed.

(** [SplitPositive.get_groups] on a rectangular history whose pending
    indices are in range: [None] when no pending group has more than one
    member, else what [_split_groups] makes of those that have. *)
Lemma split_positive_get_groups_cases (f : option Z) (st : State) :
  Forall (fun g => length g = num_patients st) (past_groups st) ->
  Forall (fun i => i < length (past_groups st)) (to_clear_positives st) ->
  let to_split :=
    filter (fun g => 1 <? count_true g)
           (map (fun i => nth i (past_groups st) []) (to_clear_positives st)) in
  (to_split = [] /\ SplitPositive_get_groups f st = Ok None) \/
  (to_split <> [] /\
   SplitPositive_get_groups f st
   = bind (split_groups_loop f (num_patients st) to_split None [])
          (fun new_groups => Ok (Some new_groups))).
Proof.
  intros Hrect Hidx to_split. unfold SplitPositive_get_groups.
  assert (Hpicked : Forall (fun g => length g = num_patients st)
                      (map (fun i => nth i (past_groups st) []) (to_clear_positives st))).
  { apply Forall_forall. intros g Hg. apply in_map_iff in Hg.
    destruct Hg as [i [<- Hi]]. rewrite Forall_forall in Hrect, Hidx.
    apply Hrect, nth_In. now apply Hidx. }
  destruct to_split as [|g ts] eqn:E.
  - left. split; [reflexivity|].
    destruct (_ && _); [|reflexivity].
    rewrite (take_rows_ok ([] : group)) by exact Hidx. cbn [bind].
    fold to_split. rewrite E. reflexivity.
  - right. split; [discriminate|].
    assert (Hg : In g (map (fun i => nth i (past_groups st) []) (to_clear_positives st))
                 /\ 1 < count_true g).
    { assert (Hin : In g to_split) by (rewrite E; now left).
      apply filter_In in Hin. destruct Hin as [Hin Hc]. apply Nat.ltb_lt in Hc. tauto. }
    destruct Hg as [Hin Hc].
    assert (Hlen : length g = num_patients st).
    { rewrite Forall_forall in Hpicked. now apply Hpicked. }
    pose proof (count_true_le_length g) as Hle.
    assert (Hsize : (0 <? length (past_groups st) * shape1 (past_groups st))
                    && (0 <? length (to_clear_positives st)) = true).
    { destruct (to_clear_positives st) as [|i idx] eqn:Ei; [destruct Hin|].
      inversion Hidx as [|? ? Hi _]; subst.
      destruct (past_groups st) as [|g0 gs] eqn:Eg; [simpl in Hi; lia|].
      inversion Hrect as [|? ? Hg0 _]; subst.
      apply andb_true_iff. split; apply Nat.ltb_lt; simpl; lia. }
    rewrite Hsize, (take_rows_ok ([] : group)) by exact Hidx. cbn [bind].
    fold to_split. rewrite E.
    assert (Hsz : (0 <? length (g :: ts) * shape1 (g :: ts)) = true).
    { apply Nat.ltb_lt. simpl. lia. }
    rewrite Hsz. unfold SplitPositive_split_groups. cbn [shape1]. now rewrite Hlen.
Qed.

(** X4.  [_split_groups] reads [newg] even when the group at hand was not
    split.  Called on a batch whose first group has at most one member it
    raises [UnboundLocalError]; after a group that was split, a group with
    at most one member contributes the rows of that previous group a second
    time.  [get_groups] only passes groups with more than one member, so it
    never raises [UnboundLocalError]. *)
Theorem split_groups_reads_newg :
  (forall (f : option Z) (g : group) (rest : list group),
     Forall (fun r => length r = length g) rest ->
     count_true g <= 1 ->
     SplitPositive_split_groups f (g :: rest) = Raise UnboundLocalError) /\
  (forall (f : option Z) (g1 g2 : group),
     length g2 = length g1 ->
     (forall k, f = Some k -> (1 <= k)%Z) ->
     1 < count_true g1 -> count_true g2 <= 1 ->
     exists rows,
       rows <> [] /\
       SplitPositive_split_groups f [g1] = Ok rows /\
       SplitPositive_split_groups f [g1; g2] = Ok (rows ++ rows)) /\
  (forall (f : option Z) (st : State),
     SplitPositive_get_groups f st <> Raise UnboundLocalError).
Proof.
  split; [|split].
  - intros f g rest _ H. unfold SplitPositive_split_groups.
    now rewrite split_groups_loop_small.
  - intros f g1 g2 _ Hf H1 H2. unfold SplitPositive_split_groups.
    change (shape1 [g1; g2]) with (shape1 [g1]).
    destruct (split_groups_loop_rows f (shape1 [g1]) [g1] Hf ltac:(repeat constructor; exact H1)
                None []) as [rowss [E F]].
    inversion F as [|? rows ? ? [parts [Hs ->]] F']; subst. inversion F'; subst.
    cbn [concat app] in E. rewrite app_nil_r in E.
    exists (map (put (shape1 [g1])) parts). split; [|split; [exact E|]].
    + destruct (array_split_sections _ _ _ Hs) as (Hk & _ & Hlen & _).
      intros Hnil. apply (f_equal (@length _)) in Hnil.
      rewrite length_map, Hlen in Hnil. simpl in Hnil. lia.
    + cbn [split_groups_loop] in E |- *.
      destruct (Nat.ltb_spec 1 (count_true g1)) as [_|]; [|lia].
      rewrite Hs in E |- *. cbn [bind] in E |- *.
      destruct (Nat.ltb_spec 1 (count_true g2)) as [|_]; [lia|]. cbn [bind app].
      reflexivity.
  - intros f st. unfold SplitPositive_get_groups.
    destruct (_ && _); [|discriminate].
    destruct (take_rows (past_groups st) (to_clear_positives st)) as [picked|e] eqn:Et.
    + cbn [bind].
      set (to_split := filter (fun g => 1 <? count_true g) picked).
      destruct (0 <? length to_split * shape1 to_split); [|discriminate].
      unfold SplitPositive_split_groups.
      assert (Hloop : forall groups n newg acc,
                Forall (fun g => 1 < count_true g) groups ->
                split_groups_loop f n groups newg acc <> Raise UnboundLocalError).
      { induction groups as [|g groups IH]; intros n newg acc Hg; [discriminate|].
        inversion Hg as [|? ? H1 Hrest]; subst. cbn [split_groups_loop].
        destruct (Nat.ltb_spec 1 (count_true g)) as [_|]; [|lia].
        destruct (array_split _ _) as [parts|e] eqn:Hs.
        - cbn [bind]. now apply IH.
        - apply array_split_raises in Hs. subst e. discriminate. }
      specialize (Hloop to_split (shape1 to_split) None [] (filter_members picked)).
      destruct (split_groups_loop _ _ _ _ _); [discriminate|].
      cbn [bind]. congruence.
    + apply take_rows_raises in Et. subst e. discriminate.
Qed.

Lemma split_groups_reads_newg_witness :
  SplitPositive_split_groups (Some 2%Z) [[true; false]; [true; true]]
  = Raise UnboundLocalError /\
  exists rows,
    rows <> [] /\
    SplitPositive_split_groups (Some 2%Z) [[true; true]] = Ok rows /\
    SplitPositive_split_groups (Some 2%Z) [[true; true]; [true; false]] = Ok (rows ++ rows).
Proof.
  split.
  - apply (proj1 split_groups_reads_newg); [repeat constructor|simpl; lia].
  - apply (proj1 (proj2 split_groups_reads_newg)
             (Some 2%Z) [true; true] [true; false]); simpl; [reflexivity| |lia|lia].
    intros k [= <-]. lia.
Defined.

(** X5.  [SplitPositive.__call__] declares everything cleared exactly when
    no pending positive group has more than one member. *)
Theorem split_positive_all_cleared_iff (f : option Z) (st : State) :
  Forall (fun g => length g = num_patients st) (past_groups st) ->
  Forall (fun i => i < length (past_groups st)) (to_clear_positives st) ->
  (SplitPositive_call f st = Ok [SetAllCleared] <->
   Forall (fun i => count_true (nth i (past_groups st) []) <= 1) (to_clear_positives st)).
Proof.
  intros Hrect Hidx. unfold SplitPositive_call.
  destruct (split_positive_get_groups_cases f st Hrect Hidx) as [[E ->]|[E ->]].
  - cbn [bind]. split; [intros _|reflexivity].
    apply Forall_forall. intros i Hi.
    destruct (Nat.leb_spec (count_true (nth i (past_groups st) [])) 1) as [|Hc];
      [assumption|exfalso].
    assert (Hin : In (nth i (past_groups st) [])
                     (filter (fun g => 1 <? count_true g)
                        (map (fun i => nth i (past_groups st) []) (to_clear_positives st)))).
    { apply filter_In. split; [|now apply Nat.ltb_lt].
      apply in_map_iff. eauto. }
    rewrite E in Hin. destruct Hin.
  - split.
    + destruct (split_groups_loop _ _ _ _ _); cbn [bind]; discriminate.
    + intros Hall. exfalso. apply E.
      rewrite Forall_forall in Hall.
      clear - Hall. induction (to_clear_positives st) as [|i idx IH]; [reflexivity|].
      cbn [map filter].
      destruct (Nat.ltb_spec 1 (count_true (nth i (past_groups st) []))) as [H|_].
      * specialize (Hall i (or_introl eq_refl)). lia.
      * apply IH. intros j Hj. apply Hall. now right.
Qed.

Lemma split_positive_all_cleared_iff_witness :
  SplitPositive_call (Some 2%Z) (two_patients [[true; false]] [0]) = Ok [SetAllCleared] <->
  Forall (fun i => count_true (nth i (past_groups (two_patients [[true; false]] [0])) []) <= 1)
         (to_clear_positives (two_patients [[true; false]] [0])).
Proof.
  apply (split_positive_all_cleared_iff (Some 2%Z) (two_patients [[true; false]] [0]));
    repeat constructor.
Defined.

Lemma count_columns_concat (p : nat) (rowss : list (list group)) :
  count_true (map (fun g => nth p g false) (concat rowss))
  = list_sum (map (fun rows => count_true (map (fun g => nth p g false) rows)) rowss).
Proof.
  induction rowss as [|rows rowss IH]; [reflexivity|].
  simpl. rewrite map_app, count_true_app. f_equal. exact IH.
Qed.

Lemma existsb_eqb_where (p : nat) (g : group) :
  existsb (Nat.eqb p) (where_ (fun b : bool => b) g) = nth p g false.
Proof.
  destruct (nth p g false) eqn:E.
  - apply InfDorfmanFacts.existsb_eqb_in. unfold where_.
    apply (InfDorfmanFacts.where_from_iff _ false). rewrite Nat.sub_0_r.
    split; [|exact E].
    destruct (Nat.ltb_spec p (length g)); [lia|].
    rewrite nth_overflow in E by lia. discriminate.
  - destruct (existsb _ _) eqn:B; [|reflexivity].
    apply InfDorfmanFacts.existsb_eqb_in in B. unfold where_ in B.
    apply (InfDorfmanFacts.where_from_iff _ false) in B. rewrite Nat.sub_0_r in B.
    destruct B as [_ B]. congruence.
Qed.

(** X6.  With a usable factor (at least 1, or unset), every pending positive
    group with more than one member is replaced by sub-groups that partition
    its members: a patient is in as many of the queued groups as in the
    pending groups that are split.  An explicit factor [k] gives [k]
    sub-groups per group. *)
Theorem split_positive_partitions_groups (f : option Z) (st : State) :
  Forall (fun g => length g = num_patients st) (past_groups st) ->
  Forall (fun i => i < length (past_groups st)) (to_clear_positives st) ->
  (forall k, f = Some k -> (1 <= k)%Z) ->
  let to_split :=
    filter (fun g => 1 <? count_true g)
           (map (fun i => nth i (past_groups st) []) (to_clear_positives st)) in
  to_split <> [] ->
  exists rows,
    SplitPositive_call f st = Ok [AddGroupsToTest rows true; UpdateToClearPositives] /\
    Forall (fun g => length g = num_patients st) rows /\
    (forall p, p < num_patients st ->
       count_true (map (fun g => nth p g false) rows)
       = count_true (map (fun g => nth p g false) to_split)) /\
    (forall k, f = Some k -> length rows = Z.to_nat k * length to_split).
Proof.
  intros Hrect Hidx Hf to_split Hne. unfold SplitPositive_call.
  destruct (split_positive_get_groups_cases f st Hrect Hidx) as [[E _]|[_ ->]];
    [contradiction|].
  fold to_split.
  destruct (split_groups_loop_rows f (num_patients st) to_split Hf
              (filter_members _) None []) as [rowss [-> F]].
  cbn [bind app]. exists (concat rowss). split; [reflexivity|].
  split; [|split].
  - apply Forall_forall. intros g Hg. apply in_concat in Hg.
    destruct Hg as [rows [Hrows Hg]].
    clear - F Hrows Hg. induction F as [|g0 rows0 gs rowss [parts [_ ->]] F IH].
    + destruct Hrows.
    + destruct Hrows as [<-|Hrows]; [|now apply IH].
      apply in_map_iff in Hg. destruct Hg as [c [<- _]]. apply length_put.
  - intros p Hp. rewrite count_columns_concat.
    clear - F Hp. induction F as [|g rows gs rowss [parts [Hs ->]] F IH]; [reflexivity|].
    simpl. f_equal; [|exact IH].
    destruct (array_split_sections _ _ _ Hs) as (_ & Hcat & _).
    rewrite InfDorfmanFacts.membership_count; [|exact Hp|].
    + rewrite Hcat, existsb_eqb_where. reflexivity.
    + rewrite Hcat. apply InfDorfmanFacts.where_from_NoDup.
  - intros k ->. clear - F.
    induction F as [|g rows gs rowss [parts [Hs ->]] F IH]; [simpl; lia|].
    cbn [concat length]. rewrite length_app, IH, length_map.
    destruct (array_split_sections _ _ _ Hs) as (_ & _ & -> & _). lia.
Qed.

Lemma split_positive_partitions_groups_witness :
  exists rows,
    SplitPositive_call (Some 2%Z) (two_patients [[true; true]] [0])
    = Ok [AddGroupsToTest rows true; UpdateToClearPositives] /\
    Forall (fun g => length g = num_patients (two_patients [[true; true]] [0])) rows /\
    (forall p, p < num_patients (two_patients [[true; true]] [0]) ->
       count_true (map (fun g => nth p g false) rows)
       = count_true (map (fun g => nth p g false) [[true; true]])) /\
    (forall k, Some 2%Z = Some k -> length rows = Z.to_nat k * length [[true; true]]).
Proof.
  apply (split_positive_partitions_groups (Some 2%Z) (two_patients [[true; true]] [0])).
  - repeat constructor.
  - repeat constructor.
  - intros k [= <-]. lia.
  - discriminate.
Defined.

(** X8.  A factor of 0 or less is only noticed when there is a group to
    split: [array_split] then rejects it and nothing is queued.  (With
    nothing to split the same selector sets [all_cleared].) *)
Theorem split_positive_bad_factor (f : Z) (st : State) :
  Forall (fun g => length g = num_patients st) (past_groups st) ->
  Forall (fun i => i < length (past_groups st)) (to_clear_positives st) ->
  (f <= 0)%Z ->
  filter (fun g => 1 <? count_true g)
         (map (fun i => nth i (past_groups st) []) (to_clear_positives st)) <> [] ->
  SplitPositive_call (Some f) st = Raise ValueError.
Proof.
  intros Hrect Hidx Hf Hne. unfold SplitPositive_call.
  destruct (split_positive_get_groups_cases (Some f) st Hrect Hidx) as [[E _]|[_ ->]];
    [contradiction|].
  pose proof (filter_members
                (map (fun i => nth i (past_groups st) []) (to_clear_positives st))) as Hall.
  destruct (filter _ _) as [|g ts]; [contradiction|].
  inversion Hall as [|? ? Hg _]; subst.
  cbn [split_groups_loop].
  destruct (Nat.ltb_spec 1 (count_true g)) as [_|]; [|lia].
  unfold array_split. destruct (Z.leb_spec f 0) as [_|]; [|lia].
  reflexivity.
Qed.

Lemma split_positive_bad_factor_witness :
  SplitPositive_call (Some 0%Z) (two_patients [[true; true]] [0]) = Raise ValueError.
Proof.
  apply (split_positive_bad_factor 0%Z (two_patients [[true; true]] [0])).
  - repeat constructor.
  - repeat constructor.
  - lia.
  - discriminate.
Defined.

Lemma chunks_ones {A : Type} (l : list A) :
  chunks l (repeat 1 (length l)) = map (fun x => [x]) l.
Proof. induction l as [|x l IH]; simpl; [reflexivity|]. now rewrite IH. Qed.

Lemma array_split_singletons {A : Type} (l : list A) :
  l <> [] -> array_split l (Z.of_nat (length l)) = Ok (map (fun x => [x]) l).
Proof.
  intros Hne. unfold array_split.
  assert (Hlen : 0 < length l) by (destruct l; [contradiction|simpl; lia]).
  destruct (Z.leb_spec (Z.of_nat (length l)) 0) as [|_]; [lia|].
  rewrite Nat2Z.id, Nat.div_same, Nat.Div0.mod_same by lia.
  cbn [repeat app]. now rewrite Nat.sub_0_r, chunks_ones.
Qed.

(** X7.  Without a factor ([split_factor=None]) the split is exhaustive:
    every member of every pending positive group with more than one member
    is queued as a group of its own, group after group, members in
    increasing order. *)
Theorem split_positive_exhaustive (st : State) :
  Forall (fun g => length g = num_patients st) (past_groups st) ->
  Forall (fun i => i < length (past_groups st)) (to_clear_positives st) ->
  let to_split :=
    filter (fun g => 1 <? count_true g)
           (map (fun i => nth i (past_groups st) []) (to_clear_positives st)) in
  to_split <> [] ->
  let rows :=
    flat_map (fun g => map (fun i => put (num_patients st) [i])
                           (where_ (fun b : bool => b) g)) to_split in
  SplitPositive_call None st = Ok [AddGroupsToTest rows true; UpdateToClearPositives] /\
  Forall (fun g => count_true g = 1) rows /\
  length rows = list_sum (map count_true to_split).
Proof.
  intros Hrect Hidx to_split Hne rows. unfold SplitPositive_call.
  destruct (split_positive_get_groups_cases None st Hrect Hidx) as [[E _]|[_ ->]];
    [contradiction|].
  fold to_split.
  assert (Hlen : Forall (fun g => length g = num_patients st) to_split).
  { apply Forall_forall. intros g Hg. apply filter_In in Hg. destruct Hg as [Hg _].
    apply in_map_iff in Hg. destruct Hg as [i [<- Hi]].
    rewrite Forall_forall in Hrect, Hidx. apply Hrect, nth_In. now apply Hidx. }
  assert (Hloop : forall groups newg acc,
            Forall (fun g => 1 < count_true g) groups ->
            split_groups_loop None (num_patients st) groups newg acc
            = Ok (acc ++ flat_map (fun g => map (fun i => put (num_patients st) [i])
                                               (where_ (fun b : bool => b) g)) groups)).
  { induction groups as [|g groups IH]; intros newg acc Hg.
    - simpl. now rewrite app_nil_r.
    - inversion Hg as [|? ? H1 Hrest]; subst. cbn [split_groups_loop].
      destruct (Nat.ltb_spec 1 (count_true g)) as [_|]; [|lia].
      rewrite array_split_singletons.
      + cbn [bind]. rewrite IH by exact Hrest. cbn [flat_map].
        now rewrite map_map, app_assoc.
      + intros Hnil. apply (f_equal (@length _)) in Hnil.
        unfold where_ in Hnil. rewrite SplitFacts.where_from_length in Hnil.
        simpl in Hnil. lia. }
  rewrite Hloop by apply filter_members. cbn [bind app].
  split; [reflexivity|]. split.
  - apply Forall_forall. intros r Hr. unfold rows in Hr. apply in_flat_map in Hr.
    destruct Hr as [g [Hg Hr]]. apply in_map_iff in Hr. destruct Hr as [i [<- Hi]].
    rewrite count_true_put; [reflexivity|repeat constructor; intros []|].
    constructor; [|constructor].
    unfold where_ in Hi. apply SplitFacts.where_from_bound in Hi.
    rewrite Forall_forall in Hlen. rewrite <- (Hlen g Hg). lia.
  - unfold rows. clear. induction to_split as [|g gs IH]; [reflexivity|].
    cbn [flat_map map list_sum]. rewrite length_app, IH, length_map.
    unfold where_. now rewrite SplitFacts.where_from_length.
Qed.

Lemma split_positive_exhaustive_witness :
  SplitPositive_call None (two_patients [[true; true]] [0])
  = Ok [AddGroupsToTest [[true; false]; [false; true]] true; UpdateToClearPositives] /\
  Forall (fun g => count_true g = 1) [[true; false]; [false; true]] /\
  length [[true; false]; [false; true]] = list_sum (map count_true [[true; true]]).
Proof.
  apply (split_positive_exhaustive (two_patients [[true; true]] [0])).
  - repeat constructor.
  - repeat constructor.
  - discriminate.
Defined.

End SplitPositiveProps.

(** ** [TwoDDorfmanPostSelector] *)

Module TwoDProps.
Import Np Split GroupFacts.
Import Spec Fixtures.

Lemma nth_sum_axis0 (n p : nat) (rows : list group) :
  p < n -> nth p (sum_axis0 n rows) 0 = count_true (map (fun g => nth p g false) rows).
Proof.
  intros Hp. unfold sum_axis0.
  rewrite (InfDorfmanFacts.nth_map_in _ _ p 0 0) by (now rewrite length_seq).
  now rewrite seq_nth.
Qed.

Lemma one_hot_put (n i : nat) : one_hot n i = put n [i].
Proof.
  unfold one_hot, put. apply map_ext. intros j. simpl.
  rewrite orb_false_r. apply Nat.eqb_sym.
Qed.

(** X9.  The second stage of the two-dimensional design.  With the 20 pools
    of the first wave tested, the selector queues individual tests, one
    group of a single patient each, in increasing order of patient and
    without asking for their results to be cleared: for the patients in at
    least two positive pools when rows and columns agree (both have a
    positive pool, or neither has), and for every patient in a positive pool
    when only the rows or only the columns have one. *)
Theorem two_d_reflex_tests (st : State) :
  length (past_groups st) = 20 ->
  history_shape st ->
  let hits p :=
    count_true (map (fun g => nth p g false)
                    (compress (past_test_results st) (past_groups st))) in
  let rows_hit := 0 <? count_true (firstn 8 (past_test_results st)) in
  let cols_hit := 0 <? count_true (firstn 12 (skipn 8 (past_test_results st))) in
  exists ids,
    TwoDDorfmanPostSelector_call st
    = [AddGroupsToTest (map (one_hot (num_patients st)) ids) false] /\
    StronglySorted lt ids /\
    (forall p, In p ids <->
               p < num_patients st /\
               if xorb rows_hit cols_hit then 1 <= hits p else 2 <= hits p) /\
    (forall i, In i ids ->
               where_ (fun b : bool => b) (one_hot (num_patients st) i) = [i]).
Proof.
  intros Hg _ hits rows_hit cols_hit. unfold TwoDDorfmanPostSelector_call.
  rewrite Hg. change (20 =? 8 + 12) with true. cbv iota zeta.
  fold rows_hit cols_hit.
  set (returned_positive :=
         sum_axis0 (num_patients st) (compress (past_test_results st) (past_groups st))).
  assert (Hlen : length returned_positive = num_patients st).
  { unfold returned_positive, sum_axis0. now rewrite length_map, length_seq. }
  assert (Hmem : forall (q : nat -> bool) p,
            In p (where_ q returned_positive) <->
            p < num_patients st /\ q (hits p) = true).
  { intros q p. unfold where_. rewrite (InfDorfmanFacts.where_from_iff q 0).
    rewrite Hlen, Nat.sub_0_r. split; intros [Hp E]; (split; [lia|]).
    - unfold returned_positive in E. now rewrite nth_sum_axis0 in E by lia.
    - unfold returned_positive. now rewrite nth_sum_axis0 by lia. }
  eexists. split; [reflexivity|]. split; [|split].
  - destruct (xorb rows_hit cols_hit); apply where_from_increasing.
  - intros p. destruct (xorb rows_hit cols_hit); rewrite Hmem.
    + split; intros [Hp E]; (split; [exact Hp|]).
      * destruct (Nat.eqb_spec (hits p) 0); [discriminate|lia].
      * destruct (Nat.eqb_spec (hits p) 0); [lia|reflexivity].
    + split; intros [Hp E]; (split; [exact Hp|]).
      * now apply Nat.ltb_lt in E.
      * now apply Nat.ltb_lt.
  - intros i Hi. rewrite one_hot_put. apply where_put; [repeat constructor|].
    constructor; [|constructor].
    destruct (xorb rows_hit cols_hit); apply Hmem in Hi; tauto.
Qed.

(** One infected patient at the crossing of the first row and the first
    column: that patient alone is tested again. *)
Example two_d_corner_positive :
  TwoDDorfmanPostSelector_call assay_corner_positive
  = [AddGroupsToTest [one_hot 96 0] false].
Proof. vm_compute. reflexivity. Qed.

Lemma two_d_reflex_tests_witness :
  exists ids,
    TwoDDorfmanPostSelector_call assay_corner_positive
    = [AddGroupsToTest (map (one_hot (num_patients assay_corner_positive)) ids) false] /\
    StronglySorted lt ids /\
    (forall p, In p ids <->
               p < num_patients assay_corner_positive /\
               if xorb (0 <? count_true (firstn 8 (past_test_results assay_corner_positive)))
                       (0 <? count_true
                               (firstn 12 (skipn 8 (past_test_results assay_corner_positive))))
               then 1 <= count_true (map (fun g => nth p g false)
                                         (compress (past_test_results assay_corner_positive)
                                                   (past_groups assay_corner_positive)))
               else 2 <= count_true (map (fun g => nth p g false)
                                         (compress (past_test_results assay_corner_positive)
                                                   (past_groups assay_corner_positive)))) /\
    (forall i, In i ids ->
               where_ (fun b : bool => b) (one_hot (num_patients assay_corner_positive) i)
               = [i]).
Proof.
  apply (two_d_reflex_tests assay_corner_positive); [reflexivity|].
  split; [reflexivity|].
  apply Forall_forall. intros g Hg. apply Nat.eqb_eq. revert g Hg.
  apply forallb_forall. vm_compute. reflexivity.
Defined.

End TwoDProps.

(** ** [DorfmanDecoder] *)

Module DecoderProps.
Import Np Decoder.
Import Spec Fixtures.

Lemma produce_sample_entry (st : State) (j : nat) :
  j < num_patients st ->
  nth j (nth 0 (sampler_particles (produce_sample st)) []) 0%Z
  = Z.of_nat (positive_singletons j (past_groups st) (past_test_results st)).
Proof.
  intros Hj. unfold produce_sample. cbn [sampler_particles nth].
  destruct (Nat.ltb_spec 0 (count_true (ind_tests (past_groups st) (past_test_results st))))
    as [H|H].
  - unfold sum_axis0. rewrite DecoderFacts.nth_add_vec_zeros by exact Hj.
    now rewrite DecoderFacts.column_of_compress.
  - rewrite nth_repeat.
    rewrite <- DecoderFacts.column_of_compress, DecoderFacts.count_true_zero_compress by lia.
    reflexivity.
Qed.

Lemma positive_singletons_app (j : nat) (groups : list group) (tests : list bool)
  (g : group) (t : bool) :
  length tests = length groups ->
  positive_singletons j (groups ++ [g]) (tests ++ [t])
  = positive_singletons j groups tests
    + (if (count_true g =? 1) && t && nth j g false then 1 else 0).
Proof.
  revert tests. induction groups as [|g0 groups IH]; intros [|t0 tests] H;
    try discriminate H; simpl.
  - lia.
  - injection H as H. rewrite (IH tests H). lia.
Qed.

(** X10.  Recording one more test changes the decoded particle only when the
    test is a positive test of a single patient, and then raises the entry
    of that patient by one: pooled tests and negative tests are ignored, and
    no entry ever goes down. *)
Theorem decoder_one_more_test (st : State) (g : group) (t : bool) (j : nat) :
  history_shape st ->
  length g = num_patients st ->
  j < num_patients st ->
  let st' :=
    mkState (num_patients st) (max_group_size st) (extra_tests_needed st)
            (prior_infection_rate st) (prior_sensitivity st) (prior_specificity st)
            (particle_weights st) (particles st)
            (past_groups st ++ [g]) (past_test_results st ++ [t])
            (to_clear_positives st) in
  nth j (nth 0 (sampler_particles (produce_sample st')) []) 0%Z
  = (nth j (nth 0 (sampler_particles (produce_sample st)) []) 0%Z
     + if ((count_true g =? 1)%nat && t && nth j g false)%bool then 1 else 0)%Z.
Proof.
  intros [Hlen _] _ Hj st'.
  rewrite (produce_sample_entry st' j Hj), (produce_sample_entry st j Hj).
  cbn [past_groups past_test_results st'].
  rewrite positive_singletons_app by exact Hlen.
  destruct (_ && _); lia.
Qed.

Lemma decoder_one_more_test_witness :
  nth 0 (nth 0 (sampler_particles
                  (produce_sample
                     (mkState 2 2 0 [(1/10)%R] [1%R] [1%R] [] []
                              ([[true; false]; [true; false]] ++ [[true; false]])
                              ([true; true] ++ [false]) []))) []) 0%Z
  = (nth 0 (nth 0 (sampler_particles (produce_sample retested_twice)) []) 0%Z
     + if ((count_true [true; false] =? 1)%nat && false && nth 0 [true; false] false)%bool
       then 1 else 0)%Z.
Proof.
  apply (decoder_one_more_test retested_twice [true; false] false 0).
  - split; [reflexivity|repeat constructor].
  - reflexivity.
  - simpl. lia.
Defined.

End DecoderProps.

(** ** [InformativeDorfman] *)

Module InfDorfmanProps.
Import Np RNp InfDorfman GroupFacts InfDorfmanFacts.
Import Spec Fixtures.
Local Open Scope R_scope.

Lemma greedy_sizes (st : State) (rest : list R) (sizes : list nat) :
  greedy st rest sizes ->
  list_sum sizes = length rest /\
  Forall (fun s => (1 <= s)%nat /\ (Z.of_nat s <= max_group_size st)%Z) sizes.
Proof.
  induction 1 as [|rest s sizes Hne [[H1 H2] _] _ [IHsum IHall]].
  - split; [reflexivity|constructor].
  - rewrite length_skipn in IHsum. split.
    + simpl. lia.
    + constructor; [lia|exact IHall].
Qed.

Lemma NoDup_concat_inv {A : Type} (cs : list (list A)) (c : list A) :
  NoDup (concat cs) -> In c cs -> NoDup c.
Proof.
  induction cs as [|c0 cs IH]; simpl; intros Hnd Hin; [destruct Hin|].
  destruct Hin as [->|Hin].
  - eapply NoDup_app_remove_r. exact Hnd.
  - apply IH; [|exact Hin]. eapply NoDup_app_remove_l. exact Hnd.
Qed.

Lemma list_sum_lower (l : list nat) :
  Forall (fun s => (1 <= s)%nat) l -> (length l <= list_sum l)%nat.
Proof. induction 1; simpl; lia. Qed.

(** X11.  Every group that [InformativeDorfman] forms has at least one
    member and at most [max_group_size]; the groups hold the eligible
    patients, so there are at most as many groups as eligible patients. *)
Theorem informative_dorfman_group_sizes (self : InformativeDorfman) (st : State) :
  belief_shape st ->
  num_patients st <> 1%nat ->
  (1 <= max_group_size st)%Z ->
  where_ (eligible self) (marginal_of st) <> [] ->
  exists groups,
    form_groups self st = Some (Ok (Some groups)) /\
    Forall (fun g => length g = num_patients st /\
                     (1 <= count_true g)%nat /\
                     (Z.of_nat (count_true g) <= max_group_size st)%Z) groups /\
    (1 <= length groups <= length (where_ (eligible self) (marginal_of st)))%nat /\
    list_sum (map count_true groups) = length (where_ (eligible self) (marginal_of st)).
Proof.
  intros _ Hn Hm Hne.
  destruct (informative_dorfman_groups self st Hn Hm Hne)
    as (order & sizes & Hperm & _ & Hgreedy & Hform & _).
  destruct (greedy_sizes _ _ _ Hgreedy) as [Hsum Hall].
  unfold gather in Hsum. rewrite length_map in Hsum.
  pose proof (SplitFacts.chunks_lengths sizes order ltac:(lia)) as HL.
  assert (Hcat : concat (chunks order sizes) = order) by (now apply concat_chunks).
  assert (Hnd : NoDup order).
  { eapply Permutation_NoDup; [symmetry; exact Hperm|apply where_from_NoDup]. }
  assert (Hcount : forall c, In c (chunks order sizes) ->
            count_true (put (num_patients st) c) = length c).
  { intros c Hc. apply count_true_put.
    - apply (NoDup_concat_inv (chunks order sizes)); [now rewrite Hcat|exact Hc].
    - apply Forall_forall. intros i Hi.
      assert (Hin : In i order) by (rewrite <- Hcat; apply in_concat; eauto).
      apply (Permutation_in _ Hperm) in Hin. unfold where_ in Hin.
      apply SplitFacts.where_from_bound in Hin. rewrite marginal_of_length in Hin. lia. }
  exists (map (put (num_patients st)) (chunks order sizes)).
  split; [exact Hform|]. split; [|split].
  - apply Forall_forall. intros g Hg. apply in_map_iff in Hg. destruct Hg as [c [<- Hc]].
    rewrite (Hcount c Hc). split; [apply length_put|].
    assert (Hs : In (length c) sizes) by (rewrite <- HL; now apply in_map).
    rewrite Forall_forall in Hall. now apply Hall.
  - rewrite length_map, <- (length_map (@length nat)), HL.
    rewrite <- (Permutation_length Hperm), <- Hsum.
    split.
    + inversion Hgreedy as [E|rest s sizes' Hr _ _ E1 E2]; subst; [|simpl; lia].
      destruct order; [|discriminate].
      apply Permutation_nil in Hperm. contradiction.
    + apply list_sum_lower. eapply Forall_impl; [|exact Hall]. now intros a [Ha _].
  - rewrite map_map, (map_ext_in _ (@length nat) _ Hcount), HL, Hsum.
    now apply Permutation_length.
Qed.

Lemma informative_dorfman_group_sizes_witness :
  exists groups,
    form_groups default_selector two_open_patients = Some (Ok (Some groups)) /\
    Forall (fun g => length g = num_patients two_open_patients /\
                     (1 <= count_true g)%nat /\
                     (Z.of_nat (count_true g) <= max_group_size two_open_patients)%Z) groups /\
    (1 <= length groups
     <= length (where_ (eligible default_selector) (marginal_of two_open_patients)))%nat /\
    list_sum (map count_true groups)
    = length (where_ (eligible default_selector) (marginal_of two_open_patients)).
Proof.
  apply (informative_dorfman_group_sizes default_selector two_open_patients).
  - split; [reflexivity|repeat constructor].
  - simpl. lia.
  - simpl. lia.
  - unfold where_, marginal_of, eligible, default_selector, Rltb, dot, rsum, b2r. simpl.
    destruct (Rlt_dec _ _) as [_|H]; [|exfalso; apply H; lra].
    destruct (Rlt_dec _ _) as [_|H]; [|exfalso; apply H; lra].
    discriminate.
Defined.

(** X13.  With [max_group_size = 0] and a patient between the cut-offs, the
    cost array is empty and the assignment to its first entry raises. *)
Theorem informative_dorfman_no_room (self : InformativeDorfman)
  (permutation : list group -> list group) (st : State) :
  belief_shape st ->
  max_group_size st = 0%Z ->
  where_ (eligible self) (marginal_of st) <> [] ->
  InformativeDorfman_call self permutation st = Some (Raise IndexError).
Proof.
  intros _ Hm Hne. unfold InformativeDorfman_call, form_groups.
  destruct (squeeze (marginal_of st)) as [x|xs] eqn:Esq; [reflexivity|].
  assert (Exs : xs = marginal_of st).
  { unfold squeeze in Esq. destruct (marginal_of st) as [|a [|b l]]; congruence. }
  subst xs. cbn [entries take].
  set (ids := where_ (eligible self) (marginal_of st)) in *.
  set (m := gather 0 (marginal_of st) ids).
  assert (Hlen : length m <> 0%nat).
  { unfold m, gather. rewrite length_map. destruct ids; [contradiction|discriminate]. }
  assert (Hs : length (gather 0 m (argsort m)) = length m).
  { unfold gather at 1. now rewrite length_map, RNpFacts.argsort_length. }
  destruct (length m) as [|k] eqn:Ek; [contradiction|].
  cbn [Nat.eqb carve]. rewrite Hs. cbn [Nat.ltb Nat.leb]. rewrite Hm.
  replace (Z.to_nat (Z.min (Z.of_nat (S k)) 0)) with 0%nat by lia.
  reflexivity.
Qed.

Lemma informative_dorfman_no_room_witness :
  InformativeDorfman_call default_selector (fun groups => groups)
    two_patients_no_room
  = Some (Raise IndexError).
Proof.
  apply (informative_dorfman_no_room default_selector (fun groups => groups)
           two_patients_no_room).
  - split; [reflexivity|repeat constructor].
  - reflexivity.
  - unfold where_, marginal_of, eligible, default_selector, Rltb, dot, rsum, b2r. simpl.
    destruct (Rlt_dec _ _) as [_|H]; [|exfalso; apply H; lra].
    destruct (Rlt_dec _ _) as [_|H]; [|exfalso; apply H; lra].
    discriminate.
Defined.

Lemma count_true_perm (u v : list bool) : Permutation u v -> count_true u = count_true v.
Proof. induction 1; simpl; lia. Qed.

Lemma count_true_firstn (k : nat) (l : list bool) :
  (count_true (firstn k l) <= count_true l)%nat.
Proof.
  revert k. induction l as [|b l IH]; intros [|k]; simpl; try lia.
  specialize (IH k). lia.
Qed.

(** X12.  What [InformativeDorfman.__call__] passes to the state when
    somebody is eligible: one batch, with the request to clear its results.
    A patient is in at most one group of the batch, and a patient outside
    the cut-offs in none.  In regular mode every eligible patient is in
    exactly one group, whatever the permutation drawn; in modified mode the
    batch stops at [extra_tests_needed] groups. *)
Theorem informative_dorfman_queue (self : InformativeDorfman)
  (permutation : list group -> list group) (st : State) :
  (forall l, Permutation (permutation l) l) ->
  belief_shape st ->
  num_patients st <> 1%nat ->
  (1 <= max_group_size st)%Z ->
  where_ (eligible self) (marginal_of st) <> [] ->
  exists queued,
    InformativeDorfman_call self permutation st = Some (Ok [AddGroupsToTest queued true]) /\
    (forall p, (p < num_patients st)%nat ->
       (count_true (map (fun g => nth p g false) queued)
        <= if eligible self (nth p (marginal_of st) 0%R) then 1 else 0)%nat) /\
    (modified self = false ->
     forall p, (p < num_patients st)%nat ->
       count_true (map (fun g => nth p g false) queued)
       = if eligible self (nth p (marginal_of st) 0%R) then 1%nat else 0%nat) /\
    (modified self = true -> (0 <= extra_tests_needed st)%Z ->
     (Z.of_nat (length queued) <= extra_tests_needed st)%Z).
Proof.
  intros Hperm _ Hn Hm Hne.
  destruct (informative_dorfman_groups self st Hn Hm Hne)
    as (order & sizes & _ & _ & _ & Hform & Hcols).
  set (groups := map (put (num_patients st)) (chunks order sizes)) in *.
  assert (Hp : forall p, (p < num_patients st)%nat ->
            count_true (map (fun g => nth p g false) (permutation groups))
            = if eligible self (nth p (marginal_of st) 0%R) then 1%nat else 0%nat).
  { intros p Hlt. rewrite <- (Hcols p Hlt). apply count_true_perm.
    apply Permutation_map, Hperm. }
  unfold InformativeDorfman_call. rewrite Hform.
  destruct (modified self) eqn:Emod.
  - eexists. split; [reflexivity|]. split; [|split].
    + intros p Hlt. rewrite <- (Hp p Hlt). unfold slice_to.
      destruct (0 <=? extra_tests_needed st)%Z; rewrite <- firstn_map; apply count_true_firstn.
    + discriminate.
    + intros _ He. unfold slice_to.
      destruct (Z.leb_spec 0 (extra_tests_needed st)) as [_|]; [|lia].
      rewrite length_firstn. lia.
  - eexists. split; [reflexivity|]. split; [|split].
    + intros p Hlt. rewrite (Hp p Hlt). lia.
    + intros _. exact Hp.
    + discriminate.
Qed.

Lemma informative_dorfman_queue_witness :
  exists queued,
    InformativeDorfman_call modified_selector (fun groups => groups)
                            two_open_patients
    = Some (Ok [AddGroupsToTest queued true]) /\
    (forall p, (p < num_patients two_open_patients)%nat ->
       (count_true (map (fun g => nth p g false) queued)
        <= if eligible modified_selector
                       (nth p (marginal_of two_open_patients) 0%R) then 1 else 0)%nat) /\
    (modified modified_selector = false ->
     forall p, (p < num_patients two_open_patients)%nat ->
       count_true (map (fun g => nth p g false) queued)
       = if eligible modified_selector
                     (nth p (marginal_of two_open_patients) 0%R) then 1%nat else 0%nat) /\
    (modified modified_selector = true ->
     (0 <= extra_tests_needed two_open_patients)%Z ->
     (Z.of_nat (length queued) <= extra_tests_needed two_open_patients)%Z).
Proof.
  apply (informative_dorfman_queue modified_selector (fun groups => groups)
           two_open_patients).
  - intros l. apply Permutation_refl.
  - split; [reflexivity|repeat constructor].
  - simpl. lia.
  - simpl. lia.
  - unfold where_, marginal_of, eligible, Rltb, dot, rsum, b2r. simpl.
    destruct (Rlt_dec _ _) as [_|H]; [|exfalso; apply H; lra].
    destruct (Rlt_dec _ _) as [_|H]; [|exfalso; apply H; lra].
    discriminate.
Defined.

End InfDorfmanProps.

(** ** [joint_mi_criterion_mg] and its helpers *)

Module CriterionProps.
Import Np RNp MutualInformation EntropyFacts TableFacts CriterionFacts GroupFacts.
Import Spec Fixtures.
Local Open Scope R_scope.

Lemma map_combine_self {A B C : Type} (f : A -> B) (h : B * A -> C) (l : list A) :
  map h (combine (map f l) l) = map (fun x => h (f x, x)) l.
Proof. induction l as [|x l IH]; simpl; [reflexivity|now rewrite IH]. Qed.

Lemma tests_positive_add (g : group) (particle : list bool) (j : nat) :
  length particle = length g -> (j < length g)%nat ->
  tests_positive (index_update g j true) particle
  = tests_positive g particle || nth j particle false.
Proof.
  unfold tests_positive. revert particle j.
  induction g as [|b g IH]; intros [|x particle] j Hlen Hj; simpl in *; try lia.
  destruct j as [|j]; simpl.
  - destruct b, x; simpl; try reflexivity; now rewrite ?orb_true_r, ?orb_false_r.
  - rewrite IH by lia. destruct (b && x); reflexivity.
Qed.

Lemma tests_positive_nobody (n : nat) (particle : list bool) :
  tests_positive (repeat false n) particle = false.
Proof.
  unfold tests_positive. revert particle.
  induction n as [|n IH]; intros [|x particle]; simpl; try reflexivity. apply IH.
Qed.

(** What one call of [joint_mi_criterion_mg] does to the group and to the
    vector of positives. *)
Lemma criterion_anatomy (w : list R) (parts : list (list bool))
  (g : group) (pos : list bool) (tab : table) (cum : R)
  (sensitivity specificity : list R) (backtracking : bool) :
  match joint_mi_criterion_mg w parts g pos tab cum sensitivity specificity backtracking with
  | Raise e => e = ValueError /\ no_candidate backtracking g
  | Ok p =>
      exists j, (j < length g)%nat /\ nth j g false = backtracking /\
        new_group p = index_update g j (negb backtracking) /\
        new_positives p
        = if backtracking then map (tests_positive (new_group p)) parts
          else map (fun pp => fst pp || nth j (snd pp) false) (combine pos parts)
  end.
Proof.
  unfold joint_mi_criterion_mg.
  set (size := if backtracking then (count_true g - 1)%nat else (count_true g + 1)%nat).
  set (se := select_from_sizes sensitivity size).
  set (sp := select_from_sizes specificity size).
  set (idxs := where_ negb g).
  set (cands := map (map negb) (add_ones_to_line (map negb g))).
  set (P := if backtracking
            then map (fun cand =>
                        map (fun particle =>
                               existsb (fun cp => fst cp && snd cp) (combine cand particle))
                            parts) cands
            else map (fun j => map (fun pp => fst pp || nth j (snd pp) false)
                                   (combine pos parts)) idxs).
  set (C := fun pos0 : list bool =>
              cum + binary_entropy sp
              + (binary_entropy se - binary_entropy sp) * dot w (map b2r pos0)).
  set (W := fun pos0 : list bool =>
              compute_whole_entropy_groups pos0 sp (sp + se - 1) w tab).
  rewrite (map_combine_maps W C (fun wc => fst wc - snd wc) P). cbn [fst snd].
  assert (NP : length P = if backtracking then count_true g
                          else (length g - count_true g)%nat).
  { unfold P. destruct backtracking.
    - unfold cands, add_ones_to_line, where_. rewrite !length_map.
      apply where_negb_map_length.
    - unfold idxs, where_. rewrite length_map.
      pose proof (where_negb_length g 0). lia. }
  assert (CT : (count_true g <= length g)%nat) by (pose proof (where_negb_length g 0); lia).
  destruct (argmax_cases (map (fun x => W x - C x) P)) as [[E ->]|(index & -> & Hidx)].
  - split; [reflexivity|].
    apply (f_equal (@length R)) in E. rewrite length_map, NP in E. simpl in E.
    unfold no_candidate. destruct backtracking; lia.
  - rewrite length_map in Hidx. cbn [bind new_group new_positives].
    unfold P in *. destruct backtracking.
    + rewrite length_map in Hidx.
      unfold cands, add_ones_to_line in *. rewrite !length_map in Hidx.
      set (j := nth index (where_ negb (map negb g)) 0%nat).
      assert (Hj : In j (where_ negb (map negb g))) by (apply nth_In; exact Hidx).
      apply (InfDorfmanFacts.where_from_iff negb true) in Hj.
      rewrite Nat.sub_0_r, length_map in Hj. destruct Hj as [Hjb Hjv].
      rewrite (InfDorfmanFacts.nth_map_in negb g j false true) in Hjv by lia.
      apply negb_true_iff, negb_false_iff in Hjv.
      assert (Ecand : nth index
                        (map (map negb)
                           (map (fun i => index_update (map negb g) i true)
                                (where_ negb (map negb g)))) []
                      = index_update g j false).
      { rewrite map_map.
        rewrite (InfDorfmanFacts.nth_map_in _ _ index 0%nat) by exact Hidx.
        apply index_update_negb. }
      exists j. split; [lia|]. split; [exact Hjv|]. split; [exact Ecand|].
      rewrite (InfDorfmanFacts.nth_map_in _ _ index [])
        by (now rewrite !length_map).
      rewrite Ecand. reflexivity.
    + rewrite length_map in Hidx.
      set (j := nth index idxs 0%nat).
      assert (Hj : In j idxs) by (apply nth_In; exact Hidx).
      apply (InfDorfmanFacts.where_from_iff negb false) in Hj.
      rewrite Nat.sub_0_r in Hj. destruct Hj as [Hjb Hjv].
      apply negb_true_iff in Hjv.
      exists j. split; [lia|]. split; [exact Hjv|]. split; [reflexivity|].
      now rewrite (InfDorfmanFacts.nth_map_in _ _ index 0%nat) by exact Hidx.
Qed.

(** X14.  One call of [joint_mi_criterion_mg] changes the membership of
    exactly one patient: it adds a patient who was not in the group or, when
    backtracking, removes one who was.  It raises [ValueError] exactly when
    there is no such patient (the group is full, or empty when
    backtracking), whatever the probabilities. *)
Theorem criterion_moves_one_patient (w : list R) (parts : list (list bool))
  (g : group) (pos : list bool) (tab : table) (cum : R)
  (sensitivity specificity : list R) (backtracking : bool) :
  criterion_shapes w parts g pos tab ->
  match joint_mi_criterion_mg w parts g pos tab cum sensitivity specificity backtracking with
  | Raise e => e = ValueError /\ no_candidate backtracking g
  | Ok p =>
      ~ no_candidate backtracking g /\
      exists j, (j < length g)%nat /\ nth j g false = backtracking /\
        new_group p = index_update g j (negb backtracking) /\
        (forall i, i <> j -> nth i (new_group p) false = nth i g false)
  end.
Proof.
  intros _.
  pose proof (criterion_anatomy w parts g pos tab cum sensitivity specificity backtracking) as H.
  destruct (joint_mi_criterion_mg _ _ _ _ _ _ _ _ _) as [p|e]; [|exact H].
  destruct H as (j & Hj & Hv & Hg & _). split.
  - unfold no_candidate. destruct backtracking.
    + intros H0. assert (Hc : forall l, count_true l = 0%nat -> forall i, nth i l false = false).
      { induction l as [|b l IH]; intros Hl [|i]; simpl in *; try reflexivity.
        - destruct b; [discriminate|reflexivity].
        - apply IH. destruct b; [discriminate|exact Hl]. }
      rewrite (Hc g H0 j) in Hv. discriminate.
    + intros H0. pose proof (where_negb_length g 0) as Hw.
      assert (Hin : In j (where_from negb 0 g)).
      { apply (InfDorfmanFacts.where_from_iff negb false). rewrite Nat.sub_0_r.
        split; [lia|]. now rewrite Hv. }
      destruct (where_from negb 0 g); [destruct Hin|simpl in Hw; lia].
  - exists j. split; [exact Hj|]. split; [exact Hv|]. split; [exact Hg|].
    intros i Hi. rewrite Hg. clear - Hi. revert i j Hi.
    induction g as [|b g IH]; intros i j Hi; destruct j as [|j]; simpl;
      destruct i as [|i]; try reflexivity; try lia.
    apply IH. lia.
Qed.

Lemma criterion_keeps_positives (w : list R) (parts : list (list bool))
  (g : group) (pos : list bool) (tab : table) (cum : R)
  (sensitivity specificity : list R) (backtracking : bool) (p : Proposal) :
  Forall (fun particle => length particle = length g) parts ->
  pos = map (tests_positive g) parts ->
  joint_mi_criterion_mg w parts g pos tab cum sensitivity specificity backtracking = Ok p ->
  length (new_group p) = length g /\
  new_positives p = map (tests_positive (new_group p)) parts.
Proof.
  intros Hparts Hpos E.
  pose proof (criterion_anatomy w parts g pos tab cum sensitivity specificity backtracking) as H.
  rewrite E in H. destruct H as (j & Hj & _ & Hg & Hp).
  split; [rewrite Hg; apply index_update_length|].
  rewrite Hp. destruct backtracking; [reflexivity|].
  rewrite Hpos, map_combine_self. cbn [fst snd]. rewrite Hg.
  apply map_ext_in. intros particle Hin.
  rewrite Forall_forall in Hparts.
  now rewrite tests_positive_add by (rewrite ?(Hparts _ Hin); auto).
Qed.

Lemma run_steps_keeps_positives (steps : nat) (backtrack : bool) (st : State)
  (w : list R) (parts : list (list bool)) (b : Batch) :
  forall g pos ev g' pos' ev',
  Forall (fun particle => length particle = length g) parts ->
  pos = map (tests_positive g) parts ->
  run_steps steps backtrack st w parts b g pos ev = Ok (g', pos', ev') ->
  length g' = length g /\ pos' = map (tests_positive g') parts.
Proof.
  induction steps as [|steps IH]; intros g pos ev g' pos' ev' Hparts Hpos; simpl.
  - intros [= <- <- _]. split; [reflexivity|exact Hpos].
  - destruct (joint_mi_criterion_mg _ _ _ _ _ _ _ _ _) as [p|e] eqn:E; [|discriminate].
    cbn [bind]. intros Hrun.
    destruct (criterion_keeps_positives _ _ _ _ _ _ _ _ _ p Hparts Hpos E) as [Hlen Hp].
    assert (Hparts' : Forall (fun particle => length particle = length (new_group p)) parts)
      by (now rewrite Hlen).
    destruct (IH _ _ _ _ _ _ Hparts' Hp Hrun) as [Hlen' Hp'].
    split; [congruence|exact Hp'].
Qed.

(** X16.  [get_groups] carries, beside the proposed group, the vector that
    says for each particle whether the group holds an infected patient; the
    forward steps update it incrementally and the backward steps recompute
    it.  One pass of additions and removals keeps the two in step, and the
    empty group every search starts from has nobody positive. *)
Theorem pass_keeps_positives_in_step (self : MaxMutualInformation) (st : State)
  (w : list R) (parts : list (list bool)) (b : Batch)
  (g : group) (pos : list bool) (ev : option Evaluated)
  (g' : group) (pos' : list bool) (ev' : option Evaluated) :
  criterion_shapes w parts g pos (previous_groups_prob_partstates b) ->
  pos = map (tests_positive g) parts ->
  run_pass self st w parts b g pos ev = Ok (g', pos', ev') ->
  length g' = length g /\
  pos' = map (tests_positive g') parts /\
  map (tests_positive (repeat false (length g))) parts = repeat false (length parts).
Proof.
  intros (_ & _ & _ & Hparts & _) Hpos. unfold run_pass.
  destruct (run_steps (forward_iterations self) _ _ _ _ _ _ _ _) as [[[g1 pos1] ev1]|e] eqn:E1;
    [|discriminate].
  cbn [bind fst snd]. intros E2.
  destruct (run_steps_keeps_positives _ _ _ _ _ _ _ _ _ _ _ _ Hparts Hpos E1) as [L1 P1].
  assert (Hparts1 : Forall (fun particle => length particle = length g1) parts)
    by (now rewrite L1).
  destruct (run_steps_keeps_positives _ _ _ _ _ _ _ _ _ _ _ _ Hparts1 P1 E2) as [L2 P2].
  split; [congruence|]. split; [exact P2|].
  clear. induction parts as [|x parts IH]; simpl; [reflexivity|].
  now rewrite tests_positive_nobody, IH.
Qed.

(** X17.  The criterion that [joint_mi_criterion_mg] returns is a mutual
    information and therefore not negative, for weights that form a
    distribution, a table of outcome distributions and test parameters in
    [0, 1]: the first pass of every search beats the initial [obj_old = -1]. *)
Theorem criterion_nonnegative (w : list R) (parts : list (list bool))
  (g : group) (pos : list bool) (c : nat) (tab : table) (cum : R)
  (sensitivity specificity : list R) (backtracking : bool) (p : Proposal) :
  weights_ok w -> length parts = length w -> length pos = length w ->
  Forall (fun particle => length particle = length g) parts ->
  table_ok w c tab cum ->
  Forall probability sensitivity -> Forall probability specificity ->
  joint_mi_criterion_mg w parts g pos tab cum sensitivity specificity backtracking = Ok p ->
  0 <= new_objective p /\ -1 + 1 / 1000000 < new_objective p.
Proof.
  intros Hw Hparts Hpos _ Htab Hse Hsp E.
  destruct (joint_mi_criterion_mg_cases w parts g pos c tab cum sensitivity specificity
              backtracking Hw Hparts Hpos Htab Hse Hsp) as [[_ E']|[_ (p' & E' & _ & _ & F)]];
    rewrite E in E'; [discriminate|].
  injection E' as <-. destruct F as [F _]. split; lra.
Qed.

Lemma first_addition_returns :
  exists p,
    joint_mi_criterion_mg [1 / 2; 1 / 2] [[true]; [false]] [false] [false; false]
                          [[1]; [1]] 0 [1] [1] false = Ok p.
Proof.
  pose proof (criterion_anatomy [1 / 2; 1 / 2] [[true]; [false]] [false] [false; false]
                [[1]; [1]] 0 [1] [1] false) as H.
  destruct (joint_mi_criterion_mg _ _ _ _ _ _ _ _ _) as [p|e]; [now exists p|].
  destruct H as [_ H]. simpl in H. discriminate.
Defined.

Lemma criterion_moves_one_patient_witness :
  match joint_mi_criterion_mg [1 / 2; 1 / 2] [[true]; [false]] [false] [false; false]
                              [[1]; [1]] 0 [1] [1] false with
  | Raise e => e = ValueError /\ no_candidate false [false]
  | Ok p =>
      ~ no_candidate false [false] /\
      exists j, (j < length [false])%nat /\ nth j [false] false = false /\
        new_group p = index_update [false] j (negb false) /\
        (forall i, i <> j -> nth i (new_group p) false = nth i [false] false)
  end.
Proof.
  apply (criterion_moves_one_patient [1 / 2; 1 / 2] [[true]; [false]] [false] [false; false]
           [[1]; [1]] 0 [1] [1] false).
  repeat split; repeat constructor.
Defined.

Lemma pass_keeps_positives_in_step_witness :
  exists g' pos' ev',
    run_pass greedy_selector one_open_patient [1 / 2; 1 / 2] [[true]; [false]]
             (mkBatch [[1]; [1]] 0 [] None None []) [false] [false; false] None
    = Ok (g', pos', ev') /\
    length g' = length [false] /\
    pos' = map (tests_positive g') [[true]; [false]] /\
    map (tests_positive (repeat false (length [false]))) [[true]; [false]]
    = repeat false (length [[true]; [false]]).
Proof.
  destruct first_addition_returns as [p E].
  exists (new_group p), (new_positives p),
    (Some (mkEvaluated (new_objective p) (prob_particles_states p) (new_cond_entropy p))).
  assert (Hrun : run_pass greedy_selector one_open_patient [1 / 2; 1 / 2] [[true]; [false]]
                   (mkBatch [[1]; [1]] 0 [] None None []) [false] [false; false] None
                 = Ok (new_group p, new_positives p,
                       Some (mkEvaluated (new_objective p) (prob_particles_states p)
                                         (new_cond_entropy p)))).
  { unfold run_pass, greedy_selector. cbn [forward_iterations backward_iterations run_steps].
    cbn [previous_groups_prob_partstates previous_groups_cumcond_entropy
         prior_sensitivity prior_specificity one_open_patient].
    rewrite E. reflexivity. }
  split; [exact Hrun|].
  apply (pass_keeps_positives_in_step greedy_selector one_open_patient [1 / 2; 1 / 2]
           [[true]; [false]] (mkBatch [[1]; [1]] 0 [] None None []) [false] [false; false] None
           (new_group p) (new_positives p)
           (Some (mkEvaluated (new_objective p) (prob_particles_states p)
                              (new_cond_entropy p)))).
  - repeat split; repeat constructor.
  - reflexivity.
  - exact Hrun.
Defined.

Lemma criterion_nonnegative_witness :
  exists p,
    joint_mi_criterion_mg [1 / 2; 1 / 2] [[true]; [false]] [false] [false; false]
                          [[1]; [1]] 0 [1] [1] false = Ok p /\
    0 <= new_objective p /\ -1 + 1 / 1000000 < new_objective p.
Proof.
  destruct first_addition_returns as [p E]. exists p. split; [exact E|].
  apply (criterion_nonnegative [1 / 2; 1 / 2] [[true]; [false]] [false] [false; false]
           1 [[1]; [1]] 0 [1] [1] false p).
  - split; [repeat constructor; lra|simpl; lra].
  - reflexivity.
  - reflexivity.
  - repeat constructor.
  - split; [reflexivity|]. split.
    + repeat constructor; simpl; lra.
    + unfold entropy. simpl. rewrite ln_1. lra.
  - repeat constructor; lra.
  - repeat constructor; lra.
  - exact E.
Defined.

(** X18.  The entropy that [compute_whole_entropy_groups] computes for a
    candidate is the entropy of the outcome distribution of the table that
    [upd_prob_groups_x_particle_x_states] builds for it: column by column,
    the weighted sum over the particles. *)
Theorem whole_entropy_of_updated_table (w : list R) (pos : list bool) (tab : table)
  (c : nat) (specificity rho : R) :
  length tab = length w -> length pos = length w -> tab <> [] ->
  Forall (fun row => length row = c) tab ->
  compute_whole_entropy_groups pos specificity rho w tab
  = entropy (map (fun s => dot w (map (fun row => nth s row 0)
                                      (upd_prob_groups_x_particle_x_states tab pos
                                         specificity rho)))
                 (seq 0 (2 * c))).
Proof.
  intros Hlen Hpos Hne Hrows.
  set (n := length w) in *.
  set (a := fun p => fst (probabilities_new_test (nth p pos false) specificity rho)).
  set (b := fun p => snd (probabilities_new_test (nth p pos false) specificity rho)).
  set (cell := fun p s => nth s (nth p tab []) 0).
  assert (Hshape : shape1 tab = c).
  { destruct tab as [|r0 tab']; [contradiction|].
    inversion Hrows; subst. reflexivity. }
  assert (Hrow : forall p, (p < n)%nat -> length (nth p tab []) = c).
  { intros p Hp. rewrite Forall_forall in Hrows. apply Hrows, nth_In. now rewrite Hlen. }
  unfold compute_whole_entropy_groups. rewrite Hshape.
  set (pnt := map (fun p => probabilities_new_test p specificity rho) pos).
  assert (Lpnt : length pnt = n) by (unfold pnt; now rewrite length_map).
  assert (Hpnt : forall p, (p < n)%nat -> nth p pnt (0, 0) = (a p, b p)).
  { intros p Hp. unfold pnt.
    rewrite (InfDorfmanFacts.nth_map_in _ _ p false) by (now rewrite Hpos).
    unfold a, b. now destruct (probabilities_new_test _ _ _). }
  assert (Hdot : forall (f : R * R -> R) s,
     dot (map (fun row => nth s row 0) tab)
         (map (fun pw => f (fst pw) * snd pw) (combine pnt w))
     = bigsum n (fun p => nth p w 0 * (cell p s * f (a p, b p)))).
  { intros f s. rewrite dot_bigsum
      by (rewrite !length_map, length_combine, Lpnt, Hlen; fold n; lia).
    rewrite length_map, Hlen. fold n. apply bigsum_ext. intros p Hp.
    rewrite (InfDorfmanFacts.nth_map_in _ _ p []) by (now rewrite Hlen).
    rewrite (InfDorfmanFacts.nth_map_in _ _ p ((0, 0), 0))
      by (rewrite length_combine, Lpnt; fold n; lia).
    rewrite combine_nth by (now rewrite Lpnt). cbn [fst snd].
    rewrite Hpnt by exact Hp. unfold cell. ring. }
  assert (Hupd : forall s,
     dot w (map (fun row => nth s row 0)
                (upd_prob_groups_x_particle_x_states tab pos specificity rho))
     = bigsum n (fun p => nth p w 0
                          * nth s (map (Rmult (a p)) (nth p tab [])
                                   ++ map (Rmult (b p)) (nth p tab [])) 0)).
  { intros s. rewrite dot_bigsum
      by (rewrite length_map, upd_length; [now rewrite Hlen|now rewrite Hlen, Hpos]).
    fold n. apply bigsum_ext. intros p Hp.
    rewrite (InfDorfmanFacts.nth_map_in _ _ p [])
      by (rewrite upd_length; [now rewrite Hlen|now rewrite Hlen, Hpos]).
    rewrite upd_row by (rewrite ?Hlen, ?Hpos; auto). reflexivity. }
  rewrite flat_pair_entropy, bigsum_plus.
  rewrite entropy_eta, map_map, rsum_map_seq.
  replace (2 * c)%nat with (c + c)%nat by lia. rewrite bigsum_split.
  f_equal; apply bigsum_ext; intros s Hs; f_equal.
  - rewrite (Hdot fst s), Hupd. cbn [fst]. apply bigsum_ext. intros p Hp.
    rewrite app_nth1 by (rewrite length_map, Hrow; assumption).
    rewrite (InfDorfmanFacts.nth_map_in _ _ s 0) by (rewrite Hrow; assumption).
    unfold cell. ring.
  - rewrite (Hdot snd s), Hupd. cbn [snd]. apply bigsum_ext. intros p Hp.
    rewrite app_nth2 by (rewrite length_map, Hrow by assumption; lia).
    rewrite length_map, Hrow by assumption.
    replace (c + s - c)%nat with s by lia.
    rewrite (InfDorfmanFacts.nth_map_in _ _ s 0) by (rewrite Hrow; assumption).
    unfold cell. ring.
Qed.

Lemma whole_entropy_of_updated_table_witness :
  compute_whole_entropy_groups [true; false] 1 1 [1 / 2; 1 / 2] [[1]; [1]]
  = entropy (map (fun s => dot [1 / 2; 1 / 2]
                               (map (fun row => nth s row 0)
                                    (upd_prob_groups_x_particle_x_states [[1]; [1]]
                                       [true; false] 1 1)))
                 (seq 0 (2 * 1))).
Proof.
  apply (whole_entropy_of_updated_table [1 / 2; 1 / 2] [true; false] [[1]; [1]] 1 1 1).
  - reflexivity.
  - reflexivity.
  - discriminate.
  - repeat constructor.
Defined.

Lemma argmax_from_spec (v : list R) :
  forall best besti i,
  let r := argmax_from best besti i v in
  (r = besti /\ Forall (fun x => x <= best) v) \/
  (exists k, r = (i + k)%nat /\ (k < length v)%nat /\ best < nth k v 0 /\
             (forall j, (j < k)%nat -> nth j v 0 < nth k v 0) /\
             (forall j, (j < length v)%nat -> nth j v 0 <= nth k v 0)).
Proof.
  induction v as [|x v IH]; intros best besti i; simpl.
  - left. split; [reflexivity|constructor].
  - destruct (Rlt_dec best x) as [Hlt|Hge].
    + right. destruct (IH x i (S i)) as [[E Hall]|(k & E & Hk & Hb & Hfirst & Hmax)].
      * exists 0%nat. rewrite E. split; [lia|]. split; [lia|]. split; [exact Hlt|].
        split; [intros j Hj; lia|].
        intros [|j] Hj; simpl; [lra|].
        rewrite Forall_forall in Hall. apply Hall, nth_In. lia.
      * exists (S k). rewrite E. split; [lia|]. split; [lia|]. simpl.
        split; [lra|]. split.
        -- intros [|j] Hj; [lra|]. apply Hfirst. lia.
        -- intros [|j] Hj; [lra|]. apply Hmax. lia.
    + destruct (IH best besti (S i)) as [[E Hall]|(k & E & Hk & Hb & Hfirst & Hmax)].
      * left. split; [exact E|]. constructor; [lra|exact Hall].
      * right. exists (S k). rewrite E. split; [lia|]. split; [lia|]. simpl.
        split; [exact Hb|]. split.
        -- intros [|j] Hj; [lra|]. apply Hfirst. lia.
        -- intros [|j] Hj; [lra|]. apply Hmax. lia.
Qed.

(** [argmax] returns the first index of a greatest entry. *)
Lemma argmax_first_greatest (v : list R) (i : nat) :
  argmax v = Ok i ->
  (i < length v)%nat /\
  (forall j, (j < length v)%nat -> nth j v 0 <= nth i v 0) /\
  (forall j, (j < i)%nat -> nth j v 0 < nth i v 0).
Proof.
  destruct v as [|x v]; [discriminate|]. unfold argmax. intros [= <-].
  destruct (argmax_from_spec v x 0%nat 1%nat) as [[E Hall]|(k & E & Hk & Hb & Hfirst & Hmax)];
    cbv zeta in E; rewrite E.
  - simpl. split; [lia|]. split; [|intros j Hj; lia].
    intros [|j] Hj; [lra|]. rewrite Forall_forall in Hall. apply Hall, nth_In. lia.
  - simpl. split; [lia|]. split.
    + intros [|j] Hj; [lra|]. apply Hmax. lia.
    + intros [|j] Hj; [lra|]. apply Hfirst. lia.
Qed.

Lemma sorted_nth_lt (l : list nat) (a b : nat) :
  StronglySorted lt l -> (a < b < length l)%nat -> (nth a l 0 < nth b l 0)%nat.
Proof.
  intros Hs. revert a b. induction Hs as [|x l Hs IH Hx]; intros a b Hab; [simpl in Hab; lia|].
  destruct b as [|b]; [lia|]. destruct a as [|a]; simpl in *.
  - rewrite Forall_forall in Hx. apply Hx, nth_In. lia.
  - apply IH. lia.
Qed.

(** X15.  The greedy step: among the patients that can be added (removed,
    when backtracking) [joint_mi_criterion_mg] takes one whose candidate
    group has the largest criterion, the one of lowest index among those,
    and returns that criterion. *)
Theorem criterion_picks_best (w : list R) (parts : list (list bool))
  (g : group) (pos : list bool) (tab : table) (cum : R)
  (sensitivity specificity : list R) (backtracking : bool) (p : Proposal) :
  criterion_shapes w parts g pos tab ->
  joint_mi_criterion_mg w parts g pos tab cum sensitivity specificity backtracking = Ok p ->
  let size :=
    if backtracking then (count_true g - 1)%nat else (count_true g + 1)%nat in
  let value j :=
    criterion w tab cum (select_from_sizes sensitivity size)
              (select_from_sizes specificity size)
              (candidate_positives parts g pos backtracking j) in
  exists j,
    (j < length g)%nat /\ nth j g false = backtracking /\
    new_group p = index_update g j (negb backtracking) /\
    new_objective p = value j /\
    forall j', (j' < length g)%nat -> nth j' g false = backtracking ->
      value j' <= value j /\ ((j' < j)%nat -> value j' < value j).
Proof.
  intros _ E size value. unfold joint_mi_criterion_mg in E. fold size in E.
  set (se := select_from_sizes sensitivity size) in *.
  set (sp := select_from_sizes specificity size) in *.
  set (ids := if backtracking then where_ negb (map negb g) else where_ negb g).
  assert (Hids : StronglySorted lt ids /\
                 forall j, In j ids <-> (j < length g)%nat /\ nth j g false = backtracking).
  { unfold ids, where_. destruct backtracking.
    - split; [apply where_from_increasing|]. intros j.
      rewrite (InfDorfmanFacts.where_from_iff negb true), Nat.sub_0_r, length_map.
      split; intros [Hj Hv]; (split; [lia|]).
      + rewrite (InfDorfmanFacts.nth_map_in negb g j false true) in Hv by lia.
        now apply negb_true_iff, negb_false_iff in Hv.
      + rewrite (InfDorfmanFacts.nth_map_in negb g j false true) by lia.
        now rewrite Hv.
    - split; [apply where_from_increasing|]. intros j.
      rewrite (InfDorfmanFacts.where_from_iff negb false), Nat.sub_0_r.
      split; intros [Hj Hv]; (split; [lia|]).
      + now apply negb_true_iff in Hv.
      + now rewrite Hv. }
  destruct Hids as [Hsorted Hmem].
  set (P := if backtracking
            then map (fun cand =>
                        map (fun particle =>
                               existsb (fun cp => fst cp && snd cp) (combine cand particle))
                            parts)
                     (map (map negb) (add_ones_to_line (map negb g)))
            else map (fun j => map (fun pp => fst pp || nth j (snd pp) false)
                                   (combine pos parts)) (where_ negb g)) in *.
  assert (HP : P = map (candidate_positives parts g pos backtracking) ids).
  { unfold P, ids, candidate_positives, add_ones_to_line. destruct backtracking.
    - rewrite !map_map. apply map_ext. intros i. rewrite index_update_negb. reflexivity.
    - reflexivity. }
  set (C := fun pos0 : list bool =>
              cum + binary_entropy sp
              + (binary_entropy se - binary_entropy sp) * dot w (map b2r pos0)) in *.
  set (W := fun pos0 : list bool =>
              compute_whole_entropy_groups pos0 sp (sp + se - 1) w tab) in *.
  rewrite (map_combine_maps W C (fun wc => fst wc - snd wc) P) in E. cbn [fst snd] in E.
  assert (Hobj : map (fun x => W x - C x) P = map value ids).
  { rewrite HP, map_map. reflexivity. }
  rewrite Hobj in E.
  destruct (argmax (map value ids)) as [index|e] eqn:Ea; [|discriminate].
  cbn [bind] in E. injection E as <-. cbn [new_group new_objective].
  destruct (argmax_first_greatest _ _ Ea) as (Hidx & Hmax & Hfirst).
  rewrite length_map in Hidx, Hmax.
  set (j := nth index ids 0%nat).
  assert (Hj : In j ids) by (apply nth_In; exact Hidx).
  assert (Hval : forall k, (k < length ids)%nat -> nth k (map value ids) 0 = value (nth k ids 0%nat)).
  { intros k Hk. now rewrite (InfDorfmanFacts.nth_map_in value ids k 0%nat 0). }
  exists j. apply Hmem in Hj. destruct Hj as [Hjl Hjv].
  split; [exact Hjl|]. split; [exact Hjv|]. split; [|split].
  - unfold ids in j. destruct backtracking.
    + unfold add_ones_to_line. rewrite map_map.
      rewrite (InfDorfmanFacts.nth_map_in _ _ index 0%nat) by exact Hidx.
      apply index_update_negb.
    + reflexivity.
  - now rewrite Hval.
  - intros j' Hj'l Hj'v.
    assert (Hin : In j' ids) by (apply Hmem; split; assumption).
    destruct (In_nth ids j' 0%nat Hin) as (k & Hk & Ek).
    rewrite <- Ek. unfold j. rewrite <- !Hval by assumption.
    split; [now apply Hmax|].
    intros Hlt. apply Hfirst.
    destruct (Nat.lt_ge_cases k index) as [|Hge]; [assumption|exfalso].
    destruct (Nat.eq_dec k index) as [->|Hne]; [lia|].
    pose proof (sorted_nth_lt ids index k Hsorted ltac:(lia)). lia.
Qed.

Lemma criterion_picks_best_witness :
  exists p j,
    joint_mi_criterion_mg [1 / 2; 1 / 2] [[true]; [false]] [false] [false; false]
                          [[1]; [1]] 0 [1] [1] false = Ok p /\
    (j < length [false])%nat /\ nth j [false] false = false /\
    new_group p = index_update [false] j (negb false) /\
    new_objective p
    = criterion [1 / 2; 1 / 2] [[1]; [1]] 0
        (select_from_sizes [1] (count_true [false] + 1))
        (select_from_sizes [1] (count_true [false] + 1))
        (candidate_positives [[true]; [false]] [false] [false; false] false j).
Proof.
  destruct first_addition_returns as [p E].
  destruct (criterion_picks_best [1 / 2; 1 / 2] [[true]; [false]] [false] [false; false]
              [[1]; [1]] 0 [1] [1] false p
              ltac:(repeat split; repeat constructor) E) as (j & H1 & H2 & H3 & H4 & _).
  exists p, j. repeat split; assumption.
Defined.

End CriterionProps.

(** ** [collapse_particles] *)

Module CollapseProps.
Import Np RNp RNpFacts MutualInformation CollapseFacts.
Import Spec Fixtures.
Local Open Scope R_scope.

Lemma diff_snoc (u : list R) (y x : R) :
  diff ((u ++ [y]) ++ [x]) = diff (u ++ [y]) ++ [x - y].
Proof.
  induction u as [|z u IH]; [reflexivity|].
  destruct u as [|z' u]; [reflexivity|].
  change (diff (((z :: z' :: u) ++ [y]) ++ [x]))
    with ((z' - z) :: diff (((z' :: u) ++ [y]) ++ [x])).
  rewrite IH. reflexivity.
Qed.

(** [np.flip(np.diff(np.flip(v)))]: entry [i] is [v[i] - v[i+1]]. *)
Lemma flip_diff_cons (x y : R) (l : list R) :
  rev (diff (rev (x :: y :: l))) = (x - y) :: rev (diff (rev (y :: l))).
Proof.
  change (rev (x :: y :: l)) with ((rev l ++ [y]) ++ [x]).
  rewrite diff_snoc, rev_unit. reflexivity.
Qed.

Lemma runs_facts (l : list R) :
  l <> [] ->
  runs l <> [] /\ Forall (fun k => (1 <= k)%nat) (runs l) /\
  list_sum (runs l) = length l.
Proof.
  induction l as [|x l IH]; [congruence|]. intros _.
  destruct l as [|y l].
  - simpl. repeat split; [discriminate|repeat constructor].
  - destruct (IH ltac:(discriminate)) as (Hne & Hall & Hsum).
    change (runs (x :: y :: l))
      with (match runs (y :: l) with
            | k :: ks => if Req_dec_T x y then S k :: ks else 1%nat :: k :: ks
            | [] => [1%nat]
            end).
    destruct (runs (y :: l)) as [|k ks]; [contradiction|].
    inversion Hall as [|? ? Hk Hks]; subst.
    destruct (Req_dec_T x y).
    + repeat split; [discriminate|constructor; [lia|exact Hks]|].
      simpl in *. lia.
    + repeat split; [discriminate|repeat constructor; assumption|].
      simpl in *. lia.
Qed.

(** The indices the code keeps are the last index of every run. *)
Lemma singles_ends (l : list R) (s : nat) :
  l <> [] ->
  where_from (fun d => negb (Reqb d 0)) s (rev (diff (rev l))) ++ [(s + length l - 1)%nat]
  = ends_from s (runs l).
Proof.
  revert s. induction l as [|x l IH]; [congruence|]. intros s _.
  destruct l as [|y l].
  - simpl. first [reflexivity|f_equal; lia].
  - rewrite flip_diff_cons. cbn [where_from].
    specialize (IH (S s) ltac:(discriminate)).
    destruct (runs_facts (y :: l) ltac:(discriminate)) as (Hne & Hall & _).
    change (runs (x :: y :: l))
      with (match runs (y :: l) with
            | k :: ks => if Req_dec_T x y then S k :: ks else 1%nat :: k :: ks
            | [] => [1%nat]
            end).
    destruct (runs (y :: l)) as [|k ks]; [contradiction|].
    inversion Hall as [|? ? Hk _]; subst.
    replace (s + length (x :: y :: l) - 1)%nat with (S s + length (y :: l) - 1)%nat
      by (simpl; lia).
    destruct (Req_dec_T x y) as [E|E].
    + assert (Hq : Reqb (x - y) 0 = true).
      { unfold Reqb. destruct (Req_dec_T (x - y) 0) as [_|E']; [reflexivity|].
        exfalso. apply E'. lra. }
      rewrite Hq. cbn [negb]. rewrite IH. cbn [ends_from].
      replace (s + S k)%nat with (S s + k)%nat by lia. f_equal; lia.
    + assert (Hq : Reqb (x - y) 0 = false).
      { unfold Reqb. destruct (Req_dec_T (x - y) 0) as [E'|_]; [|reflexivity].
        exfalso. apply E. lra. }
      rewrite Hq. cbn [negb app]. rewrite IH. cbn [ends_from].
      replace (s + 1)%nat with (S s) by lia. f_equal; lia.
Qed.

Lemma gather_ends_skipn {A : Type} (d : A) (l : list A) (k s : nat) (ks : list nat) :
  Forall (fun k => (1 <= k)%nat) ks ->
  gather d l (ends_from (k + s) ks) = gather d (skipn k l) (ends_from s ks).
Proof.
  intros Hall. revert s. induction Hall as [|k' ks Hk _ IH]; intros s; [reflexivity|].
  cbn [ends_from gather map]. f_equal.
  - rewrite nth_skipn. f_equal. lia.
  - replace (k + s + k')%nat with (k + (s + k'))%nat by lia. apply IH.
Qed.

Lemma skipn_cumsum_from (k : nat) (acc : R) (v : list R) :
  skipn k (cumsum_from acc v) = cumsum_from (acc + rsum (firstn k v)) (skipn k v).
Proof.
  revert acc v. induction k as [|k IH]; intros acc v.
  - simpl. f_equal. lra.
  - destruct v as [|x v]; [simpl; f_equal; lra|].
    cbn [cumsum_from skipn firstn]. rewrite IH. f_equal. simpl. lra.
Qed.

Lemma nth_cumsum_from (k : nat) (acc : R) (v : list R) :
  (1 <= k <= length v)%nat ->
  nth (k - 1) (cumsum_from acc v) 0 = acc + rsum (firstn k v).
Proof.
  revert acc v. induction k as [|k IH]; intros acc v Hk; [lia|].
  destruct v as [|x v]; [simpl in Hk; lia|].
  destruct k as [|k].
  - simpl. lra.
  - replace (S (S k) - 1)%nat with (S (S k - 1)) by lia.
    cbn [cumsum_from nth firstn]. rewrite IH by (simpl in Hk; lia).
    cbn [firstn]. simpl. lra.
Qed.

(** The cumulative sums read at the ends of consecutive blocks are the
    cumulative sums of the block totals. *)
Lemma gather_cumsum_ends (sizes : list nat) :
  forall (acc : R) (v : list R),
  Forall (fun k => (1 <= k)%nat) sizes -> (list_sum sizes <= length v)%nat ->
  gather 0 (cumsum_from acc v) (ends_from 0 sizes)
  = cumsum_from acc (map rsum (chunks v sizes)).
Proof.
  induction sizes as [|k ks IH]; intros acc v Hall Hsum; [reflexivity|].
  inversion Hall as [|? ? Hk Hks]; subst. simpl in Hsum.
  cbn [ends_from gather map chunks cumsum_from]. f_equal.
  - rewrite Nat.add_0_l. apply nth_cumsum_from. lia.
  - rewrite Nat.add_0_l.
    replace k with (k + 0)%nat at 1 by lia.
    change (map (fun i => nth i (cumsum_from acc v) 0) (ends_from (k + 0) ks))
      with (gather 0 (cumsum_from acc v) (ends_from (k + 0) ks)).
    rewrite gather_ends_skipn, skipn_cumsum_from by exact Hks.
    apply IH; [exact Hks|]. rewrite length_skipn. lia.
Qed.

Lemma head_diff_cumsum (x : R) (v : list R) :
  nth 0 (cumsum_from 0 (x :: v)) 0 :: diff (cumsum_from 0 (x :: v)) = x :: v.
Proof.
  assert (H : forall acc v, diff (cumsum_from acc v) = tl v).
  { clear. intros acc v. revert acc. induction v as [|a [|b v] IH]; intros acc; try reflexivity.
    change (diff (cumsum_from acc (a :: b :: v)))
      with ((acc + a + b - (acc + a)) :: diff (cumsum_from (acc + a) (b :: v))).
    rewrite IH. simpl. f_equal. lra. }
  cbn [cumsum_from nth]. f_equal; [lra|].
  change (diff (0 + x :: cumsum_from (0 + x) v))
    with (diff (cumsum_from 0 (x :: v))).
  now rewrite H.
Qed.

Lemma nth_last_firstn {A : Type} (d : A) (k : nat) (l : list A) :
  (1 <= k <= length l)%nat -> nth (k - 1) l d = last (firstn k l) d.
Proof.
  revert l. induction k as [|k IH]; intros l Hk; [lia|].
  destruct l as [|x l]; [simpl in Hk; lia|].
  destruct k as [|k].
  - destruct l; reflexivity.
  - replace (S (S k) - 1)%nat with (S (S k - 1)) by lia.
    cbn [nth]. rewrite IH by (simpl in Hk; lia).
    destruct l as [|y l]; [simpl in Hk; lia|]. reflexivity.
Qed.

Lemma gather_ends {A : Type} (d : A) (sizes : list nat) :
  forall l : list A,
  Forall (fun k => (1 <= k)%nat) sizes -> (list_sum sizes <= length l)%nat ->
  gather d l (ends_from 0 sizes) = map (fun c => last c d) (chunks l sizes).
Proof.
  induction sizes as [|k ks IH]; intros l Hall Hsum; [reflexivity|].
  inversion Hall as [|? ? Hk Hks]; subst. simpl in Hsum.
  cbn [ends_from gather map chunks]. f_equal.
  - rewrite Nat.add_0_l. apply nth_last_firstn. lia.
  - rewrite Nat.add_0_l.
    replace k with (k + 0)%nat at 1 by lia.
    change (map (fun i => nth i l d) (ends_from (k + 0) ks))
      with (gather d l (ends_from (k + 0) ks)).
    rewrite gather_ends_skipn by exact Hks. apply IH; [exact Hks|]. rewrite length_skipn. lia.
Qed.

(** [collapse_particles] in terms of runs: the particles are sorted by
    their projection, every run of equal projections is replaced by its
    last particle, and that particle gets the total weight of the run. *)
Lemma collapse_particles_runs (alpha w : list R) (parts : list (list bool)) :
  (2 <= length parts)%nat ->
  let rp := map (fun p => dot (map b2r p) alpha) parts in
  let sizes := runs (gather 0 rp (argsort rp)) in
  collapse_particles alpha w parts
  = (map rsum (chunks (gather 0 w (argsort rp)) sizes),
     map (fun c => last c []) (chunks (gather [] parts (argsort rp)) sizes)).
Proof.
  intros Hn rp. set (idx := argsort rp). set (rp' := gather 0 rp idx). intros sizes.
  unfold collapse_particles.
  destruct (Nat.ltb_spec (length parts) 2) as [|_]; [lia|].
  fold rp. fold idx. fold rp'.
  assert (Lidx : length idx = length parts).
  { unfold idx. rewrite argsort_length. unfold rp. apply length_map. }
  assert (Lrp' : length rp' = length parts) by (unfold rp', gather; now rewrite length_map).
  assert (Hne : rp' <> []) by (intros E; rewrite E in Lrp'; simpl in Lrp'; lia).
  destruct (runs_facts rp' Hne) as (Hsz & Hall & Hsum).
  assert (Hsingles : where_ (fun d => negb (Reqb d 0)) (rev (diff (rev rp')))
                     ++ [(length parts - 1)%nat] = ends_from 0 sizes).
  { unfold where_, sizes. rewrite <- (singles_ends rp' 0 Hne). now rewrite Lrp'. }
  rewrite Hsingles.
  assert (LW : length (gather 0 w idx) = length parts)
    by (unfold gather; now rewrite length_map).
  assert (LP : length (gather [] parts idx) = length parts)
    by (unfold gather; now rewrite length_map).
  unfold cumsum.
  rewrite gather_cumsum_ends by (try exact Hall; unfold sizes; lia).
  rewrite (gather_ends []) by (try exact Hall; unfold sizes; lia).
  f_equal.
  assert (Hhd : nth (nth 0 (ends_from 0 sizes) 0%nat) (cumsum_from 0 (gather 0 w idx)) 0
                = nth 0 (cumsum_from 0 (map rsum (chunks (gather 0 w idx) sizes))) 0).
  { rewrite <- (gather_cumsum_ends sizes 0 (gather 0 w idx)) by (try exact Hall; unfold sizes; lia).
    fold sizes in Hsz. destruct sizes as [|k ks]; [contradiction|]. reflexivity. }
  rewrite Hhd.
  fold sizes in Hsz.
  destruct (map rsum (chunks (gather 0 w idx) sizes)) as [|x v] eqn:E.
  - destruct sizes; [contradiction|discriminate].
  - apply head_diff_cumsum.
Qed.

Lemma chunks_nonempty {A : Type} (sizes : list nat) (l : list A) (c : list A) :
  Forall (fun k => (1 <= k)%nat) sizes -> (list_sum sizes <= length l)%nat ->
  In c (chunks l sizes) -> c <> [].
Proof.
  intros Hall Hsum Hc.
  pose proof (SplitFacts.chunks_lengths sizes l Hsum) as HL.
  assert (Hin : In (length c) sizes) by (rewrite <- HL; now apply in_map).
  rewrite Forall_forall in Hall. specialize (Hall _ Hin).
  intros ->. simpl in Hall. lia.
Qed.

Lemma last_in {A : Type} (d : A) (c : list A) : c <> [] -> In (last c d) c.
Proof.
  induction c as [|x c IH]; [congruence|]. intros _.
  destruct c as [|y c]; [now left|]. right. apply IH. discriminate.
Qed.

Lemma runs_cons (x y : R) (l : list R) :
  runs (x :: y :: l)
  = match runs (y :: l) with
    | [] => [1%nat]
    | k :: ks => if Req_dec_T x y then S k :: ks else 1%nat :: k :: ks
    end.
Proof. reflexivity. Qed.

(** In a sorted array the last entries of the runs increase strictly. *)
Lemma run_ends_increase (l : list R) :
  StronglySorted Rle l ->
  StronglySorted Rlt (map (fun c => last c 0) (chunks l (runs l))).
Proof.
  induction l as [|x l IH]; intros Hs; [constructor|].
  apply StronglySorted_inv in Hs. destruct Hs as [Hs Hx].
  destruct l as [|y l]; [repeat constructor|].
  specialize (IH Hs). rewrite runs_cons.
  destruct (runs_facts (y :: l) ltac:(discriminate)) as (Hne & Hall & Hsum).
  destruct (runs (y :: l)) as [|k ks] eqn:Er; [contradiction|].
  inversion Hall as [|? ? Hk Hks]; subst.
  destruct (Req_dec_T x y) as [E|E].
  - cbn [chunks map] in IH |- *. cbn [firstn skipn].
    destruct k as [|k]; [lia|]. cbn [firstn skipn] in IH.
    exact IH.
  - change (chunks (x :: y :: l) (1%nat :: k :: ks))
      with ([x] :: chunks (y :: l) (k :: ks)).
    cbn [map last]. constructor; [exact IH|].
    apply Forall_forall. intros m Hm. apply in_map_iff in Hm.
    destruct Hm as [c [<- Hc]].
    assert (Hin : In (last c 0) (y :: l)).
    { apply (SplitFacts.chunks_incl (k :: ks) (y :: l) c); [exact Hc|].
      apply last_in. apply (chunks_nonempty (k :: ks) (y :: l)); auto. lia. }
    rewrite Forall_forall in Hx.
    pose proof (Hx y (or_introl eq_refl)) as Hxy.
    apply StronglySorted_inv in Hs. destruct Hs as [_ Hy]. rewrite Forall_forall in Hy.
    destruct Hin as [<-|Hin]; [lra|]. specialize (Hy _ Hin). lra.
Qed.

Lemma sorted_lt_NoDup (l : list R) : StronglySorted Rlt l -> NoDup l.
Proof.
  induction 1 as [|x l _ IH Hx]; constructor; [|exact IH].
  intros Hin. rewrite Forall_forall in Hx. specialize (Hx _ Hin). lra.
Qed.

Lemma last_map {A B : Type} (f : A -> B) (d : A) (c : list A) :
  last (map f c) (f d) = f (last c d).
Proof.
  induction c as [|x c IH]; [reflexivity|].
  destruct c as [|y c]; [reflexivity|]. exact IH.
Qed.

(** X19.  No particle occurs twice in what [collapse_particles] returns:
    identical particles have the same projection, and the function keeps one
    particle for each value of the projection. *)
Theorem collapse_particles_distinct (alpha w : list R) (parts : list (list bool)) :
  length w = length parts ->
  Forall (fun particle => length particle = length alpha) parts ->
  NoDup (snd (collapse_particles alpha w parts)).
Proof.
  intros _ _.
  destruct (Nat.ltb_spec (length parts) 2) as [Hsmall|Hbig].
  - unfold collapse_particles. apply Nat.ltb_lt in Hsmall. rewrite Hsmall. cbn [snd].
    apply Nat.ltb_lt in Hsmall.
    destruct parts as [|p [|p' parts]]; [constructor|repeat constructor; intros []|].
    simpl in Hsmall. lia.
  - rewrite collapse_particles_runs by exact Hbig. cbn [snd].
    set (proj := fun p => dot (map b2r p) alpha).
    set (rp := map proj parts).
    set (idx := argsort rp).
    apply (NoDup_map_inv proj).
    rewrite map_map.
    rewrite (map_ext _ (fun c => last (map proj c) 0))
      by (intros c; symmetry; apply (last_map proj [] c)).
    rewrite <- (map_map (map proj) (fun c => last c 0)).
    rewrite InfDorfmanFacts.chunks_map.
    assert (E : map proj (gather [] parts idx) = gather 0 rp idx).
    { unfold gather, rp. rewrite map_map. apply map_ext_in. intros i Hi.
      assert (Hi' : (i < length parts)%nat).
      { unfold idx in Hi. apply (Permutation_in _ (argsort_perm rp)) in Hi.
        apply in_seq in Hi. unfold rp in Hi. rewrite length_map in Hi. lia. }
      now rewrite (InfDorfmanFacts.nth_map_in proj parts i [] 0). }
    rewrite E. apply sorted_lt_NoDup, run_ends_increase.
    apply gather_argsort_sorted.
Qed.

Lemma collapse_particles_distinct_witness :
  NoDup (snd (collapse_particles unit_alpha half_weights twin_particles)).
Proof.
  apply (collapse_particles_distinct unit_alpha half_weights twin_particles).
  - reflexivity.
  - repeat constructor.
Defined.

(** Under a projection that separates the particles, every run holds
    copies of one particle. *)
Lemma runs_blocks_constant (proj : list bool -> R) (P : list (list bool)) :
  (forall p p', In p P -> In p' P -> proj p = proj p' -> p = p') ->
  Forall (fun c => forall x, In x c -> x = last c [])
         (chunks P (runs (map proj P))).
Proof.
  induction P as [|x P IH]; intros Hsep; [constructor|].
  destruct P as [|y P].
  - simpl. constructor; [|constructor]. intros z [<-|[]]. reflexivity.
  - assert (Hsep' : forall p p', In p (y :: P) -> In p' (y :: P) -> proj p = proj p' -> p = p').
    { intros p p' Hp Hp'. apply Hsep; now right. }
    specialize (IH Hsep').
    change (map proj (x :: y :: P)) with (proj x :: proj y :: map proj P).
    rewrite runs_cons.
    change (proj y :: map proj P) with (map proj (y :: P)).
    destruct (runs_facts (map proj (y :: P)) ltac:(discriminate)) as (Hne & Hall & _).
    destruct (runs (map proj (y :: P))) as [|k ks]; [contradiction|].
    inversion Hall as [|? ? Hk _]; subst.
    destruct (Req_dec_T (proj x) (proj y)) as [E|E].
    + destruct k as [|k]; [lia|].
      cbn [chunks firstn skipn] in IH |- *.
      inversion IH as [|? ? Hc Hrest]; subst. constructor; [|exact Hrest].
      assert (Exy : x = y) by (apply Hsep; [now left|right; now left|exact E]).
      intros z [<-|Hz].
      * rewrite Exy. apply Hc. now left.
      * now apply Hc.
    + change (chunks (x :: y :: P) (1%nat :: k :: ks))
        with ([x] :: chunks (y :: P) (k :: ks)).
      constructor; [|exact IH]. intros z [<-|[]]. reflexivity.
Qed.

Lemma weight_of_app (q : list bool) (u v : list R) (u' v' : list (list bool)) :
  length u = length u' ->
  weight_of q (u ++ v) (u' ++ v') = weight_of q u u' + weight_of q v v'.
Proof.
  unfold weight_of. revert u'. induction u as [|a u IH]; intros [|a' u'] H;
    try discriminate H; simpl.
  - lra.
  - injection H as H. rewrite (IH u' H). lra.
Qed.

Lemma weight_of_constant (q c : list bool) (ws : list R) (ps : list (list bool)) :
  length ws = length ps -> (forall x, In x ps -> x = c) ->
  weight_of q ws ps = if list_eq_dec bool_dec c q then rsum ws else 0.
Proof.
  unfold weight_of. revert ps. induction ws as [|a ws IH]; intros [|p ps] H Hc;
    try discriminate H.
  - simpl. now destruct (list_eq_dec bool_dec c q).
  - injection H as H. cbn [combine map rsum fold_right fst snd].
    change (fold_right Rplus 0 ?l) with (rsum l).
    rewrite (IH ps H) by (intros x Hx; apply Hc; now right).
    rewrite (Hc p (or_introl eq_refl)).
    destruct (list_eq_dec bool_dec c q); lra.
Qed.

Lemma weight_of_blocks (q : list bool) (sizes : list nat) :
  forall (ws : list R) (ps : list (list bool)),
  length ws = length ps -> list_sum sizes = length ps ->
  Forall (fun c => forall x, In x c -> x = last c []) (chunks ps sizes) ->
  weight_of q (map rsum (chunks ws sizes)) (map (fun c => last c []) (chunks ps sizes))
  = weight_of q ws ps.
Proof.
  induction sizes as [|k ks IH]; intros ws ps Hlen Hsum Hc.
  - simpl in Hsum. destruct ps; [|discriminate]. destruct ws; [|discriminate]. reflexivity.
  - simpl in Hsum. cbn [chunks map] in Hc |- *.
    inversion Hc as [|? ? Hc1 Hc2]; subst.
    rewrite <- (firstn_skipn k ws) at 3. rewrite <- (firstn_skipn k ps) at 3.
    assert (Hf : length (firstn k ws) = length (firstn k ps))
      by (rewrite !length_firstn; lia).
    rewrite weight_of_app by exact Hf.
    rewrite <- (IH (skipn k ws) (skipn k ps)); [| |rewrite length_skipn; lia|exact Hc2].
    2: rewrite !length_skipn; lia.
    rewrite (weight_of_constant q (last (firstn k ps) []) _ _ Hf Hc1).
    unfold weight_of at 1. cbn [combine map rsum fold_right fst snd].
    reflexivity.
Qed.

Lemma combine_gather (w : list R) (parts : list (list bool)) (idx : list nat) :
  combine (gather 0 w idx) (gather [] parts idx)
  = map (fun i => (nth i w 0, nth i parts [])) idx.
Proof. unfold gather. induction idx as [|i idx IH]; simpl; [reflexivity|now rewrite IH]. Qed.

Lemma weight_of_gather (q : list bool) (w : list R) (parts : list (list bool))
  (idx : list nat) :
  length w = length parts -> Permutation idx (seq 0 (length parts)) ->
  weight_of q (gather 0 w idx) (gather [] parts idx) = weight_of q w parts.
Proof.
  intros Hlen Hperm. unfold weight_of.
  assert (E : combine w parts
              = map (fun i => (nth i w 0, nth i parts [])) (seq 0 (length parts))).
  { rewrite <- combine_gather, InfDorfmanFacts.gather_seq.
    rewrite <- Hlen. now rewrite InfDorfmanFacts.gather_seq. }
  rewrite combine_gather, E.
  apply rsum_perm, Permutation_map, Permutation_map. exact Hperm.
Qed.

(** X20.  When the projection drawn tells the particles apart (different
    particles have different projections, as a draw from a continuous
    distribution does with probability one), [collapse_particles] keeps the
    weighted population: every particle has the same total weight after as
    before. *)
Theorem collapse_particles_keeps_weights (alpha w : list R) (parts : list (list bool))
  (q : list bool) :
  length w = length parts ->
  Forall (fun particle => length particle = length alpha) parts ->
  (forall p p', In p parts -> In p' parts ->
     dot (map b2r p) alpha = dot (map b2r p') alpha -> p = p') ->
  weight_of q (fst (collapse_particles alpha w parts))
              (snd (collapse_particles alpha w parts))
  = weight_of q w parts.
Proof.
  intros Hlen _ Hsep.
  destruct (Nat.ltb_spec (length parts) 2) as [Hsmall|Hbig].
  - unfold collapse_particles. apply Nat.ltb_lt in Hsmall. now rewrite Hsmall.
  - rewrite collapse_particles_runs by exact Hbig. cbn [fst snd].
    set (proj := fun p => dot (map b2r p) alpha).
    set (rp := map proj parts).
    set (idx := argsort rp).
    assert (Hperm : Permutation idx (seq 0 (length parts))).
    { unfold idx. replace (length parts) with (length rp) by (unfold rp; apply length_map).
      apply argsort_perm. }
    assert (Hidx : Forall (fun i => (i < length parts)%nat) idx).
    { apply Forall_forall. intros i Hi. apply (Permutation_in _ Hperm) in Hi.
      apply in_seq in Hi. lia. }
    assert (E : gather 0 rp idx = map proj (gather [] parts idx)).
    { unfold gather, rp. rewrite map_map. apply map_ext_in. intros i Hi.
      rewrite Forall_forall in Hidx.
      now rewrite (InfDorfmanFacts.nth_map_in proj parts i [] 0) by (now apply Hidx). }
    rewrite E.
    assert (LP : length (gather [] parts idx) = length parts).
    { unfold gather. rewrite length_map, (Permutation_length Hperm). apply length_seq. }
    assert (LW : length (gather 0 w idx) = length parts).
    { unfold gather. rewrite length_map, (Permutation_length Hperm). apply length_seq. }
    rewrite weight_of_blocks.
    + now apply weight_of_gather.
    + now rewrite LW, LP.
    + assert (Hne : map proj (gather [] parts idx) <> []).
      { intros H. apply (f_equal (@length R)) in H. rewrite length_map, LP in H.
        simpl in H. lia. }
      destruct (runs_facts _ Hne) as (_ & _ & Hsum). now rewrite Hsum, length_map.
    + apply runs_blocks_constant. intros p p' Hp Hp'. apply Hsep.
      * now apply (gather_in [] parts idx p Hidx).
      * now apply (gather_in [] parts idx p' Hidx).
Qed.

Lemma collapse_particles_keeps_weights_witness :
  weight_of [true] (fst (collapse_particles unit_alpha uneven_weights distinct_particles))
                   (snd (collapse_particles unit_alpha uneven_weights distinct_particles))
  = weight_of [true] uneven_weights distinct_particles.
Proof.
  apply (collapse_particles_keeps_weights unit_alpha uneven_weights distinct_particles [true]).
  - reflexivity.
  - repeat constructor.
  - intros p p' [<-|[<-|[]]] [<-|[<-|[]]] H; try reflexivity; exfalso;
      unfold unit_alpha, dot, rsum, b2r in H; simpl in H; lra.
Defined.

(** X21.  What [collapse_particles] returns is again a weighted population
    over the same patients: one weight per particle, every particle one of
    those received (so of the same width), at least one particle if any was
    received, and no negative weight if none was received. *)
Theorem collapse_particles_keeps_population (alpha w : list R) (parts : list (list bool)) :
  length w = length parts ->
  Forall (fun particle => length particle = length alpha) parts ->
  length (fst (collapse_particles alpha w parts))
  = length (snd (collapse_particles alpha w parts)) /\
  (forall r, In r (snd (collapse_particles alpha w parts)) -> In r parts) /\
  Forall (fun particle => length particle = length alpha)
         (snd (collapse_particles alpha w parts)) /\
  (parts <> [] -> snd (collapse_particles alpha w parts) <> []) /\
  (Forall (fun x => 0 <= x) w ->
   Forall (fun x => 0 <= x) (fst (collapse_particles alpha w parts))).
Proof.
  intros Hlen Hwidth.
  destruct (Nat.ltb_spec (length parts) 2) as [Hsmall|Hbig].
  - assert (E : collapse_particles alpha w parts = (w, parts)).
    { unfold collapse_particles. apply Nat.ltb_lt in Hsmall. now rewrite Hsmall. }
    rewrite E. cbn [fst snd]. auto.
  - destruct (collapse_particles alpha w parts) as [w' parts'] eqn:E.
    destruct (collapse_particles_facts alpha w parts Hlen Hbig w' parts' E)
      as (_ & Hl & Hcount & Hin & Hpos).
    cbn [fst snd]. split; [exact Hl|]. split; [exact Hin|]. split; [|split].
    + apply Forall_forall. intros r Hr. rewrite Forall_forall in Hwidth.
      now apply Hwidth, Hin.
    + intros _ Hnil. rewrite Hnil in Hcount. simpl in Hcount. lia.
    + exact Hpos.
Qed.

Lemma collapse_particles_keeps_population_witness :
  length (fst (collapse_particles unit_alpha half_weights twin_particles))
  = length (snd (collapse_particles unit_alpha half_weights twin_particles)) /\
  (forall r, In r (snd (collapse_particles unit_alpha half_weights twin_particles)) ->
             In r twin_particles) /\
  Forall (fun particle => length particle = length unit_alpha)
         (snd (collapse_particles unit_alpha half_weights twin_particles)) /\
  (twin_particles <> [] ->
   snd (collapse_particles unit_alpha half_weights twin_particles) <> []) /\
  (Forall (fun x => 0 <= x) half_weights ->
   Forall (fun x => 0 <= x) (fst (collapse_particles unit_alpha half_weights twin_particles))).
Proof.
  apply (collapse_particles_keeps_population unit_alpha half_weights twin_particles).
  - reflexivity.
  - repeat constructor.
Defined.

End CollapseProps.

(** ** [MaxMutualInformation.get_groups] under a certain belief *)

Module CertainBelief.
Import Np RNp MutualInformation EntropyFacts TableFacts CriterionFacts SearchFacts SelectorFacts.
Import Spec Fixtures.
Local Open Scope R_scope.



Section OneParticle.

Variables (self : MaxMutualInformation) (st : State).
Variables (x : R) (particle : list bool) (b : Batch) (c : nat).

Hypothesis Hiter : (backward_iterations self < forward_iterations self)%nat.
Hypothesis Hw : weights_ok [x].
Hypothesis Htab :
  table_ok [x] c (previous_groups_prob_partstates b) (previous_groups_cumcond_entropy b).
Hypothesis Hse : Forall probability (prior_sensitivity st).
Hypothesis Hsp : Forall probability (prior_specificity st).




End OneParticle.




End CertainBelief.
